(** * image-tools: colours, pixels and images

    A shallow embedding of the TypeScript sources of the image-color and
    image-core packages ([color.ts], [colors.ts], [color-pair.ts], [pixel.ts], [image.ts])
    together with the properties of their specification.

    JavaScript values are modelled as the language defines them:
    - a [number] is an IEEE 754 binary64 value, here a [spec_float] with
      precision 53 and maximal exponent 1024; [+ - * /] are the correctly
      rounded operations of [SpecFloat], [%] and [Math.round] are exact;
    - a string is the list of its code units (each below 256);
    - an array is a list of slots, a slot being empty (a hole) or filled,
      plus the properties stored under keys that are not array indices;
    - a [throw] is the [Throw] case of a completion.

    The coordinates of a pixel and the width and height of an image are
    integers, with the sums and products of integers; the numbers of the
    source compute the same on safe integers (see the sums and products
    of safe integers, among the properties).

    [Image.save], which writes a PNG file through the runtime and an
    encoder of another package, is outside this embedding. *)

From Stdlib Require Import ZArith Lia Bool Ascii String.
From Stdlib Require Import Floats.SpecFloat.
From stdpp Require Import base option list gmap strings pretty.

Local Open Scope Z_scope.

(** ** Completions: a returned value or a thrown error *)

Inductive Error : Type := mkError (message : string).

Inductive completion (A : Type) : Type :=
| Return (a : A)
| Throw (e : Error).
Arguments Return {A} a.
Arguments Throw {A} e.

Definition bind {A B : Type} (c : completion A) (k : A -> completion B) : completion B :=
  match c with
  | Return a => k a
  | Throw e => Throw e
  end.

Definition returns {A : Type} (c : completion A) : bool :=
  match c with Return _ => true | Throw _ => false end.

Definition throws {A : Type} (c : completion A) : bool := negb (returns c).

(** ** The JavaScript values the sources compute with *)

Module JS.

(** *** Numbers *)

Definition number : Type := spec_float.

Definition prec : Z := 53.
Definition emax : Z := 1024.

Definition NaN : number := S754_nan.
Definition Infinity : number := S754_infinity false.

(** The number an integer literal denotes (the nearest binary64). *)
Definition of_Z (z : Z) : number := binary_normalize prec emax z 0 false.

Definition add : number -> number -> number := SFadd prec emax.
Definition sub : number -> number -> number := SFsub prec emax.
Definition mul : number -> number -> number := SFmul prec emax.
Definition div : number -> number -> number := SFdiv prec emax.

(** [x === y] on numbers: NaN differs from itself, [+0 === -0]. *)
Definition strict_eq : number -> number -> bool := SFeqb.

Definition isNaN (x : number) : bool :=
  match x with S754_nan => true | _ => false end.

Definition isFinite (x : number) : bool :=
  match x with S754_zero _ | S754_finite _ _ _ => true | _ => false end.

(** [n % d] (Number::remainder): the sign is that of the dividend and the
    result is exact, [n - d * trunc (n / d)]. *)
Definition rem (n d : number) : number :=
  match n, d with
  | S754_nan, _ | _, S754_nan => S754_nan
  | S754_infinity _, _ => S754_nan
  | _, S754_zero _ => S754_nan
  | S754_zero _, _ => n
  | S754_finite _ _ _, S754_infinity _ => n
  | S754_finite sn mn en, S754_finite _ md ed =>
      let ez := Z.min en ed in
      let N := Zpos (fst (shl_align mn en ez)) in
      let D := Zpos (fst (shl_align md ed ez)) in
      binary_normalize prec emax (cond_Zopp sn (N mod D)) ez sn
  end.

(** [Math.round x]: the nearest integer, a tie going towards +Infinity;
    a result of zero keeps the sign of [x]. *)
Definition round (x : number) : number :=
  match x with
  | S754_finite s m e =>
      if 0 <=? e then x
      else binary_normalize prec emax
             (Z.shiftr (cond_Zopp s (Zpos m~0) + 2 ^ (- e)) (1 - e)) 0 s
  | _ => x
  end.

(** The integer part of a number, towards zero (0 for NaN and infinities). *)
Definition trunc (x : number) : Z :=
  match x with
  | S754_finite s m e =>
      cond_Zopp s (if 0 <=? e then Zpos m * 2 ^ e else Zpos m / 2 ^ (- e))
  | _ => 0
  end.

(** [ToUint8]: what a store into a [Uint8Array] keeps of a number. *)
Definition to_uint8 (x : number) : Z := trunc x mod 256.

(** The integer a number is, when it is one. *)
Definition to_Z (x : number) : option Z :=
  match x with
  | S754_zero _ => Some 0
  | S754_finite s m e =>
      if 0 <=? e then Some (cond_Zopp s (Zpos m * 2 ^ e))
      else if Zpos m mod 2 ^ (- e) =? 0 then Some (cond_Zopp s (Zpos m / 2 ^ (- e)))
      else None
  | _ => None
  end.

(** A value of the binary64 format. *)
Definition is_binary64 (x : number) : bool := valid_binary prec emax x.


(** *** Strings *)

Definition startsWith (s p : string) : bool := String.prefix p s.

(** [s.slice(start)] and [s.slice(start, end)] for [0 <= start <= end]. *)
Definition slice_from (s : string) (start : nat) : string :=
  String.substring start (String.length s - start) s.
Definition slice (s : string) (start stop : nat) : string :=
  String.substring start (stop - start) s.

(** [s.split('')]: the code units, one string each. *)
Fixpoint split_chars (s : string) : list string :=
  match s with
  | EmptyString => []
  | String c s' => String c EmptyString :: split_chars s'
  end.

(** [l.join('')]. *)
Definition join (l : list string) : string :=
  fold_right String.append EmptyString l.

(** White space and line terminators (among the code units below 256). *)
Definition is_white_space (c : ascii) : bool :=
  let n := Z.of_nat (nat_of_ascii c) in
  (9 <=? n) && (n <=? 13) || (n =? 32) || (n =? 160).

Fixpoint trim_start (s : string) : string :=
  match s with
  | String c s' => if is_white_space c then trim_start s' else s
  | EmptyString => s
  end.

Definition hex_digit (c : ascii) : option Z :=
  let n := Z.of_nat (nat_of_ascii c) in
  if (48 <=? n) && (n <=? 57) then Some (n - 48)
  else if (65 <=? n) && (n <=? 70) then Some (n - 55)
  else if (97 <=? n) && (n <=? 102) then Some (n - 87)
  else None.

(** The value of the longest prefix of hexadecimal digits; [acc] is the
    value of the digits read so far, if any. *)
Fixpoint hex_prefix (s : string) (acc : option Z) : option Z :=
  match s with
  | String c s' =>
      match hex_digit c with
      | Some d => hex_prefix s' (Some (16 * default 0 acc + d))
      | None => acc
      end
  | EmptyString => acc
  end.

Definition strip_0x (s : string) : string :=
  match s with
  | String "0" (String "x" s') => s'
  | String "0" (String "X" s') => s'
  | _ => s
  end.

(** [parseInt(s, 16)]: leading white space is skipped, then a sign, then
    [0x]; the digits that follow are read up to the first character that
    is not one; NaN when there is no digit. *)
Definition parseInt16 (s : string) : number :=
  let s := trim_start s in
  let '(sign, s) :=
    match s with
    | String "-" s' => (true, s')
    | String "+" s' => (false, s')
    | _ => (false, s)
    end in
  match hex_prefix (strip_0x s) None with
  | None => NaN
  | Some v => binary_normalize prec emax (cond_Zopp sign v) 0 sign
  end.

(** *** Arrays

    [slots] are the elements, at the indices [0 .. length - 1], [None]
    being a hole; [props] holds the plain properties of the array object
    under integer keys. An integer is an array index when it is in
    [0, 2^32 - 2]: a store at an array index at or past the end extends
    the array. A store under any other integer key, a negative one or one
    of 2^32 - 1 or more, makes a plain property and leaves the length
    alone; a read under such a key reads that property.

    An array has at most 2^32 - 1 elements, so that an index below the
    length is an array index. ([push] is not modelled at that limit, where
    it throws; on the longer lists it can build here, the indices below
    the length still name the elements.) *)

Record Array (A : Type) : Type := mkArray {
  slots : list (option A);
  props : gmap Z A
}.
Arguments mkArray {A} slots props.
Arguments slots {A} a.
Arguments props {A} a.

Definition is_array_index (i : Z) : bool := (0 <=? i) && (i <? 2 ^ 32 - 1).

Section Arrays.
Context {A : Type}.

Definition empty_array : Array A := mkArray [] ∅.

Definition array_length (arr : Array A) : Z := Z.of_nat (length (slots arr)).

(** [arr.push(v)] *)
Definition push (arr : Array A) (v : A) : Array A :=
  mkArray (slots arr ++ [Some v]) (props arr).

(** [arr[i]], [None] standing for [undefined]: an element, nothing at an
    array index at or past the end, or the plain property of that key. *)
Definition array_get (arr : Array A) (i : Z) : option A :=
  if (0 <=? i) && (i <? array_length arr) then mjoin (slots arr !! Z.to_nat i)
  else if is_array_index i then None
  else props arr !! i.

(** [arr[i] = v]: an element is replaced; a store at an array index at or
    past the end extends the array, leaving holes; under any other key the
    value becomes a plain property. *)
Definition array_set (arr : Array A) (i : Z) (v : A) : Array A :=
  if (0 <=? i) && (i <? array_length arr) then
    mkArray (<[Z.to_nat i := Some v]> (slots arr)) (props arr)
  else if is_array_index i then
    mkArray (slots arr ++ replicate (Z.to_nat (i - array_length arr)) None ++ [Some v])
            (props arr)
  else mkArray (slots arr) (<[i := v]> (props arr)).

(** [arr.forEach((v, i) => ...)] threading the state the callback
    updates; holes are skipped. *)
Fixpoint forEach_from {S : Type} (i : Z) (l : list (option A))
    (f : A -> Z -> S -> S) (s : S) : S :=
  match l with
  | [] => s
  | o :: l' =>
      forEach_from (i + 1) l' f (match o with Some v => f v i s | None => s end)
  end.

Definition forEach {S : Type} (arr : Array A) (f : A -> Z -> S -> S) (s : S) : S :=
  forEach_from 0 (slots arr) f s.
End Arrays.

(** *** Typed arrays of bytes *)

Definition Uint8Array : Type := list Z.

(** [new Uint8Array(n)] *)
Definition new_Uint8Array (n : Z) : completion Uint8Array :=
  if n <? 0 then Throw (mkError "Invalid typed array length")
  else Return (replicate (Z.to_nat n) 0).

(** [res[i] = v]: the value is converted with [ToUint8]; a store out of
    range is dropped. *)
Definition uint8_set (res : Uint8Array) (i : Z) (v : number) : Uint8Array :=
  if i <? 0 then res else <[Z.to_nat i := to_uint8 v]> res.

(** *** Conversions of strings and numbers *)

(** [s.toLowerCase()] on code units below 256: the letters A to Z and the
    capital letters of Latin-1 (U+00C0 to U+00DE, the multiplication sign
    U+00D7 apart) move up by 32; the others stay. (Strings with a code
    unit of 256 or more are not strings of this embedding; among them
    are those that [toLowerCase] makes longer, U+0130 becoming two code
    units.) *)
Definition lower_case_unit (c : ascii) : ascii :=
  let n := nat_of_ascii c in
  if ((65 <=? n) && (n <=? 90) || (192 <=? n) && (n <=? 214) ||
      (216 <=? n) && (n <=? 222))%nat
  then ascii_of_nat (n + 32) else c.
Fixpoint toLowerCase (s : string) : string :=
  match s with
  | EmptyString => EmptyString
  | String c s' => String (lower_case_unit c) (toLowerCase s')
  end.

(** [String(x)], as a template literal converts a number: "NaN",
    "Infinity", "-Infinity", "0" for both zeros, and the decimal digits of
    an integer below 2^53 in magnitude (there the shortest digits that
    read back as [x] are the digits of the integer). The other numbers
    (fractions, larger integers) are left out: [None]. *)
Definition number_to_string (x : number) : option string :=
  match x with
  | S754_nan => Some "NaN"
  | S754_infinity s => Some (if s then "-Infinity" else "Infinity")
  | S754_zero _ => Some "0"
  | S754_finite _ _ _ =>
      match to_Z x with
      | Some z => if Z.abs z <? 2 ^ 53 then Some (pretty z) else None
      | None => None
      end
  end.

End JS.

(** ** color.ts *)

Module Color.
Import JS.

Record t : Type := Build {
  _r : number;
  _g : number;
  _b : number;
  _a : number
}.

(** [new Color(r, g, b, a)] *)
Definition constructor (r g b a : number) : completion t :=
  if isNaN r || isNaN g || isNaN b || isNaN a then
    Throw (mkError "Invalid color components")
  else
    Return {| _r := rem r (of_Z 256);
              _g := rem g (of_Z 256);
              _b := rem b (of_Z 256);
              _a := rem a (of_Z 256) |}.

Definition r (c : t) : number := _r c.
Definition g (c : t) : number := _g c.
Definition b (c : t) : number := _b c.
Definition a (c : t) : number := _a c.

Definition fromHex (hex : string) : completion t :=
  let hex := if startsWith hex "#" then slice_from hex 1 else hex in
  let hex :=
    if (String.length hex =? 3)%nat
    then (join ((fun c => c ++ c) <$> split_chars hex) ++ "FF")%string
    else hex in
  let hex := if (String.length hex =? 6)%nat then (hex ++ "FF")%string else hex in
  if negb (String.length hex =? 8)%nat then
    Throw (mkError ("Invalid hex color: " ++ hex))
  else
    constructor (parseInt16 (slice hex 0 2))
                (parseInt16 (slice hex 2 4))
                (parseInt16 (slice hex 4 6))
                (parseInt16 (slice hex 6 8)).

Definition composite (top bottom : t) : completion t :=
  let topAlpha := div (a top) (of_Z 255) in
  let bottomAlpha := div (a bottom) (of_Z 255) in
  let resultAlpha := add topAlpha (mul bottomAlpha (sub (of_Z 1) topAlpha)) in
  if strict_eq resultAlpha (of_Z 0) then
    constructor (of_Z 0) (of_Z 0) (of_Z 0) (of_Z 0)
  else
    let r' := round
      (div (add (mul (r top) topAlpha)
                (mul (mul (r bottom) bottomAlpha) (sub (of_Z 1) topAlpha)))
           resultAlpha) in
    let g' := round
      (div (add (mul (g top) topAlpha)
                (mul (mul (g bottom) bottomAlpha) (sub (of_Z 1) topAlpha)))
           resultAlpha) in
    let b' := round
      (div (add (mul (b top) topAlpha)
                (mul (mul (b bottom) bottomAlpha) (sub (of_Z 1) topAlpha)))
           resultAlpha) in
    let a' := round (mul resultAlpha (of_Z 255)) in
    constructor r' g' b' a'.

Definition compositeOver (this bottom : t) : completion t :=
  composite this bottom.

(** [toString()]; [None] when a channel is a number whose decimal form is
    not modelled. *)
Definition toString (this : t) : option string :=
  r' ← number_to_string (r this);
  g' ← number_to_string (g this);
  b' ← number_to_string (b this);
  a' ← number_to_string (a this);
  Some ("rgba(" +:+ r' +:+ ", " +:+ g' +:+ ", " +:+ b' +:+ ", " +:+ a' +:+ ")").

End Color.

(** ** colors.ts *)

Module Colors.
Import JS.

(** The object [new Color(r, g, b, a)] builds from integer literals. *)
Definition rgba (r g b a : Z) : Color.t :=
  {| Color._r := rem (of_Z r) (of_Z 256);
     Color._g := rem (of_Z g) (of_Z 256);
     Color._b := rem (of_Z b) (of_Z 256);
     Color._a := rem (of_Z a) (of_Z 256) |}.

Definition Black : Color.t := rgba 0 0 0 255.
Definition White : Color.t := rgba 255 255 255 255.
Definition Red : Color.t := rgba 255 0 0 255.
Definition Green : Color.t := rgba 0 255 0 255.
Definition Blue : Color.t := rgba 0 0 255 255.
Definition Transparent : Color.t := rgba 0 0 0 0.
Definition Yellow : Color.t := rgba 255 255 0 255.
Definition Magenta : Color.t := rgba 255 0 255 255.
Definition Cyan : Color.t := rgba 0 255 255 255.
Definition Gray : Color.t := rgba 128 128 128 255.
Definition DarkGray : Color.t := rgba 64 64 64 255.

(** The members of the object, in the order of the source. *)
Definition all : list (string * Color.t) :=
  [("Black", Black); ("White", White); ("Red", Red); ("Green", Green);
   ("Blue", Blue); ("Yellow", Yellow); ("Magenta", Magenta); ("Cyan", Cyan);
   ("Transparent", Transparent); ("Gray", Gray); ("DarkGray", DarkGray)]%string.

End Colors.

(** ** color-pair.ts *)

Module ColorPair.
Import JS.

Record t : Type := Build {
  id : string;
  name : string;
  primaryColor : Color.t;
  secondaryColor : Color.t
}.

(** The private constructor: [this.id = this.name.toLowerCase()]. *)
Definition constructor (name : string) (primaryColor secondaryColor : Color.t) : t :=
  {| id := toLowerCase name; name := name;
     primaryColor := primaryColor; secondaryColor := secondaryColor |}.

Definition fromColors (name : string) (primaryColor secondaryColor : Color.t) : t :=
  constructor name primaryColor secondaryColor.

(** The arguments of [fromColors] are evaluated from left to right: a
    throw of [Color.fromHex(hex1)] comes before [Color.fromHex(hex2)] is
    called. *)
Definition fromHex (hex1 hex2 name : string) : completion t :=
  bind (Color.fromHex hex1) (fun primaryColor =>
  bind (Color.fromHex hex2) (fun secondaryColor =>
  Return (fromColors name primaryColor secondaryColor))).

(** The arguments of the ten calls of [ColorPair.fromHex] that build
    [colorPairs], in the order of the source. *)
Definition colorPairs_sources : list (string * string * string) :=
  [("#F5F5F5", "#212121", "Classic");
   ("#E0F7FA", "#01579B", "Ocean");
   ("#FFEBEE", "#BF360C", "Sunset");
   ("#F3E5F5", "#4A148C", "Lavender");
   ("#E0F2F1", "#004D40", "Mint");
   ("#FCE4EC", "#880E4F", "Berry");
   ("#ECEFF1", "#263238", "Steel");
   ("#FFF8E1", "#FF6F00", "Desert");
   ("#FFD600", "#1A237E", "Electric");
   ("#FF1744", "#1A237E", "Cosmic")]%string.

(** The evaluation of an object literal: its members one after the other,
    the first throw ending it. *)
Fixpoint evaluate_all {A : Type} (l : list (completion A)) : completion (list A) :=
  match l with
  | [] => Return []
  | c :: l' => bind c (fun a => bind (evaluate_all l') (fun l'' => Return (a :: l'')))
  end.

(** [colorPairs]: the pairs under the keys Classic, Ocean, ... Cosmic. *)
Definition colorPairs : completion (list t) :=
  evaluate_all ((fun '(hex1, hex2, name) => fromHex hex1 hex2 name) <$> colorPairs_sources).

End ColorPair.

(** ** pixel.ts *)

Module Pixel.

(** Coordinates, widths and heights are integers, and [+ 1] is the
    successor of integers. The source adds numbers; the two agree while the
    sum is at most 2^53, the integers up to there being numbers that [+]
    adds without rounding (from 2^53 on, [x + 1] is [x] again). *)
Record t : Type := Build { x : Z; y : Z }.

Definition nextPixel (this : t) (width height : Z) : option t :=
  if x this + 1 >=? width then
    let next := Build 0 (y this + 1) in
    if y next >=? height then None
    else Some next
  else Some (Build (x this + 1) (y this)).

Definition transform (this : t) (xTransform : Z -> Z)
    (yTransform : option (Z -> Z)) : t :=
  let yTransformCopy :=
    match yTransform with
    | Some f => f
    | None => fun y => xTransform y
    end in
  Build (xTransform (x this)) (yTransformCopy (y this)).


End Pixel.

(** ** image.ts *)

Module Image.
Import JS.

Record t : Type := Build {
  width : Z;
  height : Z;
  pixels : Array Color.t
}.

(** The iterator [[Symbol.iterator]()] returns: the variable [nextEl] its
    [next] closes over, with the [width] and [height] read at creation. *)
Record Iterator : Type := mkIterator {
  nextEl : option Pixel.t;
  it_width : Z;
  it_height : Z
}.

Definition iterator (this : t) : Iterator :=
  mkIterator (Some (Pixel.Build 0 0)) (width this) (height this).

(** [next()]: [None] is [{ done: true }], [Some p] is
    [{ done: false, value: p }]. *)
Definition next (it : Iterator) : option Pixel.t * Iterator :=
  let current := nextEl it in
  let it' :=
    mkIterator (nextEl it ≫= fun p => Pixel.nextPixel p (it_width it) (it_height it))
               (it_width it) (it_height it) in
  match current with
  | None => (None, it')
  | Some p => (Some p, it')
  end.

(** [for (const pixel of it) body]: [None] when [fuel] turns of the loop
    did not exhaust the iterator. *)
Fixpoint for_of {S : Type} (fuel : nat) (it : Iterator)
    (body : Pixel.t -> S -> S) (s : S) : option S :=
  match fuel with
  | O => None
  | S fuel' =>
      match next it with
      | (None, _) => Some s
      | (Some p, it') => for_of fuel' it' body (body p s)
      end
  end.


(** [new Image(width, height, colorCalculator)] *)
Definition constructor (fuel : nat) (width height : Z)
    (colorCalculator : option (Pixel.t -> Color.t)) : option t :=
  let colorCalculator := default (fun _ => Colors.White) colorCalculator in
  let this := Build width height empty_array in
  for_of fuel (iterator this)
    (fun pixel this =>
       Build (Image.width this) (Image.height this)
             (push (pixels this) (colorCalculator pixel)))
    this.

(** Loop turns that are enough for [new Image(width, height)]. *)
Definition enough (width height : Z) : nat :=
  S (Z.to_nat (Z.max 1 width * Z.max 1 height)).

Definition checkBounds (this : t) (pixel : Pixel.t) : completion unit :=
  if (Pixel.x pixel <? 0) || (Pixel.x pixel >=? width this) ||
     (Pixel.y pixel <? 0) || (Pixel.y pixel >=? height this)
  then Throw (mkError ("Pixel coordinates (" +:+ pretty (Pixel.x pixel) +:+ ", "
                       +:+ pretty (Pixel.y pixel)
                       +:+ ") are out of bounds for image size "
                       +:+ pretty (width this) +:+ "x" +:+ pretty (height this) +:+ "."))
  else Return tt.

Definition updatePixel (this : t) (pixel : Pixel.t) (color : Color.t) : t :=
  let index := Pixel.y pixel * width this + Pixel.x pixel in
  Build (width this) (height this) (array_set (pixels this) index color).

Definition getPixel (this : t) (pixel : Pixel.t) : option Color.t :=
  let index := Pixel.y pixel * width this + Pixel.x pixel in
  array_get (pixels this) index.

(** The callback of [forEach] in [toUint8Array]: the four stores into
    [res] for the colour at [index]. *)
Definition store_rgba (color : Color.t) (index : Z) (res : Uint8Array) : Uint8Array :=
  let i := index * 4 in
  let res := uint8_set res i (Color.r color) in
  let res := uint8_set res (i + 1) (Color.g color) in
  let res := uint8_set res (i + 2) (Color.b color) in
  let res := uint8_set res (i + 3) (Color.a color) in
  res.

Definition toUint8Array (this : t) : completion Uint8Array :=
  bind (new_Uint8Array (width this * height this * 4)) (fun res =>
  Return (forEach (pixels this) store_rgba res)).

End Image.

(** ** The algorithms as the specification words them *)

Module Spec.
Import JS.

(** Negative-safe reduction into [0, 255]: [((v mod 256) + 256) mod 256],
    the inner [mod] being the remainder of the host language. *)
Definition wrap256 (v : Z) : Z := Z.rem (Z.rem v 256 + 256) 256.

(** One colour channel of "top over bottom":
    [round ((top.c * ta + bottom.c * ba * (1 - ta)) / ra)]. *)
Definition over_channel (tc bc ta ba ra : number) : number :=
  round (div (add (mul tc ta) (mul (mul bc ba) (sub (of_Z 1) ta))) ra).

(** The Porter-Duff "over" operator of section 4.1. *)
Definition porter_duff_over (top bottom : Color.t) : completion Color.t :=
  let ta := div (Color.a top) (of_Z 255) in
  let ba := div (Color.a bottom) (of_Z 255) in
  let ra := add ta (mul ba (sub (of_Z 1) ta)) in
  if strict_eq ra (of_Z 0) then
    Return (Color.Build (of_Z 0) (of_Z 0) (of_Z 0) (of_Z 0))
  else
    Color.constructor
      (over_channel (Color.r top) (Color.r bottom) ta ba ra)
      (over_channel (Color.g top) (Color.g bottom) ta ba ra)
      (over_channel (Color.b top) (Color.b bottom) ta ba ra)
      (round (mul ra (of_Z 255))).

(** The coordinate at a position of the row-major order of a grid that is
    [width] wide. *)
Definition pixel_at (width i : Z) : Pixel.t :=
  Pixel.Build (i mod width) (i / width).

(** Row-major order: the rows from the first to the last, each from left
    to right. *)
Definition row (width y : Z) : list Pixel.t :=
  (fun x => Pixel.Build x y) <$> seqZ 0 width.
Definition row_major (width height : Z) : list Pixel.t :=
  seqZ 0 height ≫= row width.

(** A coordinate of the grid [[0, width) x [0, height)]. *)
Definition in_bounds (width height : Z) (p : Pixel.t) : Prop :=
  0 <= Pixel.x p < width /\ 0 <= Pixel.y p < height.

(** A colour whose four channels are integers of [0, 255]. *)
Definition channel_in_range (v : number) : Prop :=
  exists z, to_Z v = Some z /\ 0 <= z <= 255.

(** A well-formed hexadecimal colour: an optional [#], then 3, 6 or 8
    hexadecimal digits. *)
Fixpoint all_hex (s : string) : bool :=
  match s with
  | EmptyString => true
  | String c s' => bool_decide (is_Some (hex_digit c)) && all_hex s'
  end.
Definition strip_hash (s : string) : string :=
  match s with String "#" s' => s' | _ => s end.
Definition well_formed_hex (s : string) : bool :=
  let digits := strip_hash s in
  ((String.length digits =? 3)%nat || (String.length digits =? 6)%nat ||
   (String.length digits =? 8)%nat) && all_hex digits.

(** Every code unit below 256. *)
Definition all_ascii : list ascii := ascii_of_nat <$> seq 0 256.

(** What [parseInt(.., 16)] reads in a pair of characters: [true] when
    the pair is not made of two digits or is read as their value. *)
Definition reads_two_digits (c1 c2 : ascii) : bool :=
  match hex_digit c1, hex_digit c2 with
  | Some d1, Some d2 =>
      let n := parseInt16 (String c1 (String c2 EmptyString)) in
      is_binary64 n && bool_decide (to_Z n = Some (16 * d1 + d2))
  | _, _ => true
  end.


(** The flat index of the cell a pixel names in a grid. *)
Definition flat_index (this : Image.t) (p : Pixel.t) : Z :=
  Pixel.y p * Image.width this + Pixel.x p.


End Spec.

(** ** Ranges of numbers, for the analysis of [Color.composite] *)

Module Range.
Import JS.

Definition is_zero (x : number) : bool :=
  match x with S754_zero _ => true | _ => false end.

(** A positive number with a mantissa of 53 bits and an exponent of
    [[lo, hi]]. *)
Definition is_normal (lo hi : Z) (x : number) : bool :=
  match x with
  | S754_finite false m e => (Zpos (digits2_pos m) =? 53) && (lo <=? e) && (e <=? hi)
  | _ => false
  end.
Definition is_nonneg (lo hi : Z) (x : number) : bool := is_zero x || is_normal lo hi x.

(** The value of a finite number, scaled by 2^200. *)
Definition sv (x : number) : Z :=
  match x with S754_finite _ m e => Zpos m * 2 ^ (e + 200) | _ => 0 end.

(** A binary64 number that is an integer of [0, 255]. *)
Definition is_byte (x : number) : bool :=
  is_binary64 x &&
  match to_Z x with Some k => (0 <=? k) && (k <=? 255) | None => false end.
Definition byte_color (c : Color.t) : bool :=
  is_byte (Color.r c) && is_byte (Color.g c) && is_byte (Color.b c) && is_byte (Color.a c).

(** All of them: [-0] and the integers 0 to 255. *)
Definition bytes : list number := S754_zero true :: (of_Z <$> seqZ 0 256).

(** What the alpha [a] of the top colour gives: [a / 255] is at most 1 and
    [a / 255 + (1 - a / 255)] at most 1 + 2^-52. *)
Definition alpha_ok (a : number) : bool :=
  let A := div a (of_Z 255) in
  let C := sub (of_Z 1) A in
  is_nonneg (-60) (-52) A && is_nonneg (-60) (-52) C &&
  (sv A <=? 2 ^ 200) && ((sv A + sv C) * 2 ^ 52 <=? 2 ^ 200 * (2 ^ 52 + 1)).

End Range.

(** ** Case analyses that the proofs run *)

Module Checks.
Import JS.
Import Range.

#[global] Instance number_eq_dec : EqDecision number.
Proof. unfold number. solve_decision. Defined.

#[global] Instance color_eq_dec : EqDecision Color.t.
Proof. solve_decision. Defined.

(** The value of a pair of hexadecimal digits. *)
Definition hex_pair (c1 c2 : ascii) : option Z :=
  d1 ← hex_digit c1; d2 ← hex_digit c2; Some (16 * d1 + d2).

(** The channels that 3, 6 or 8 hexadecimal digits denote. *)
Definition hex_channels (digits : string) : option (Z * Z * Z * Z) :=
  match digits with
  | String c1 (String c2 (String c3 EmptyString)) =>
      r ← hex_pair c1 c1; g ← hex_pair c2 c2; b ← hex_pair c3 c3; Some (r, g, b, 255)
  | String c1 (String c2 (String c3 (String c4 (String c5 (String c6 EmptyString))))) =>
      r ← hex_pair c1 c2; g ← hex_pair c3 c4; b ← hex_pair c5 c6; Some (r, g, b, 255)
  | String c1 (String c2 (String c3 (String c4 (String c5 (String c6
      (String c7 (String c8 EmptyString))))))) =>
      r ← hex_pair c1 c2; g ← hex_pair c3 c4; b ← hex_pair c5 c6; a ← hex_pair c7 c8;
      Some (r, g, b, a)
  | _ => None
  end.

(** What [parseInt(.., 16)] makes of two code units: NaN, or an integer
    of [-15, 255]. *)
Definition pair_in_range (c1 c2 : ascii) : bool :=
  let n := parseInt16 (String c1 (String c2 EmptyString)) in
  isNaN n ||
  is_binary64 n && match to_Z n with
                   | Some z => (-15 <=? z) && (z <=? 255)
                   | None => false
                   end.

(** Two code units are read as their lower-case forms are. *)
Definition pair_case_blind (c1 c2 : ascii) : bool :=
  bool_decide (parseInt16 (String (lower_case_unit c1) (String (lower_case_unit c2) EmptyString))
               = parseInt16 (String c1 (String c2 EmptyString))).

(** A string of ASCII characters: every code unit is below 128. *)
Definition ascii_unit (c : ascii) : bool := (nat_of_ascii c <? 128)%nat.

Fixpoint ascii_only (s : string) : bool :=
  match s with
  | EmptyString => true
  | String c s' => ascii_unit c && ascii_only s'
  end.

(** A capital letter among the code units below 256. *)
Definition is_capital (c : ascii) : bool :=
  let n := nat_of_ascii c in
  ((65 <=? n) && (n <=? 90) || (192 <=? n) && (n <=? 214) ||
   (216 <=? n) && (n <=? 222))%nat.

Fixpoint has_capital (s : string) : bool :=
  match s with
  | EmptyString => false
  | String c s' => is_capital c || has_capital s'
  end.

(** A character of a decimal integer: a digit or the sign. *)
Definition is_decimal (c : ascii) : bool :=
  let n := nat_of_ascii c in
  ((48 <=? n) && (n <=? 57) || (n =? 45))%nat.

Fixpoint all_decimal (s : string) : bool :=
  match s with
  | EmptyString => true
  | String c s' => is_decimal c && all_decimal s'
  end.

(** What the alpha [a] of a colour gives: [a / 255] is the quotient within
    2^-52, it is 1 when [a] is 255, and [a / 255 + (1 - a / 255)] is at
    least 1 - 2^-52. *)
Definition alpha_close (a : number) : bool :=
  match to_Z a with
  | Some k =>
      let A := sv (div a (of_Z 255)) in
      let C := sv (sub (of_Z 1) (div a (of_Z 255))) in
      (k * 2 ^ 200 * (2 ^ 52 - 1) <=? 255 * A * 2 ^ 52) &&
      (255 * A * 2 ^ 52 <=? k * 2 ^ 200 * (2 ^ 52 + 1)) &&
      (2 ^ 200 * (2 ^ 52 - 1) <=? (A + C) * 2 ^ 52) &&
      implb (k =? 255) (bool_decide (div a (of_Z 255) = of_Z 1))
  | None => false
  end.

(** A channel [tc] under an alpha of 1, over a layer that weighs nothing
    (a zero of either sign): it is read back. *)
Definition opaque_channel (tc : number) : bool :=
  forallb (fun s =>
             let c := round (div (add (mul tc (of_Z 1)) (S754_zero s)) (of_Z 1)) in
             is_byte c && bool_decide (to_Z c = to_Z tc))
          [false; true].

End Checks.

(** * Properties *)

Import JS.
Import Range.
Import Checks.

(** ** Colours *)

Section ColorFacts.

Lemma constructor_zero :
  Color.constructor (of_Z 0) (of_Z 0) (of_Z 0) (of_Z 0)
  = Return (Color.Build (of_Z 0) (of_Z 0) (of_Z 0) (of_Z 0)).
Proof. reflexivity. Qed.

(** Two fully transparent colours give (0, 0, 0, 0), whatever their red,
    green and blue. *)
Lemma composite_transparent top bottom s s' :
  Color.a top = S754_zero s -> Color.a bottom = S754_zero s' ->
  Color.composite top bottom
  = Return (Color.Build (of_Z 0) (of_Z 0) (of_Z 0) (of_Z 0)).
Proof.
  destruct top as [tr tg tb ta], bottom as [br bg bb ba]. cbn.
  intros -> ->. destruct s, s'; reflexivity.
Qed.

Lemma compositeOver_composite this bottom :
  Color.compositeOver this bottom = Color.composite this bottom.
Proof. reflexivity. Qed.

(** The predefined colours are what the constructor builds. *)
Lemma Colors_built :
  Color.constructor (of_Z 255) (of_Z 255) (of_Z 255) (of_Z 255) = Return Colors.White /\
  Color.constructor (of_Z 0) (of_Z 0) (of_Z 0) (of_Z 255) = Return Colors.Black /\
  Color.constructor (of_Z 255) (of_Z 0) (of_Z 0) (of_Z 255) = Return Colors.Red /\
  Color.constructor (of_Z 0) (of_Z 255) (of_Z 0) (of_Z 255) = Return Colors.Green /\
  Color.constructor (of_Z 0) (of_Z 0) (of_Z 255) (of_Z 255) = Return Colors.Blue /\
  Color.constructor (of_Z 0) (of_Z 0) (of_Z 0) (of_Z 0) = Return Colors.Transparent.
Proof. repeat split. Qed.

End ColorFacts.

(** C5 (as the code has it). The Color constructor throws exactly when one
    of its four arguments is NaN; it accepts every finite argument, and an
    infinite one as well. *)
Theorem constructor_throws_iff_NaN :
  forall r g b a : number,
    throws (Color.constructor r g b a) = true
    <-> isNaN r || isNaN g || isNaN b || isNaN a = true.
Proof.
  intros r g b a. unfold Color.constructor, throws.
  destruct (isNaN r || isNaN g || isNaN b || isNaN a); simpl; split; congruence.
Qed.

(** C5 as stated fails: Infinity is not a finite number, yet the
    constructor takes it as the red channel and returns a colour. *)
Lemma constructor_accepts_Infinity :
  isFinite Infinity = false /\
  throws (Color.constructor Infinity (of_Z 0) (of_Z 0) (of_Z 0)) = false.
Proof. split; reflexivity. Qed.

(** ** Pixels *)

(** C8. [transform] maps the pixel (x, y) to (fx x, fy y), and to
    (fx x, fx y) when the transform of y is left out. *)
Theorem transform_applies_axis_functions :
  forall (p : Pixel.t) (fx fy : Z -> Z),
    Pixel.transform p fx (Some fy) = Pixel.Build (fx (Pixel.x p)) (fy (Pixel.y p)) /\
    Pixel.transform p fx None = Pixel.Build (fx (Pixel.x p)) (fx (Pixel.y p)).
Proof. intros p fx fy. split; reflexivity. Qed.

Section NumberFacts.

Lemma iter_xO_val p n : Zpos (Pos.iter xO p n) = Zpos p * 2 ^ Zpos n.
Proof.
  induction n as [|n IH] using Pos.peano_ind.
  - simpl. lia.
  - rewrite Pos.iter_succ, Pos2Z.inj_succ, Z.pow_succ_r by lia.
    rewrite Pos2Z.inj_xO, IH. lia.
Qed.

Lemma iter_xO_digits p n :
  Zpos (digits2_pos (Pos.iter xO p n)) = Zpos (digits2_pos p) + Zpos n.
Proof.
  induction n as [|n IH] using Pos.peano_ind.
  - simpl. lia.
  - rewrite Pos.iter_succ. simpl digits2_pos. lia.
Qed.

Lemma digits2_pos_bounds p :
  2 ^ (Zpos (digits2_pos p) - 1) <= Zpos p < 2 ^ Zpos (digits2_pos p).
Proof.
  induction p as [p IH|p IH|]; simpl digits2_pos.
  - rewrite Pos2Z.inj_succ, Z.pow_succ_r by lia.
    replace (Z.succ (Zpos (digits2_pos p)) - 1) with (Z.succ (Zpos (digits2_pos p) - 1)) by lia.
    rewrite Z.pow_succ_r by lia. lia.
  - rewrite Pos2Z.inj_succ, Z.pow_succ_r by lia.
    replace (Z.succ (Zpos (digits2_pos p)) - 1) with (Z.succ (Zpos (digits2_pos p) - 1)) by lia.
    rewrite Z.pow_succ_r by lia. lia.
  - simpl. lia.
Qed.

Lemma digits2_pos_le p n : 0 <= n -> Zpos p < 2 ^ n -> Zpos (digits2_pos p) <= n.
Proof.
  intros Hn Hp. destruct (digits2_pos_bounds p) as [Hlo _].
  destruct (Z_le_gt_dec (Zpos (digits2_pos p)) n) as [|Hgt]; [assumption|].
  exfalso. assert (2 ^ n <= 2 ^ (Zpos (digits2_pos p) - 1)) by (apply Z.pow_le_mono_r; lia).
  lia.
Qed.

Lemma shl_align_val m e ez :
  ez <= e -> Zpos (fst (shl_align m e ez)) = Zpos m * 2 ^ (e - ez).
Proof.
  intros H. unfold shl_align.
  destruct (ez - e) as [|q|q] eqn:E; simpl fst.
  - replace (e - ez) with 0 by lia. lia.
  - lia.
  - rewrite iter_xO_val. replace (e - ez) with (Zpos q) by lia. reflexivity.
Qed.

Lemma shr_fexp_full m e :
  Zpos (digits2_pos m) = 53 -> -1074 <= e ->
  shr_fexp prec emax (Zpos m) e loc_Exact
  = ({| shr_m := Zpos m; shr_r := false; shr_s := false |}, e).
Proof.
  intros Hd He. unfold shr_fexp, Zdigits2, fexp, emin, prec, emax.
  rewrite Hd. replace (Z.max (53 + e - 53) (3 - 1024 - 53) - e) with 0 by lia.
  reflexivity.
Qed.

(** Rounding a mantissa of at most 53 bits is exact: it is only shifted
    to the left until it has 53 bits. *)
Lemma binary_round_exact s p e :
  Zpos (digits2_pos p) <= 53 ->
  -1074 <= e + Zpos (digits2_pos p) - 53 <= 971 ->
  exists m', binary_round prec emax s p e
             = S754_finite s m' (e + Zpos (digits2_pos p) - 53)
             /\ Zpos m' = Zpos p * 2 ^ (53 - Zpos (digits2_pos p))
             /\ Zpos (digits2_pos m') = 53.
Proof.
  intros Hd He. set (d := Zpos (digits2_pos p)) in *.
  assert (Hal : exists m', shl_align p e (fexp prec emax (d + e)) = (m', e + d - 53)
                           /\ Zpos m' = Zpos p * 2 ^ (53 - d)
                           /\ Zpos (digits2_pos m') = 53).
  { unfold fexp, emin, prec, emax, shl_align.
    replace (Z.max (d + e - 53) (3 - 1024 - 53) - e) with (d - 53) by lia.
    destruct (d - 53) as [|q|q] eqn:E; try lia.
    - exists p. replace (53 - d) with 0 by lia.
      repeat split; [f_equal; lia | lia | fold d; lia].
    - exists (Pos.iter xO p q). rewrite iter_xO_val, iter_xO_digits. fold d.
      replace (53 - d) with (Zpos q) by lia.
      repeat split; [f_equal; lia | lia]. }
  destruct Hal as (m' & Hal & Hm' & Hd').
  exists m'. split; [|split; assumption].
  unfold binary_round. fold d. rewrite Hal.
  unfold binary_round_aux.
  rewrite (shr_fexp_full m' _ Hd') by lia. cbn [shr_m loc_of_shr_record round_nearest_even].
  rewrite (shr_fexp_full m' _ Hd') by lia. cbn [shr_m].
  unfold prec, emax.
  destruct (Z.leb_spec (e + d - 53) (1024 - 53)); [reflexivity | lia].
Qed.

Lemma bounded_inv m e :
  bounded prec emax m e = true ->
  Zpos (digits2_pos m) <= 53 /\ -1074 <= e <= 971.
Proof.
  unfold bounded, canonical_mantissa, fexp, emin, prec, emax.
  intros H. apply andb_prop in H as [H1 H2].
  apply Z.eqb_eq in H1. apply Z.leb_le in H2. lia.
Qed.

Lemma of_Z_256 : of_Z 256 = S754_finite false (2 ^ 52) (-44).
Proof. reflexivity. Qed.

Lemma to_Z_finite_exact s m e k :
  e < 0 -> Zpos m = k * 2 ^ (- e) ->
  to_Z (S754_finite s m e) = Some (cond_Zopp s k).
Proof.
  intros He Hm. unfold to_Z.
  destruct (Z.leb_spec 0 e); [lia|].
  assert (2 ^ (- e) <> 0) by (apply Z.pow_nonzero; lia).
  rewrite Hm, Z.mod_mul, Z.div_mul by assumption. reflexivity.
Qed.

(** The magnitude of a finite number that is an integer. *)
Lemma to_Z_magnitude s m e z :
  to_Z (S754_finite s m e) = Some z ->
  exists A, z = cond_Zopp s A /\ 0 < A /\
            forall t, 0 <= t -> 0 <= e + t -> Zpos m * 2 ^ (e + t) = A * 2 ^ t.
Proof.
  unfold to_Z. destruct (Z.leb_spec 0 e) as [He|He].
  - intros [= <-]. exists (Zpos m * 2 ^ e). split; [reflexivity|]. split.
    + assert (0 < 2 ^ e) by (apply Z.pow_pos_nonneg; lia). lia.
    + intros t Ht _. rewrite Z.pow_add_r by lia. lia.
  - destruct (Z.eqb_spec (Zpos m mod 2 ^ (- e)) 0) as [Hm|]; [|discriminate].
    intros [= <-]. exists (Zpos m / 2 ^ (- e)).
    assert (Hp : 0 < 2 ^ (- e)) by (apply Z.pow_pos_nonneg; lia).
    assert (HA : Zpos m = Zpos m / 2 ^ (- e) * 2 ^ (- e)).
    { pose proof (Z.div_mod (Zpos m) (2 ^ (- e))). lia. }
    split; [reflexivity|]. split.
    + assert (0 <= Zpos m / 2 ^ (- e)) by (apply Z.div_pos; lia).
      destruct (Z.eq_dec (Zpos m / 2 ^ (- e)) 0) as [E|]; [|lia].
      rewrite E in HA. lia.
    + intros t Ht Het. rewrite HA at 1. rewrite <- Z.mul_assoc, <- Z.pow_add_r by lia.
      f_equal. f_equal. lia.
Qed.

Lemma rem_cond_Zopp s A :
  0 <= A -> Z.rem (cond_Zopp s A) 256 = cond_Zopp s (A mod 256).
Proof.
  intros HA. destruct s; simpl.
  - rewrite Z.rem_opp_l, Z.rem_mod_nonneg by lia. reflexivity.
  - apply Z.rem_mod_nonneg; lia.
Qed.

(** [%] on an integer is the truncated remainder of the integer. *)
Lemma rem_256_integer n z :
  is_binary64 n = true -> to_Z n = Some z ->
  to_Z (rem n (of_Z 256)) = Some (Z.rem z 256).
Proof.
  intros Hv Hz. rewrite of_Z_256.
  destruct n as [s| | |s m e]; try discriminate.
  - simpl in Hz. injection Hz as <-. reflexivity.
  - apply bounded_inv in Hv as [Hd He].
    destruct (to_Z_magnitude _ _ _ _ Hz) as (A & -> & HA & HAm).
    rewrite rem_cond_Zopp by lia.
    unfold rem. set (ez := Z.min e (-44)). set (t := - ez).
    assert (Ht : 44 <= t) by lia.
    rewrite !shl_align_val by lia.
    replace (e - ez) with (e + t) by lia. rewrite HAm by lia.
    replace (Zpos (2 ^ 52) * 2 ^ (-44 - ez)) with (256 * 2 ^ t).
    2:{ replace t with (44 + (t - 44)) at 1 by lia.
        rewrite Z.pow_add_r by lia. replace (-44 - ez) with (t - 44) by lia.
        change (Zpos (2 ^ 52)) with (256 * 2 ^ 44). ring. }
    assert (Hp : 0 < 2 ^ t) by (apply Z.pow_pos_nonneg; lia).
    rewrite Z.mul_mod_distr_r by lia.
    pose proof (Z.mod_pos_bound A 256 ltac:(lia)) as Hk.
    pose proof (Z.mod_le A 256 ltac:(lia) ltac:(lia)) as HkA.
    set (k := A mod 256) in *.
    assert (Hm53 : Zpos m < 2 ^ 53).
    { destruct (digits2_pos_bounds m) as [_ Hm].
      assert (2 ^ Zpos (digits2_pos m) <= 2 ^ 53) by (apply Z.pow_le_mono_r; lia). lia. }
    destruct (Z.eq_dec k 0) as [->|Hk0].
    { rewrite Z.mul_0_l. destruct s; reflexivity. }
    (* the remainder is not zero *)
    assert (Ht52 : t <= 52).
    { destruct (Z_le_gt_dec t 52) as [|Hgt]; [assumption|]. exfalso.
      assert (E : Zpos m * 2 ^ (e + t) = A * 2 ^ t) by (apply HAm; lia).
      replace (e + t) with 0 in E by lia.
      assert (2 ^ 53 <= 2 ^ t) by (apply Z.pow_le_mono_r; lia).
      nia. }
    assert (HR : k * 2 ^ t < 2 ^ 53).
    { destruct (Z_le_gt_dec (-44) e) as [Hle|Hgt].
      - replace t with 44 by lia. change (2 ^ 53) with (512 * 2 ^ 44).
        assert (0 < 2 ^ 44) by reflexivity. nia.
      - assert (E : Zpos m * 2 ^ (e + t) = A * 2 ^ t) by (apply HAm; lia).
        replace (e + t) with 0 in E by lia. nia. }
    destruct (k * 2 ^ t) as [|pr|pr] eqn:ER; try nia.
    assert (Hdr : Zpos (digits2_pos pr) <= 53) by (apply digits2_pos_le; lia).
    assert (Hnorm : binary_normalize prec emax (cond_Zopp s (Zpos pr)) ez s
                    = binary_round prec emax s pr ez) by (destruct s; reflexivity).
    rewrite Hnorm.
    destruct (binary_round_exact s pr ez Hdr) as (m' & -> & Hm' & _).
    { pose proof (Pos2Z.is_pos (digits2_pos pr)). lia. }
    apply to_Z_finite_exact.
    + pose proof (Pos2Z.is_pos (digits2_pos pr)). lia.
    + rewrite Hm', <- ER, <- Z.mul_assoc, <- Z.pow_add_r by lia.
      f_equal. f_equal. lia.
Qed.

End NumberFacts.

Section ConstructorOnIntegers.

Lemma wrap256_nonneg z : 0 <= z -> Spec.wrap256 z = Z.rem z 256.
Proof.
  intros Hz. unfold Spec.wrap256.
  rewrite (Z.rem_mod_nonneg z 256) by lia.
  pose proof (Z.mod_pos_bound z 256 ltac:(lia)).
  rewrite Z.rem_mod_nonneg by lia.
  rewrite <- Zplus_mod_idemp_r, Z.mod_same, Z.add_0_r by lia.
  apply Z.mod_mod. lia.
Qed.

Lemma wrap256_range z : 0 <= Spec.wrap256 z < 256.
Proof.
  unfold Spec.wrap256.
  pose proof (Z.rem_bound_abs z 256 ltac:(lia)).
  assert (0 <= Z.rem z 256 + 256) by lia.
  pose proof (Z.rem_bound_pos (Z.rem z 256 + 256) 256 ltac:(lia) ltac:(lia)). lia.
Qed.

Lemma integer_not_NaN n z : to_Z n = Some z -> isNaN n = false.
Proof. destruct n; simpl; congruence. Qed.

(** On integers the constructor keeps, for each channel, the truncated
    remainder of the division by 256: its sign is that of the argument. *)
Lemma constructor_integer_channels r g b a zr zg zb za :
  is_binary64 r = true -> is_binary64 g = true ->
  is_binary64 b = true -> is_binary64 a = true ->
  to_Z r = Some zr -> to_Z g = Some zg -> to_Z b = Some zb -> to_Z a = Some za ->
  exists c, Color.constructor r g b a = Return c /\
            to_Z (Color.r c) = Some (Z.rem zr 256) /\
            to_Z (Color.g c) = Some (Z.rem zg 256) /\
            to_Z (Color.b c) = Some (Z.rem zb 256) /\
            to_Z (Color.a c) = Some (Z.rem za 256).
Proof.
  intros Vr Vg Vb Va Hr Hg Hb Ha. unfold Color.constructor.
  rewrite (integer_not_NaN _ _ Hr), (integer_not_NaN _ _ Hg),
          (integer_not_NaN _ _ Hb), (integer_not_NaN _ _ Ha). simpl.
  eexists. split; [reflexivity|]. cbn [Color.r Color.g Color.b Color.a Color._r Color._g Color._b Color._a].
  auto using rem_256_integer.
Qed.

Lemma binary_round_integer s p :
  Zpos p < 2 ^ 53 ->
  is_binary64 (binary_round prec emax s p 0) = true /\
  to_Z (binary_round prec emax s p 0) = Some (cond_Zopp s (Zpos p)).
Proof.
  intros Hp.
  assert (Hd : Zpos (digits2_pos p) <= 53) by (apply digits2_pos_le; lia).
  pose proof (Pos2Z.is_pos (digits2_pos p)) as Hpos.
  destruct (binary_round_exact s p 0 Hd ltac:(lia)) as (m & -> & Hm & Hdm).
  split.
  - unfold is_binary64, valid_binary, bounded, canonical_mantissa, fexp, emin.
    rewrite Hdm. unfold prec, emax.
    apply andb_true_intro. split; [apply Z.eqb_eq | apply Z.leb_le]; lia.
  - destruct (Z.eq_dec (Zpos (digits2_pos p)) 53) as [E53|N53].
    + rewrite E53 in *. unfold to_Z. cbn. do 2 f_equal. lia.
    + apply to_Z_finite_exact; [lia|]. rewrite Hm. do 2 f_equal. lia.
Qed.

(** An integer literal below 2^53 in magnitude denotes itself. *)
Lemma of_Z_integer z :
  Z.abs z < 2 ^ 53 -> is_binary64 (of_Z z) = true /\ to_Z (of_Z z) = Some z.
Proof.
  intros Hz. destruct z as [|p|p]; [split; reflexivity| |].
  - apply (binary_round_integer false p). lia.
  - apply (binary_round_integer true p). lia.
Qed.

End ConstructorOnIntegers.

(** C2 (as the code has it). For non-negative integers r, g, b, a the
    colour [Color(r, g, b, a)] has the channels [((r mod 256) + 256) mod 256],
    and likewise for g, b, a: wrap-around, not clamping. *)
Theorem constructor_wraps_nonnegative :
  forall (r g b a : number) (zr zg zb za : Z),
    is_binary64 r = true -> is_binary64 g = true ->
    is_binary64 b = true -> is_binary64 a = true ->
    to_Z r = Some zr -> to_Z g = Some zg -> to_Z b = Some zb -> to_Z a = Some za ->
    0 <= zr -> 0 <= zg -> 0 <= zb -> 0 <= za ->
    exists c, Color.constructor r g b a = Return c /\
              to_Z (Color.r c) = Some (Spec.wrap256 zr) /\
              to_Z (Color.g c) = Some (Spec.wrap256 zg) /\
              to_Z (Color.b c) = Some (Spec.wrap256 zb) /\
              to_Z (Color.a c) = Some (Spec.wrap256 za).
Proof.
  intros r g b a zr zg zb za Vr Vg Vb Va Hr Hg Hb Ha Pr Pg Pb Pa.
  rewrite !wrap256_nonneg by assumption.
  apply constructor_integer_channels; assumption.
Qed.

(** [Color(256, 300, 400, 500)] has the channels (0, 44, 144, 244). *)
Lemma constructor_wraps_256_300_400_500 :
  exists c, Color.constructor (of_Z 256) (of_Z 300) (of_Z 400) (of_Z 500) = Return c /\
            to_Z (Color.r c) = Some 0 /\ to_Z (Color.g c) = Some 44 /\
            to_Z (Color.b c) = Some 144 /\ to_Z (Color.a c) = Some 244.
Proof.
  apply (constructor_wraps_nonnegative (of_Z 256) (of_Z 300) (of_Z 400) (of_Z 500)
           256 300 400 500); try reflexivity; lia.
Defined.

(** C2 as stated fails on a negative argument: [Color(-1, 0, 0, 0)] has the
    red channel -1, where the negative-safe formula gives 255. *)
Lemma constructor_keeps_sign_of_minus_one :
  exists c, Color.constructor (of_Z (-1)) (of_Z 0) (of_Z 0) (of_Z 0) = Return c /\
            to_Z (Color.r c) = Some (-1) /\
            Spec.wrap256 (-1) = 255.
Proof. eexists. repeat split. Qed.

(** ** Compositing colours whose channels are integers of [0, 255] *)

(** *** Rounding to 53 bits *)

Section RoundingFacts.

Lemma shr_1_m mrs : 0 <= shr_m mrs -> shr_m (shr_1 mrs) = shr_m mrs / 2.
Proof.
  destruct mrs as [m r s]. cbn [shr_m]. intros Hm.
  destruct m as [|[p|p|]|p]; cbn [shr_1 shr_m]; try reflexivity; try lia.
  - apply (Z.div_unique (Zpos p~1) 2 (Zpos p) 1); lia.
  - apply (Z.div_unique (Zpos p~0) 2 (Zpos p) 0); lia.
Qed.

Lemma iter_shr_1_m k : forall mrs,
  0 <= shr_m mrs -> shr_m (SpecFloat.iter_pos shr_1 k mrs) = shr_m mrs / 2 ^ Zpos k.
Proof.
  induction k as [k IH|k IH|]; intros mrs Hm; cbn [SpecFloat.iter_pos].
  - assert (H1 : 0 <= shr_m (shr_1 mrs)) by (rewrite shr_1_m by lia; apply Z.div_pos; lia).
    assert (H2 : 0 <= shr_m (SpecFloat.iter_pos shr_1 k (shr_1 mrs)))
      by (rewrite IH by lia; apply Z.div_pos; [lia | apply Z.pow_pos_nonneg; lia]).
    rewrite IH, IH, shr_1_m by lia.
    rewrite !Z.div_div by (try apply Z.pow_pos_nonneg; lia).
    f_equal. replace (Zpos k~1) with (1 + Zpos k + Zpos k) by lia.
    rewrite !Z.pow_add_r by lia. ring.
  - assert (H2 : 0 <= shr_m (SpecFloat.iter_pos shr_1 k mrs))
      by (rewrite IH by lia; apply Z.div_pos; [lia | apply Z.pow_pos_nonneg; lia]).
    rewrite IH, IH by lia.
    rewrite !Z.div_div by (try apply Z.pow_pos_nonneg; lia).
    f_equal. replace (Zpos k~0) with (Zpos k + Zpos k) by lia.
    rewrite !Z.pow_add_r by lia. ring.
  - rewrite shr_1_m by lia. reflexivity.
Qed.

Lemma digits2_pos_eq p n :
  2 ^ (n - 1) <= Zpos p < 2 ^ n -> Zpos (digits2_pos p) = n.
Proof.
  intros [Hlo Hhi]. destruct (digits2_pos_bounds p) as [Dlo Dhi].
  assert (Hn : 0 < n).
  { destruct (Z_lt_le_dec 0 n) as [|Hle]; [assumption|]. exfalso.
    destruct (Z.eq_dec n 0) as [->|]; [cbn in Hhi; lia|].
    rewrite Z.pow_neg_r in Hhi by lia. lia. }
  pose proof (Pos2Z.is_pos (digits2_pos p)).
  destruct (Z.lt_trichotomy (Zpos (digits2_pos p)) n) as [Hlt|[Heq|Hgt]]; [|assumption|]; exfalso.
  - assert (2 ^ Zpos (digits2_pos p) <= 2 ^ (n - 1)) by (apply Z.pow_le_mono_r; lia). lia.
  - assert (2 ^ n <= 2 ^ (Zpos (digits2_pos p) - 1)) by (apply Z.pow_le_mono_r; lia). lia.
Qed.

Lemma shr_m_record_of_loc m l : shr_m (shr_record_of_loc m l) = m.
Proof. destruct l as [|[]]; reflexivity. Qed.

Lemma round_nearest_even_bounds mx l :
  mx <= round_nearest_even mx l <= mx + 1.
Proof. destruct l as [|[]]; cbn; try lia. destruct (Z.even mx); lia. Qed.

(** The first shift of [binary_round_aux] keeps the 53 leading bits. *)
Lemma shr_fexp_truncates m e l :
  let d := Zpos (digits2_pos m) in
  53 <= d -> -1074 <= d + e - 53 ->
  exists mrs, shr_fexp prec emax (Zpos m) e l = (mrs, e + (d - 53)) /\
              shr_m mrs = Zpos m / 2 ^ (d - 53).
Proof.
  intros d Hd He. unfold shr_fexp, Zdigits2, fexp, emin, prec, emax. fold d.
  replace (Z.max (d + e - 53) (3 - 1024 - 53) - e) with (d - 53) by lia.
  unfold shr. destruct (d - 53) as [|k|k] eqn:Ek; try lia.
  - eexists. split; [f_equal; lia|]. rewrite shr_m_record_of_loc, Z.div_1_r. reflexivity.
  - eexists. split; [reflexivity|].
    rewrite iter_shr_1_m by (rewrite shr_m_record_of_loc; lia).
    rewrite shr_m_record_of_loc. reflexivity.
Qed.

(** Rounding a mantissa of 53 bits or more gives a normal number within one
    unit in the last place: its mantissa, at the exponent of the first
    shift, is the truncated mantissa or the next integer. *)
Lemma binary_round_aux_bound s m e l :
  let d := Zpos (digits2_pos m) in
  53 <= d -> -1074 <= d + e - 53 -> d + e <= 1023 ->
  exists m' e' M1,
    binary_round_aux prec emax s (Zpos m) e l = S754_finite s m' e' /\
    Zpos (digits2_pos m') = 53 /\
    0 <= e' - (e + (d - 53)) <= 1 /\
    Zpos m' * 2 ^ (e' - (e + (d - 53))) = M1 /\
    Zpos m / 2 ^ (d - 53) <= M1 <= Zpos m / 2 ^ (d - 53) + 1.
Proof.
  intros d Hd Hlo Hhi.
  destruct (shr_fexp_truncates m e l Hd Hlo) as (mrs & E1 & Hm1). fold d in E1, Hm1.
  unfold binary_round_aux. rewrite E1.
  set (mx := Zpos m / 2 ^ (d - 53)) in *.
  assert (Hmx : 2 ^ 52 <= mx < 2 ^ 53).
  { destruct (digits2_pos_bounds m) as [Dlo Dhi]. fold d in Dlo, Dhi.
    assert (Hp : 0 < 2 ^ (d - 53)) by (apply Z.pow_pos_nonneg; lia).
    replace (2 ^ (d - 1)) with (2 ^ 52 * 2 ^ (d - 53)) in Dlo
      by (rewrite <- Z.pow_add_r by lia; f_equal; lia).
    replace (2 ^ d) with (2 ^ 53 * 2 ^ (d - 53)) in Dhi
      by (rewrite <- Z.pow_add_r by lia; f_equal; lia).
    unfold mx. split.
    - apply Z.div_le_lower_bound; lia.
    - apply Z.div_lt_upper_bound; lia. }
  rewrite Hm1.
  pose proof (round_nearest_even_bounds mx (loc_of_shr_record mrs)) as HM1.
  set (M1 := round_nearest_even mx (loc_of_shr_record mrs)) in *.
  set (e1 := e + (d - 53)) in *.
  destruct M1 as [|q|q] eqn:EM; try lia.
  destruct (Z_lt_le_dec (Zpos q) (2 ^ 53)) as [Hsmall|Hbig].
  - (* the rounded mantissa still has 53 bits *)
    assert (Hq : Zpos (digits2_pos q) = 53) by (apply digits2_pos_eq; lia).
    rewrite shr_fexp_full by (try assumption; unfold e1; lia).
    cbn [shr_m]. unfold prec, emax.
    destruct (Z.leb_spec e1 (1024 - 53)); [|unfold e1 in *; lia].
    exists q, e1, (Zpos q). replace (e1 - e1) with 0 by lia.
    split_and!; try reflexivity; try assumption; try lia.
  - (* the rounded mantissa is 2^53 *)
    assert (Eq : Zpos q = 2 ^ 53) by lia.
    assert (Hq : Zpos (digits2_pos q) = 54) by (apply digits2_pos_eq; lia).
    unfold shr_fexp, Zdigits2, fexp, emin, prec, emax. rewrite Hq.
    replace (Z.max (54 + e1 - 53) (3 - 1024 - 53) - e1) with 1 by (unfold e1; lia).
    cbn [shr shr_record_of_loc SpecFloat.iter_pos].
    assert (Hshr : shr_m (shr_1 {| shr_m := Zpos q; shr_r := false; shr_s := false |}) = 2 ^ 52).
    { rewrite shr_1_m by (cbn; lia). cbn [shr_m]. rewrite Eq. reflexivity. }
    rewrite Hshr. change (2 ^ 52) with (Zpos (2 ^ 52)).
    cbv beta iota.
    destruct (Z.leb_spec (e1 + 1) (1024 - 53)); [|unfold e1 in *; lia].
    exists (2 ^ 52)%positive, (e1 + 1), (Zpos q).
    replace (e1 + 1 - e1) with 1 by lia.
    split_and!; try reflexivity; try lia.
Qed.

End RoundingFacts.

(** *** Non-negative numbers of a range of exponents *)

Section RangeFacts.

Lemma is_normal_inv lo hi x :
  is_normal lo hi x = true ->
  exists m e, x = S754_finite false m e /\ Zpos (digits2_pos m) = 53 /\ lo <= e <= hi.
Proof.
  destruct x as [| | |[] m e]; try discriminate. cbn [is_normal]. intros H.
  apply andb_prop in H as [H H3]. apply andb_prop in H as [H1 H2].
  apply Z.eqb_eq in H1. apply Z.leb_le in H2, H3. eauto 6.
Qed.

Lemma is_normal_intro lo hi m e :
  Zpos (digits2_pos m) = 53 -> lo <= e <= hi -> is_normal lo hi (S754_finite false m e) = true.
Proof.
  intros Hd He. cbn [is_normal]. rewrite Hd, Z.eqb_refl. cbn [andb].
  apply andb_true_intro. split; apply Z.leb_le; lia.
Qed.

Lemma is_nonneg_inv lo hi x :
  is_nonneg lo hi x = true -> is_zero x = true \/ is_normal lo hi x = true.
Proof. unfold is_nonneg. intros H. apply orb_prop in H. exact H. Qed.

Lemma is_zero_inv x : is_zero x = true -> exists s, x = S754_zero s.
Proof. destruct x; try discriminate. eauto. Qed.

Lemma mantissa_53 m : Zpos (digits2_pos m) = 53 -> 2 ^ 52 <= Zpos m < 2 ^ 53.
Proof. intros H. pose proof (digits2_pos_bounds m) as B. rewrite H in B. exact B. Qed.

(** One unit in the last place is at most 2^-52 of the value. *)
Lemma ulp_relative M M1 k :
  0 <= k -> 2 ^ (k + 52) <= M -> M1 <= M / 2 ^ k + 1 ->
  M1 * 2 ^ k * 2 ^ 52 <= M * (2 ^ 52 + 1).
Proof.
  intros Hk HM HM1.
  assert (Hp : 0 < 2 ^ k) by (apply Z.pow_pos_nonneg; lia).
  rewrite Z.pow_add_r in HM by lia.
  pose proof (Z.mul_div_le M (2 ^ k) Hp).
  assert (M1 * 2 ^ k <= M + 2 ^ k) by nia.
  nia.
Qed.

Lemma ulp_relative_below M M1 k :
  0 <= k -> 2 ^ (k + 52) <= M -> M / 2 ^ k <= M1 ->
  M * (2 ^ 52 - 1) <= M1 * 2 ^ k * 2 ^ 52.
Proof.
  intros Hk HM HM1.
  assert (Hp : 0 < 2 ^ k) by (apply Z.pow_pos_nonneg; lia).
  rewrite Z.pow_add_r in HM by lia.
  pose proof (Z.mod_pos_bound M (2 ^ k) Hp).
  pose proof (Z.div_mod M (2 ^ k) ltac:(lia)).
  assert (M - 2 ^ k <= M1 * 2 ^ k) by nia.
  nia.
Qed.

Lemma pow2_pos n : 0 <= n -> 0 < 2 ^ n.
Proof. intros. apply Z.pow_pos_nonneg; lia. Qed.

(** The value of a rounded number, from what [binary_round_aux_bound]
    says of its mantissa. *)
Lemma sv_rounded s m' e' e1 M1 :
  -200 <= e1 -> 0 <= e' - e1 -> Zpos m' * 2 ^ (e' - e1) = M1 ->
  sv (S754_finite s m' e') = M1 * 2 ^ (e1 + 200).
Proof.
  intros H1 H2 <-. cbn [sv].
  rewrite <- Z.mul_assoc, <- Z.pow_add_r by lia. do 2 f_equal. lia.
Qed.

Lemma digits_product mx my :
  Zpos (digits2_pos mx) = 53 -> Zpos (digits2_pos my) = 53 ->
  105 <= Zpos (digits2_pos (mx * my)) <= 106.
Proof.
  intros Hx Hy. apply mantissa_53 in Hx, Hy.
  destruct (digits2_pos_bounds (mx * my)) as [Dlo Dhi].
  rewrite Pos2Z.inj_mul in Dlo, Dhi.
  assert (H1 : 2 ^ 104 <= Zpos mx * Zpos my) by (change (2 ^ 104) with (2 ^ 52 * 2 ^ 52); nia).
  assert (H2 : Zpos mx * Zpos my < 2 ^ 106) by (change (2 ^ 106) with (2 ^ 53 * 2 ^ 53); nia).
  pose proof (Pos2Z.is_pos (digits2_pos (mx * my))).
  split.
  - destruct (Z_le_gt_dec 105 (Zpos (digits2_pos (mx * my)))) as [|Hgt]; [assumption|]. exfalso.
    assert (2 ^ Zpos (digits2_pos (mx * my)) <= 2 ^ 104) by (apply Z.pow_le_mono_r; lia). lia.
  - destruct (Z_le_gt_dec (Zpos (digits2_pos (mx * my))) 106) as [|Hgt]; [assumption|]. exfalso.
    assert (2 ^ 106 <= 2 ^ (Zpos (digits2_pos (mx * my)) - 1)) by (apply Z.pow_le_mono_r; lia). lia.
Qed.

(** The product of two normal numbers: normal and at most 1 + 2^-52 times
    the exact product. *)
Lemma mul_normal x y lo1 hi1 lo2 hi2 :
  is_normal lo1 hi1 x = true -> is_normal lo2 hi2 y = true ->
  -200 <= lo1 -> -200 <= lo2 -> -200 <= lo1 + lo2 + 52 -> hi1 <= 200 -> hi2 <= 200 ->
  is_normal (lo1 + lo2 + 52) (hi1 + hi2 + 54) (mul x y) = true /\
  sv (mul x y) * 2 ^ 200 * 2 ^ 52 <= sv x * sv y * (2 ^ 52 + 1) /\
  sv x * sv y * (2 ^ 52 - 1) <= sv (mul x y) * 2 ^ 200 * 2 ^ 52.
Proof.
  intros Hx Hy L1 L2 L12 U1 U2.
  apply is_normal_inv in Hx as (mx & ex & -> & Dx & Ex).
  apply is_normal_inv in Hy as (my & ey & -> & Dy & Ey).
  unfold mul, SFmul. cbn [xorb].
  pose proof (digits_product mx my Dx Dy) as Hd.
  destruct (binary_round_aux_bound false (mx * my) (ex + ey) loc_Exact)
    as (m' & e' & M1 & -> & Dm & He' & HM1 & Hlo & Hhi); try lia.
  split; [apply is_normal_intro; [assumption | lia]|].
  remember (Zpos (digits2_pos (mx * my))) as d eqn:Ed.
  remember (d - 53) as k eqn:Ek. remember (ex + ey + k) as e1 eqn:Ee1.
  rewrite (sv_rounded false m' e' e1 M1) by (try assumption; lia).
  cbn [sv].
  assert (Hbig : 2 ^ (k + 52) <= Zpos (mx * my)).
  { destruct (digits2_pos_bounds (mx * my)) as [Dlo _]. rewrite <- Ed in Dlo.
    replace (k + 52) with (d - 1) by lia. exact Dlo. }
  assert (Hulp : M1 * 2 ^ k * 2 ^ 52 <= Zpos (mx * my) * (2 ^ 52 + 1))
    by (apply ulp_relative; [lia | assumption | lia]).
  assert (Hulp' : Zpos (mx * my) * (2 ^ 52 - 1) <= M1 * 2 ^ k * 2 ^ 52)
    by (apply ulp_relative_below; [lia | assumption | lia]).
  rewrite Pos2Z.inj_mul in Hulp, Hulp'.
  pose proof (pow2_pos (ex + ey + 400) ltac:(lia)) as Ha.
  replace (M1 * 2 ^ (e1 + 200) * 2 ^ 200 * 2 ^ 52)
    with (M1 * 2 ^ k * 2 ^ 52 * 2 ^ (ex + ey + 400)).
  2:{ rewrite <- (Z.mul_assoc M1 (2 ^ (e1 + 200))), <- (Z.pow_add_r 2 (e1 + 200)) by lia.
      replace (e1 + 200 + 200) with (k + (ex + ey + 400)) by lia.
      rewrite (Z.pow_add_r 2 k (ex + ey + 400)) by lia. ring. }
  assert (Hxy : forall c, Zpos mx * 2 ^ (ex + 200) * (Zpos my * 2 ^ (ey + 200)) * c
                         = Zpos mx * Zpos my * c * 2 ^ (ex + ey + 400)).
  { intros c. replace (ex + ey + 400) with (ex + 200 + (ey + 200)) by lia.
    rewrite (Z.pow_add_r 2 (ex + 200) (ey + 200)) by lia. ring. }
  rewrite !Hxy.
  split; (apply Z.mul_le_mono_nonneg_r; [lia | assumption]).
Qed.

(** The sum of two normal numbers. *)
Lemma add_normal x y lo1 hi1 lo2 hi2 :
  is_normal lo1 hi1 x = true -> is_normal lo2 hi2 y = true ->
  -200 <= lo1 -> -200 <= lo2 -> hi1 <= 200 -> hi2 <= 200 ->
  is_normal (Z.min lo1 lo2) (Z.max hi1 hi2 + 2) (add x y) = true /\
  sv (add x y) * 2 ^ 52 <= (sv x + sv y) * (2 ^ 52 + 1) /\
  (sv x + sv y) * (2 ^ 52 - 1) <= sv (add x y) * 2 ^ 52.
Proof.
  intros Hx Hy L1 L2 U1 U2.
  apply is_normal_inv in Hx as (mx & ex & -> & Dx & Ex).
  apply is_normal_inv in Hy as (my & ey & -> & Dy & Ey).
  unfold add, SFadd. cbn [cond_Zopp].
  remember (Z.min ex ey) as ez eqn:Eez.
  pose proof (shl_align_val mx ex ez ltac:(lia)) as Vx.
  pose proof (shl_align_val my ey ez ltac:(lia)) as Vy.
  destruct (shl_align mx ex ez) as [ax ?], (shl_align my ey ez) as [ay ?]. cbn [fst] in *.
  change (Zpos ax + Zpos ay) with (Zpos (ax + ay)). cbn [binary_normalize].
  apply mantissa_53 in Dx, Dy.
  pose proof (pow2_pos (ex - ez) ltac:(lia)) as Px.
  pose proof (pow2_pos (ey - ez) ltac:(lia)) as Py.
  assert (HM : Zpos (ax + ay) = Zpos mx * 2 ^ (ex - ez) + Zpos my * 2 ^ (ey - ez))
    by (rewrite Pos2Z.inj_add; lia).
  remember (Z.max ex ey) as eM eqn:EeM.
  assert (Hlow : 2 ^ (52 + (eM - ez)) <= Zpos (ax + ay)).
  { rewrite HM, Z.pow_add_r by lia.
    destruct (Z_le_gt_dec ex ey).
    - replace (eM - ez) with (ey - ez) by lia. nia.
    - replace (eM - ez) with (ex - ez) by lia. nia. }
  assert (Hupp : Zpos (ax + ay) < 2 ^ (54 + (eM - ez))).
  { rewrite HM, Z.pow_add_r by lia. change (2 ^ 54) with (2 ^ 53 + 2 ^ 53).
    assert (2 ^ (ex - ez) <= 2 ^ (eM - ez)) by (apply Z.pow_le_mono_r; lia).
    assert (2 ^ (ey - ez) <= 2 ^ (eM - ez)) by (apply Z.pow_le_mono_r; lia).
    nia. }
  remember (Zpos (digits2_pos (ax + ay))) as d eqn:Ed.
  assert (Hd : 53 + (eM - ez) <= d <= 54 + (eM - ez)).
  { destruct (digits2_pos_bounds (ax + ay)) as [Dlo Dhi]. rewrite <- Ed in Dlo, Dhi.
    split.
    - destruct (Z_le_gt_dec (53 + (eM - ez)) d) as [|Hgt]; [assumption|]. exfalso.
      assert (d = Zpos (digits2_pos (ax + ay))) by assumption.
      assert (0 <= d) by lia.
      assert (2 ^ d <= 2 ^ (52 + (eM - ez))) by (apply Z.pow_le_mono_r; lia). lia.
    - destruct (Z_le_gt_dec d (54 + (eM - ez))) as [|Hgt]; [assumption|]. exfalso.
      assert (2 ^ (54 + (eM - ez)) <= 2 ^ (d - 1)) by (apply Z.pow_le_mono_r; lia). lia. }
  assert (Hal : shl_align (ax + ay) ez (fexp prec emax (Zpos (digits2_pos (ax + ay)) + ez))
                = (ax + ay, ez)%positive).
  { unfold shl_align, fexp, emin, prec, emax. rewrite <- Ed.
    destruct (Z.max (d + ez - 53) (3 - 1024 - 53) - ez) eqn:E; try reflexivity. lia. }
  unfold binary_round. rewrite Hal.
  destruct (binary_round_aux_bound false (ax + ay) ez loc_Exact)
    as (m' & e' & M1 & -> & Dm & He' & HM1 & Hlo & Hhi); try lia.
  rewrite <- Ed in *.
  split; [apply is_normal_intro; [assumption | lia]|].
  remember (d - 53) as k eqn:Ek. remember (ez + k) as e1 eqn:Ee1.
  rewrite (sv_rounded false m' e' e1 M1) by (try assumption; lia).
  cbn [sv].
  assert (Hbig : 2 ^ (k + 52) <= Zpos (ax + ay)).
  { destruct (digits2_pos_bounds (ax + ay)) as [Dlo _]. rewrite <- Ed in Dlo.
    replace (k + 52) with (d - 1) by lia. exact Dlo. }
  assert (Hulp : M1 * 2 ^ k * 2 ^ 52 <= Zpos (ax + ay) * (2 ^ 52 + 1))
    by (apply ulp_relative; [lia | assumption | lia]).
  assert (Hulp' : Zpos (ax + ay) * (2 ^ 52 - 1) <= M1 * 2 ^ k * 2 ^ 52)
    by (apply ulp_relative_below; [lia | assumption | lia]).
  pose proof (pow2_pos (ez + 200) ltac:(lia)) as Ha.
  replace (M1 * 2 ^ (e1 + 200) * 2 ^ 52) with (M1 * 2 ^ k * 2 ^ 52 * 2 ^ (ez + 200)).
  2:{ replace (e1 + 200) with (k + (ez + 200)) by lia.
      rewrite (Z.pow_add_r 2 k (ez + 200)) by lia. ring. }
  assert (Hxy : forall c, (Zpos mx * 2 ^ (ex + 200) + Zpos my * 2 ^ (ey + 200)) * c
                         = Zpos (ax + ay) * c * 2 ^ (ez + 200)).
  { intros c. rewrite HM.
    replace (ex + 200) with (ex - ez + (ez + 200)) by lia.
    replace (ey + 200) with (ey - ez + (ez + 200)) by lia.
    rewrite (Z.pow_add_r 2 (ex - ez) (ez + 200)), (Z.pow_add_r 2 (ey - ez) (ez + 200)) by lia.
    ring. }
  rewrite !Hxy.
  split; (apply Z.mul_le_mono_nonneg_r; [lia | assumption]).
Qed.

(** The quotient of two normal numbers. *)
Lemma div_normal x y lo1 hi1 lo2 hi2 :
  is_normal lo1 hi1 x = true -> is_normal lo2 hi2 y = true ->
  -200 <= lo1 -> -200 <= lo2 -> hi1 <= 200 -> hi2 <= 200 -> -200 <= lo1 - hi2 - 53 ->
  is_normal (lo1 - hi2 - 53) (hi1 - lo2 - 51) (div x y) = true /\
  sv (div x y) * sv y * 2 ^ 52 <= sv x * 2 ^ 200 * (2 ^ 52 + 1).
Proof.
  intros Hx Hy L1 L2 U1 U2 L12.
  apply is_normal_inv in Hx as (mx & ex & -> & Dx & Ex).
  apply is_normal_inv in Hy as (my & ey & -> & Dy & Ey).
  unfold div, SFdiv, SFdiv_core_binary, Zdigits2, fexp, emin, prec, emax. cbn [xorb].
  rewrite Dx, Dy.
  replace (Z.min (Z.max (53 + ex - (53 + ey) - 53) (3 - 1024 - 53)) (ex - ey))
    with (ex - ey - 53) by lia.
  replace (ex - ey - (ex - ey - 53)) with 53 by lia.
  cbv beta iota.
  apply mantissa_53 in Dx, Dy.
  assert (Hsh : Z.shiftl (Zpos mx) 53 = Zpos mx * 2 ^ 53) by (apply Z.shiftl_mul_pow2; lia).
  rewrite Hsh.
  pose proof (Z.div_mod (Zpos mx * 2 ^ 53) (Zpos my) ltac:(lia)) as Hdm.
  pose proof (Z.mod_pos_bound (Zpos mx * 2 ^ 53) (Zpos my) ltac:(lia)) as Hr.
  unfold Z.div, Z.modulo in Hdm, Hr.
  destruct (Z.div_eucl (Zpos mx * 2 ^ 53) (Zpos my)) as [q r]. cbn [fst snd] in Hdm, Hr.
  assert (Hq : 2 ^ 52 <= q < 2 ^ 54).
  { split.
    - destruct (Z_le_gt_dec (2 ^ 52) q) as [|Hgt]; [assumption|]. exfalso.
      assert (Zpos my * q <= Zpos my * (2 ^ 52 - 1)) by nia.
      change (2 ^ 53) with (2 * 2 ^ 52) in *. nia.
    - destruct (Z_lt_le_dec q (2 ^ 54)) as [|Hge]; [assumption|]. exfalso.
      assert (Zpos my * 2 ^ 54 <= Zpos my * q) by nia.
      change (2 ^ 54) with (4 * 2 ^ 52) in *. change (2 ^ 53) with (2 * 2 ^ 52) in *. nia. }
  destruct q as [|qp|qp]; try lia.
  remember (Zpos (digits2_pos qp)) as d eqn:Ed.
  assert (Hd : 53 <= d <= 54).
  { destruct (digits2_pos_bounds qp) as [Dlo Dhi]. rewrite <- Ed in Dlo, Dhi.
    assert (0 < d) by lia.
    split.
    - destruct (Z_le_gt_dec 53 d) as [|Hgt]; [assumption|]. exfalso.
      assert (2 ^ d <= 2 ^ 52) by (apply Z.pow_le_mono_r; lia). lia.
    - destruct (Z_le_gt_dec d 54) as [|Hgt]; [assumption|]. exfalso.
      assert (2 ^ 54 <= 2 ^ (d - 1)) by (apply Z.pow_le_mono_r; lia). lia. }
  change (binary_round_aux 53 1024) with (binary_round_aux prec emax).
  destruct (binary_round_aux_bound false qp (ex - ey - 53) (new_location (Zpos my) r))
    as (m' & e' & M1 & -> & Dm & He' & HM1 & Hlo & Hhi); try lia.
  rewrite <- Ed in *.
  split; [apply is_normal_intro; [assumption | lia]|].
  remember (d - 53) as k eqn:Ek. remember (ex - ey - 53 + k) as e1 eqn:Ee1.
  rewrite (sv_rounded false m' e' e1 M1) by (try assumption; lia).
  cbn [sv].
  assert (Hulp : M1 * 2 ^ k * 2 ^ 52 <= Zpos qp * (2 ^ 52 + 1)).
  { apply ulp_relative; [lia | | lia].
    destruct (digits2_pos_bounds qp) as [Dlo _]. rewrite <- Ed in Dlo.
    replace (k + 52) with (d - 1) by lia. exact Dlo. }
  remember (ex - 53 + 400) as f eqn:Ef.
  pose proof (pow2_pos f ltac:(lia)) as Ha.
  replace (M1 * 2 ^ (e1 + 200) * (Zpos my * 2 ^ (ey + 200)) * 2 ^ 52)
    with (M1 * 2 ^ k * 2 ^ 52 * (Zpos my * 2 ^ f)).
  2:{ replace f with (e1 + 200 - k + (ey + 200)) by lia.
      rewrite (Z.pow_add_r 2 (e1 + 200 - k) (ey + 200)) by lia.
      replace (e1 + 200) with (k + (e1 + 200 - k)) at 2 by lia.
      rewrite (Z.pow_add_r 2 k (e1 + 200 - k)) by lia. ring. }
  replace (Zpos mx * 2 ^ (ex + 200) * 2 ^ 200 * (2 ^ 52 + 1))
    with (Zpos mx * 2 ^ 53 * (2 ^ 52 + 1) * 2 ^ f).
  2:{ rewrite <- (Z.mul_assoc (Zpos mx) (2 ^ (ex + 200))), <- (Z.pow_add_r 2 (ex + 200)) by lia.
      replace (ex + 200 + 200) with (53 + f) by lia.
      rewrite (Z.pow_add_r 2 53 f) by lia. ring. }
  assert (Zpos my * Zpos qp <= Zpos mx * 2 ^ 53) by lia.
  assert (M1 * 2 ^ k * 2 ^ 52 * Zpos my <= Zpos mx * 2 ^ 53 * (2 ^ 52 + 1)) by nia.
  nia.
Qed.

Lemma sv_nonneg x : 0 <= sv x.
Proof.
  destruct x as [| | |s m e]; cbn [sv]; lia.
Qed.

Lemma is_nonneg_normal lo hi x : is_normal lo hi x = true -> is_nonneg lo hi x = true.
Proof. unfold is_nonneg. intros ->. apply orb_true_r. Qed.

Lemma is_normal_weaken lo hi lo' hi' x :
  lo' <= lo -> hi <= hi' -> is_normal lo hi x = true -> is_normal lo' hi' x = true.
Proof.
  intros Hlo Hhi H. apply is_normal_inv in H as (m & e & -> & D & E).
  apply is_normal_intro; [assumption | lia].
Qed.

Lemma mul_nonneg x y lo1 hi1 lo2 hi2 :
  is_nonneg lo1 hi1 x = true -> is_nonneg lo2 hi2 y = true ->
  -200 <= lo1 -> -200 <= lo2 -> -200 <= lo1 + lo2 + 52 -> hi1 <= 200 -> hi2 <= 200 ->
  is_nonneg (lo1 + lo2 + 52) (hi1 + hi2 + 54) (mul x y) = true /\
  sv (mul x y) * 2 ^ 200 * 2 ^ 52 <= sv x * sv y * (2 ^ 52 + 1) /\
  sv x * sv y * (2 ^ 52 - 1) <= sv (mul x y) * 2 ^ 200 * 2 ^ 52.
Proof.
  intros Hx Hy L1 L2 L12 U1 U2.
  apply is_nonneg_inv in Hx as [Zx|Nx]; apply is_nonneg_inv in Hy as [Zy|Ny].
  - apply is_zero_inv in Zx as [sx ->], Zy as [sy ->]. split_and!; reflexivity.
  - apply is_zero_inv in Zx as [sx ->].
    apply is_normal_inv in Ny as (my & ey & -> & _). split_and!; reflexivity.
  - apply is_zero_inv in Zy as [sy ->].
    apply is_normal_inv in Nx as (mx & ex & -> & _).
    split_and!; [reflexivity | cbn [mul SFmul sv]; lia | cbn [mul SFmul sv]; lia].
  - destruct (mul_normal x y lo1 hi1 lo2 hi2) as (H1 & H2 & H3); try assumption.
    split_and!; [apply is_nonneg_normal| |]; assumption.
Qed.

Lemma add_nonneg x y lo1 hi1 lo2 hi2 :
  is_nonneg lo1 hi1 x = true -> is_nonneg lo2 hi2 y = true ->
  -200 <= lo1 -> -200 <= lo2 -> hi1 <= 200 -> hi2 <= 200 ->
  is_nonneg (Z.min lo1 lo2) (Z.max hi1 hi2 + 2) (add x y) = true /\
  sv (add x y) * 2 ^ 52 <= (sv x + sv y) * (2 ^ 52 + 1) /\
  (sv x + sv y) * (2 ^ 52 - 1) <= sv (add x y) * 2 ^ 52.
Proof.
  intros Hx Hy L1 L2 U1 U2.
  pose proof (sv_nonneg x) as Px. pose proof (sv_nonneg y) as Py.
  apply is_nonneg_inv in Hx as [Zx|Nx]; apply is_nonneg_inv in Hy as [Zy|Ny].
  - apply is_zero_inv in Zx as [sx ->], Zy as [sy ->].
    destruct sx, sy; split_and!; reflexivity.
  - apply is_zero_inv in Zx as [sx ->].
    assert (E : add (S754_zero sx) y = y)
      by (apply is_normal_inv in Ny as (my & ey & -> & _); reflexivity).
    rewrite E. split_and!; [|cbn [sv] in *; lia|cbn [sv] in *; lia].
    apply is_nonneg_normal. revert Ny. apply is_normal_weaken; lia.
  - apply is_zero_inv in Zy as [sy ->].
    assert (E : add x (S754_zero sy) = x)
      by (apply is_normal_inv in Nx as (mx & ex & -> & _); reflexivity).
    rewrite E. split_and!; [|cbn [sv] in *; lia|cbn [sv] in *; lia].
    apply is_nonneg_normal. revert Nx. apply is_normal_weaken; lia.
  - destruct (add_normal x y lo1 hi1 lo2 hi2) as (H1 & H2 & H3); try assumption.
    split_and!; [apply is_nonneg_normal| |]; assumption.
Qed.

Lemma div_nonneg x y lo1 hi1 lo2 hi2 :
  is_nonneg lo1 hi1 x = true -> is_normal lo2 hi2 y = true ->
  -200 <= lo1 -> -200 <= lo2 -> hi1 <= 200 -> hi2 <= 200 -> -200 <= lo1 - hi2 - 53 ->
  is_nonneg (lo1 - hi2 - 53) (hi1 - lo2 - 51) (div x y) = true /\
  sv (div x y) * sv y * 2 ^ 52 <= sv x * 2 ^ 200 * (2 ^ 52 + 1).
Proof.
  intros Hx Hy L1 L2 U1 U2 L12.
  apply is_nonneg_inv in Hx as [Zx|Nx].
  - apply is_zero_inv in Zx as [sx ->].
    apply is_normal_inv in Hy as (my & ey & -> & _). split; reflexivity.
  - destruct (div_normal x y lo1 hi1 lo2 hi2) as [H1 H2]; try assumption.
    split; [apply is_nonneg_normal|]; assumption.
Qed.

End RangeFacts.

(** *** The error of the five operations of a channel *)

Ltac nonneg := repeat apply Z.mul_nonneg_nonneg; lia.

(** [H : a <= b] multiplied by a non-negative [k]. *)
Ltac scale_by H k :=
  let H' := fresh H in
  pose proof (Z.mul_le_mono_nonneg_r _ _ k ltac:(nonneg) H) as H'.

Section OverArithmetic.

(** The bound on a colour channel of "top over bottom", from the bounds
    on its five operations. *)
Lemma over_bound (T Bc A B C R X Y' Y S Q p D : Z) :
  0 < p -> 0 < D -> 0 < R ->
  0 <= T <= 255 -> 0 <= Bc <= 255 ->
  0 <= A -> 0 <= B -> 0 <= C -> 0 <= X -> 0 <= Y' -> 0 <= Y -> 0 <= S -> 0 <= Q ->
  X * D * p <= T * D * A * (p + 1) ->
  Y' * D * p <= Bc * D * B * (p + 1) ->
  Y * D * p <= Y' * C * (p + 1) ->
  S * p <= (X + Y) * (p + 1) ->
  Q * R * p <= S * D * (p + 1) ->
  510 * (A * D + B * C) * ((p + 1) * (p + 1) * (p + 1) * (p + 1))
    < 511 * R * D * (p * p * p * p) ->
  2 * Q < 511 * D.
Proof.
  intros Hp HD HR HT HBc HA HB HC HX HY' HY HS HQ H1 H2 H3 H4 H5 H6.
  remember (p + 1) as u eqn:Eu. assert (Hu : 0 < u) by lia. assert (Hpu : p <= u) by lia.
  assert (G1 : X * p <= 255 * A * u).
  { apply (Z.mul_le_mono_pos_r _ _ D HD).
    transitivity (T * D * A * u); [replace (X * p * D) with (X * D * p) by ring; exact H1|].
    replace (T * D * A * u) with (T * (D * A * u)) by ring.
    replace (255 * A * u * D) with (255 * (D * A * u)) by ring.
    apply Z.mul_le_mono_nonneg_r; [nonneg | lia]. }
  assert (G2 : Y' * p <= 255 * B * u).
  { apply (Z.mul_le_mono_pos_r _ _ D HD).
    transitivity (Bc * D * B * u); [replace (Y' * p * D) with (Y' * D * p) by ring; exact H2|].
    replace (Bc * D * B * u) with (Bc * (D * B * u)) by ring.
    replace (255 * B * u * D) with (255 * (D * B * u)) by ring.
    apply Z.mul_le_mono_nonneg_r; [nonneg | lia]. }
  assert (G3 : Y * D * (p * p) <= 255 * (B * C) * (u * u)).
  { scale_by H3 p. scale_by G2 (C * u).
    transitivity (Y' * C * u * p); [replace (Y * D * (p * p)) with (Y * D * p * p) by ring; assumption|].
    replace (Y' * C * u * p) with (Y' * p * (C * u)) by ring.
    replace (255 * (B * C) * (u * u)) with (255 * B * u * (C * u)) by ring. assumption. }
  assert (G4 : S * D * (p * p * p) <= 255 * (A * D + B * C) * (u * u * u)).
  { scale_by H4 (D * (p * p)). scale_by G1 (D * p * u). scale_by G3 u.
    assert (Gpu : 255 * A * u * (D * p * u) <= 255 * A * u * (D * u * u)).
    { apply Z.mul_le_mono_nonneg_l; [nonneg|].
      apply Z.mul_le_mono_nonneg_r; [lia|].
      apply Z.mul_le_mono_nonneg_l; lia. }
    transitivity ((X + Y) * u * (D * (p * p)));
      [replace (S * D * (p * p * p)) with (S * p * (D * (p * p))) by ring; assumption|].
    replace ((X + Y) * u * (D * (p * p)))
      with (X * p * (D * p * u) + Y * D * (p * p) * u) by ring.
    replace (255 * (A * D + B * C) * (u * u * u))
      with (255 * A * u * (D * u * u) + 255 * (B * C) * (u * u) * u) by ring.
    apply Z.add_le_mono; [etransitivity; eassumption | assumption]. }
  assert (G5 : Q * R * (p * p * p * p) <= 255 * (A * D + B * C) * (u * u * u * u)).
  { scale_by H5 (p * p * p). scale_by G4 u.
    transitivity (S * D * u * (p * p * p));
      [replace (Q * R * (p * p * p * p)) with (Q * R * p * (p * p * p)) by ring; assumption|].
    replace (S * D * u * (p * p * p)) with (S * D * (p * p * p) * u) by ring.
    replace (255 * (A * D + B * C) * (u * u * u * u))
      with (255 * (A * D + B * C) * (u * u * u) * u) by ring. assumption. }
  assert (Hpos : 0 < R * (p * p * p * p)) by (repeat apply Z.mul_pos_pos; lia).
  apply (Z.mul_lt_mono_pos_r _ _ _ Hpos).
  replace (2 * Q * (R * (p * p * p * p))) with (2 * (Q * R * (p * p * p * p))) by ring.
  replace (511 * D * (R * (p * p * p * p))) with (511 * R * D * (p * p * p * p)) by ring.
  lia.
Qed.

(** The denominator [R = A + B * C], each operation rounded, is within
    (1 - 2^-52)^2 of the exact one: the hypothesis of [over_bound]. *)
Lemma alpha_ratio (A B C BC R p D : Z) :
  1 < p -> 0 < D -> 0 < R ->
  0 <= A -> 0 <= B -> 0 <= C -> 0 <= BC ->
  BC * D * p <= B * C * (p + 1) ->
  B * C * (p - 1) <= BC * D * p ->
  R * p <= (A + BC) * (p + 1) ->
  (A + BC) * (p - 1) <= R * p ->
  510 * ((p + 1) * (p + 1) * (p + 1) * (p + 1)) < 511 * ((p - 1) * (p - 1) * (p * p)) ->
  510 * (A * D + B * C) * ((p + 1) * (p + 1) * (p + 1) * (p + 1))
    < 511 * R * D * (p * p * p * p).
Proof.
  intros Hp HD HR HA HB HC HBC U1 L1 U2 L2 Hc.
  remember (p + 1) as u eqn:Eu. remember (p - 1) as v eqn:Ev.
  assert (Hv : 0 < v) by lia. assert (Hvp : v <= p) by lia.
  remember (A * D + B * C) as W eqn:EW.
  assert (HW : 0 < W).
  { assert (0 < A + BC) by nia.
    destruct (Z.eq_dec A 0) as [->|]; [|nia].
    assert (0 < BC) by lia. assert (0 < B * C) by nia. nia. }
  assert (G : W * (v * v) <= R * D * (p * p)).
  { scale_by L2 (D * p).
    assert (G1 : A * D * (v * v) + B * C * (v * v) <= A * D * (p * v) + BC * D * p * v).
    { apply Z.add_le_mono.
      - apply Z.mul_le_mono_nonneg_l; [nonneg|]. apply Z.mul_le_mono_nonneg_r; lia.
      - scale_by L1 v. replace (B * C * (v * v)) with (B * C * v * v) by ring. assumption. }
    transitivity ((A + BC) * v * (D * p)).
    - rewrite EW. replace ((A * D + B * C) * (v * v)) with (A * D * (v * v) + B * C * (v * v)) by ring.
      replace ((A + BC) * v * (D * p)) with (A * D * (p * v) + BC * D * p * v) by ring.
      exact G1.
    - replace (R * D * (p * p)) with (R * p * (D * p)) by ring. assumption. }
  scale_by G (511 * (p * p)).
  assert (G' : 510 * (u * u * u * u) * W < 511 * (v * v * (p * p)) * W)
    by (apply Z.mul_lt_mono_pos_r; assumption).
  replace (510 * W * (u * u * u * u)) with (510 * (u * u * u * u) * W) by ring.
  replace (511 * R * D * (p * p * p * p)) with (R * D * (p * p) * (511 * (p * p))) by ring.
  replace (W * (v * v) * (511 * (p * p))) with (511 * (v * v * (p * p)) * W) in G0 by ring.
  lia.
Qed.

(** The alpha of the result, [round (R * 255)], is below 255.5. *)
Lemma alpha_result_bound (A B C BC R Q p D : Z) :
  0 < p -> 0 < D ->
  0 <= A -> 0 <= B <= D -> 0 <= C -> 0 <= BC -> 0 <= R -> 0 <= Q ->
  (A + C) * p <= D * (p + 1) ->
  BC * D * p <= B * C * (p + 1) ->
  R * p <= (A + BC) * (p + 1) ->
  Q * D * p <= R * (255 * D) * (p + 1) ->
  510 * ((p + 1) * (p + 1) * (p + 1) * (p + 1)) < 511 * (p * p * p * p) ->
  2 * Q < 511 * D.
Proof.
  intros Hp HD HA HB HC HBC HR HQ HAC U1 U2 U3 Hc.
  remember (p + 1) as u eqn:Eu. assert (Hu : 0 < u) by lia. assert (Hpu : p <= u) by lia.
  assert (G1 : BC * p <= C * u).
  { apply (Z.mul_le_mono_pos_r _ _ D HD).
    transitivity (B * C * u); [replace (BC * p * D) with (BC * D * p) by ring; exact U1|].
    replace (B * C * u) with (B * (C * u)) by ring.
    replace (C * u * D) with (D * (C * u)) by ring.
    apply Z.mul_le_mono_nonneg_r; [nonneg | lia]. }
  assert (G2 : R * (p * p) <= (A + C) * (u * u)).
  { scale_by U2 p.
    transitivity ((A + BC) * u * p); [replace (R * (p * p)) with (R * p * p) by ring; assumption|].
    replace ((A + BC) * u * p) with ((A * p + BC * p) * u) by ring.
    replace ((A + C) * (u * u)) with ((A * u + C * u) * u) by ring.
    apply Z.mul_le_mono_nonneg_r; [lia|].
    apply Z.add_le_mono; [apply Z.mul_le_mono_nonneg_l; lia | exact G1]. }
  assert (G3 : R * (p * p * p) <= D * (u * u * u)).
  { scale_by G2 p. scale_by HAC (u * u).
    transitivity ((A + C) * (u * u) * p); [replace (R * (p * p * p)) with (R * (p * p) * p) by ring; assumption|].
    replace ((A + C) * (u * u) * p) with ((A + C) * p * (u * u)) by ring.
    replace (D * (u * u * u)) with (D * u * (u * u)) by ring. assumption. }
  assert (G4 : Q * p <= 255 * R * u).
  { apply (Z.mul_le_mono_pos_r _ _ D HD).
    replace (Q * p * D) with (Q * D * p) by ring.
    replace (255 * R * u * D) with (R * (255 * D) * u) by ring. exact U3. }
  assert (G5 : Q * (p * p * p * p) <= 255 * D * (u * u * u * u)).
  { scale_by G4 (p * p * p). scale_by G3 (255 * u).
    transitivity (255 * R * u * (p * p * p));
      [replace (Q * (p * p * p * p)) with (Q * p * (p * p * p)) by ring; assumption|].
    replace (255 * R * u * (p * p * p)) with (R * (p * p * p) * (255 * u)) by ring.
    replace (255 * D * (u * u * u * u)) with (D * (u * u * u) * (255 * u)) by ring. assumption. }
  assert (Hpos : 0 < p * p * p * p) by (repeat apply Z.mul_pos_pos; lia).
  apply (Z.mul_lt_mono_pos_r _ _ _ Hpos).
  assert (G6 : 510 * (u * u * u * u) * D < 511 * (p * p * p * p) * D)
    by (apply Z.mul_lt_mono_pos_r; assumption).
  replace (2 * Q * (p * p * p * p)) with (2 * (Q * (p * p * p * p))) by ring.
  replace (511 * D * (p * p * p * p)) with (511 * (p * p * p * p) * D) by ring.
  replace (510 * (u * u * u * u) * D) with (2 * (255 * D * (u * u * u * u))) in G6 by ring.
  lia.
Qed.

End OverArithmetic.

(** *** Integers of [0, 255] *)

Section ByteFacts.

Lemma is_nonneg_binary64 lo hi x :
  is_nonneg lo hi x = true -> -1074 <= lo -> hi <= 971 -> is_binary64 x = true.
Proof.
  intros H Hlo Hhi. apply is_nonneg_inv in H as [Zx|Nx].
  - apply is_zero_inv in Zx as [s ->]. reflexivity.
  - apply is_normal_inv in Nx as (m & e & -> & Dm & He).
    unfold is_binary64, valid_binary, bounded, canonical_mantissa, fexp, emin.
    rewrite Dm. unfold prec, emax.
    apply andb_true_intro. split; [apply Z.eqb_eq | apply Z.leb_le]; lia.
Qed.

(** A binary64 number that is an integer of [0, 255] is a zero or a
    normal number of exponent -52 to -45. *)
Lemma is_byte_inv x :
  is_byte x = true ->
  is_nonneg (-52) (-45) x = true /\ exists k, to_Z x = Some k /\ 0 <= k <= 255.
Proof.
  unfold is_byte. intros H. apply andb_prop in H as [H1 H2].
  destruct (to_Z x) as [k|] eqn:Ek; [|discriminate].
  apply andb_prop in H2 as [Ha Hb]. apply Z.leb_le in Ha, Hb.
  split; [|exists k; split; [reflexivity | lia]].
  destruct x as [s| | |s m e]; try discriminate; [reflexivity|].
  apply to_Z_magnitude in Ek as (A & -> & HA & HAm).
  destruct s; cbn [cond_Zopp] in *; [lia|].
  unfold is_binary64, valid_binary, bounded, canonical_mantissa, fexp, emin, prec, emax in H1.
  apply andb_prop in H1 as [Hc He]. apply Z.eqb_eq in Hc. apply Z.leb_le in He.
  destruct (digits2_pos_bounds m) as [Dlo Dhi].
  pose proof (Pos2Z.is_pos (digits2_pos m)) as Dpos.
  assert (D53 : Zpos (digits2_pos m) <= 53) by lia.
  assert (Hm53 : Zpos m < 2 ^ 53).
  { assert (2 ^ Zpos (digits2_pos m) <= 2 ^ 53) by (apply Z.pow_le_mono_r; lia). lia. }
  assert (Hneg : e < 0).
  { destruct (Z_lt_le_dec e 0) as [|Hge]; [assumption|]. exfalso.
    specialize (HAm 0 ltac:(lia) ltac:(lia)). rewrite Z.add_0_r in HAm.
    assert (Zpos (digits2_pos m) = 53) by lia.
    pose proof (mantissa_53 m ltac:(assumption)) as Hm.
    pose proof (pow2_pos e Hge). change (2 ^ 0) with 1 in HAm. nia. }
  specialize (HAm (- e) ltac:(lia) ltac:(lia)).
  replace (e + - e) with 0 in HAm by lia. rewrite Z.mul_1_r in HAm.
  assert (He52 : -52 <= e).
  { destruct (Z_le_gt_dec (-52) e) as [|Hlt]; [assumption|]. exfalso.
    assert (2 ^ 53 <= 2 ^ (- e)) by (apply Z.pow_le_mono_r; lia). nia. }
  assert (Dm : Zpos (digits2_pos m) = 53) by lia.
  pose proof (mantissa_53 m Dm) as Hm.
  assert (He45 : e <= -45).
  { destruct (Z_le_gt_dec e (-45)) as [|Hgt]; [assumption|]. exfalso.
    assert (2 ^ (- e) <= 2 ^ 44) by (apply Z.pow_le_mono_r; lia).
    pose proof (pow2_pos (- e) ltac:(lia)).
    assert (255 * 2 ^ 44 < 2 ^ 52) by reflexivity. nia. }
  apply is_nonneg_normal, is_normal_intro; [assumption | lia].
Qed.

Lemma is_byte_intro x k :
  is_nonneg (-52) (-45) x = true -> to_Z x = Some k -> 0 <= k <= 255 -> is_byte x = true.
Proof.
  intros H1 H2 Hk. unfold is_byte.
  rewrite (is_nonneg_binary64 _ _ _ H1), H2 by lia. cbn [andb].
  apply andb_true_intro. split; apply Z.leb_le; lia.
Qed.

(** A normal number below 256 is its own remainder modulo 256. *)
Lemma rem_256_small x lo :
  is_nonneg lo (-45) x = true -> -1074 <= lo -> rem x (of_Z 256) = x.
Proof.
  intros Hx Hlo. rewrite of_Z_256. apply is_nonneg_inv in Hx as [Zx|Nx].
  - apply is_zero_inv in Zx as [s ->]. reflexivity.
  - apply is_normal_inv in Nx as (m & e & -> & Dm & He).
    unfold rem. replace (Z.min e (-44)) with e by lia.
    rewrite !shl_align_val by lia. replace (e - e) with 0 by lia.
    rewrite Z.mul_1_r.
    pose proof (mantissa_53 m Dm) as Hm.
    assert (Hp : 2 ^ 1 <= 2 ^ (-44 - e)) by (apply Z.pow_le_mono_r; lia).
    change (2 ^ 1) with 2 in Hp. change (Zpos (2 ^ 52)) with (2 ^ 52).
    rewrite Z.mod_small by (change (2 ^ 53) with (2 ^ 52 * 2) in Hm; nia).
    cbn [cond_Zopp binary_normalize].
    destruct (binary_round_exact false m e) as (m' & -> & Hm' & _); try lia.
    rewrite Dm in *. replace (53 - 53) with 0 in Hm' by lia.
    f_equal; lia.
Qed.

Lemma is_byte_facts x :
  is_byte x = true ->
  isNaN x = false /\ rem x (of_Z 256) = x /\ Spec.channel_in_range x.
Proof.
  intros H. apply is_byte_inv in H as (Hn & k & Hk & Rk).
  split_and!.
  - destruct x; try reflexivity; discriminate.
  - apply (rem_256_small x (-52)); [assumption | lia].
  - exists k. auto.
Qed.

(** [Math.round] of a number below 255.5 is an integer of [0, 255]. *)
Lemma round_small Q lo hi :
  is_nonneg lo hi Q = true -> -200 <= lo ->
  2 * sv Q < 511 * 2 ^ 200 -> is_byte (round Q) = true.
Proof.
  intros HQ Hlo Hsv. apply is_nonneg_inv in HQ as [ZQ|NQ].
  - apply is_zero_inv in ZQ as [s ->]. reflexivity.
  - apply is_normal_inv in NQ as (m & e & -> & Dm & He).
    pose proof (mantissa_53 m Dm) as Hm. cbn [sv] in Hsv.
    pose proof (pow2_pos (e + 200) ltac:(lia)) as Pe.
    assert (He0 : e < -44).
    { destruct (Z_lt_le_dec e (-44)) as [|Hge]; [assumption|]. exfalso.
      assert (2 ^ 156 <= 2 ^ (e + 200)) by (apply Z.pow_le_mono_r; lia).
      change (2 ^ 200) with (2 ^ 44 * 2 ^ 156) in Hsv.
      assert (2 * 2 ^ 52 * 2 ^ 156 <= 2 * Zpos m * 2 ^ (e + 200)) by nia.
      assert (511 * 2 ^ 44 < 2 * 2 ^ 52) by reflexivity.
      assert (0 < 2 ^ 156) by reflexivity. nia. }
    unfold round. destruct (Z.leb_spec 0 e); [lia|]. cbn [cond_Zopp].
    rewrite Z.shiftr_div_pow2 by lia.
    pose proof (pow2_pos (- e) ltac:(lia)) as Pn.
    assert (Hm2 : 2 * Zpos m < 511 * 2 ^ (- e)).
    { assert (E : 2 ^ 200 = 2 ^ (e + 200) * 2 ^ (- e))
        by (rewrite <- Z.pow_add_r by lia; f_equal; lia).
      rewrite E in Hsv. nia. }
    replace (1 - e) with (1 + - e) by lia. rewrite Z.pow_add_r by lia.
    change (2 ^ 1) with 2. rewrite Pos2Z.inj_xO.
    assert (Hk : 0 <= (2 * Zpos m + 2 ^ (- e)) / (2 * 2 ^ (- e)) <= 255).
    { split; [apply Z.div_pos; lia|].
      assert ((2 * Zpos m + 2 ^ (- e)) / (2 * 2 ^ (- e)) < 256); [|lia].
      apply Z.div_lt_upper_bound; lia. }
    destruct ((2 * Zpos m + 2 ^ (- e)) / (2 * 2 ^ (- e))) as [|kp|kp]; try lia.
    + reflexivity.
    + cbn [binary_normalize].
      destruct (binary_round_integer false kp) as [_ HZ]; [lia|].
      apply (is_byte_intro _ (Zpos kp)); [|exact HZ|lia].
      assert (Hdk : Zpos (digits2_pos kp) <= 8) by (apply digits2_pos_le; lia).
      pose proof (Pos2Z.is_pos (digits2_pos kp)).
      destruct (binary_round_exact false kp 0) as (m' & -> & _ & Dm'); try lia.
      apply is_nonneg_normal, is_normal_intro; [assumption | lia].
Qed.

(** The numbers of [0, 255] are [-0] and the 256 values [of_Z k]. *)
Lemma is_byte_bytes x : is_byte x = true -> In x bytes.
Proof.
  intros H. apply is_byte_inv in H as (Hn & k & Hk & Rk).
  apply is_nonneg_inv in Hn as [Zx|Nx].
  - apply is_zero_inv in Zx as [[|] ->]; [left; reflexivity|].
    right. apply list_elem_of_In, list_elem_of_fmap. exists 0.
    split; [reflexivity | apply elem_of_seqZ; lia].
  - apply is_normal_inv in Nx as (m & e & -> & Dm & He).
    right. apply list_elem_of_In, list_elem_of_fmap. exists k.
    split; [|apply elem_of_seqZ; lia].
    apply to_Z_magnitude in Hk as (A & -> & HA & HAm). cbn [cond_Zopp] in *.
    specialize (HAm (- e) ltac:(lia) ltac:(lia)).
    replace (e + - e) with 0 in HAm by lia. rewrite Z.mul_1_r in HAm.
    destruct A as [|kp|kp]; try lia.
    pose proof (mantissa_53 m Dm) as Hm.
    pose proof (pow2_pos (- e) ltac:(lia)) as Pe.
    assert (Dk : Zpos (digits2_pos kp) = 53 + e).
    { apply digits2_pos_eq.
      assert (E1 : 2 ^ 52 = 2 ^ (53 + e - 1) * 2 ^ (- e))
        by (rewrite <- Z.pow_add_r by lia; f_equal; lia).
      assert (E2 : 2 ^ 53 = 2 ^ (53 + e) * 2 ^ (- e))
        by (rewrite <- Z.pow_add_r by lia; f_equal; lia).
      rewrite E1, E2, HAm in Hm. split.
      - apply (Z.mul_le_mono_pos_r _ _ _ Pe). lia.
      - apply (Z.mul_lt_mono_pos_r _ _ _ Pe). lia. }
    unfold of_Z. cbn [binary_normalize].
    destruct (binary_round_exact false kp 0) as (m' & -> & Hm' & _); try lia.
    rewrite Dk in *. replace (53 - (53 + e)) with (- e) in Hm' by lia.
    f_equal; lia.
Qed.

Lemma alpha_ok_bytes : forallb alpha_ok bytes = true.
Proof. vm_compute. reflexivity. Qed.

Lemma is_byte_alpha a :
  is_byte a = true ->
  let A := div a (of_Z 255) in
  let C := sub (of_Z 1) A in
  is_nonneg (-60) (-52) A = true /\ is_nonneg (-60) (-52) C = true /\
  sv A <= 2 ^ 200 /\ (sv A + sv C) * 2 ^ 52 <= 2 ^ 200 * (2 ^ 52 + 1).
Proof.
  intros H A C. apply is_byte_bytes in H.
  pose proof (proj1 (forallb_forall alpha_ok bytes) alpha_ok_bytes a H) as Hok.
  unfold alpha_ok in Hok. fold A in Hok. fold C in Hok.
  apply andb_prop in Hok as [Hok H4]. apply andb_prop in Hok as [Hok H3].
  apply andb_prop in Hok as [H1 H2]. apply Z.leb_le in H3, H4. auto.
Qed.

(** The scaled value of an integer of [0, 255]. *)
Lemma is_byte_sv x :
  is_byte x = true -> exists T, sv x = T * 2 ^ 200 /\ 0 <= T <= 255.
Proof.
  intros H. apply is_byte_inv in H as (Hn & k & Hk & Rk).
  apply is_nonneg_inv in Hn as [Zx|Nx].
  - apply is_zero_inv in Zx as [s ->]. exists 0. cbn [sv]. lia.
  - apply is_normal_inv in Nx as (m & e & -> & Dm & He).
    apply to_Z_magnitude in Hk as (A & -> & HA & HAm). cbn [cond_Zopp] in *.
    exists A. split; [|assumption]. cbn [sv]. apply HAm; lia.
Qed.

Lemma strict_eq_zero_normal lo hi x :
  is_nonneg lo hi x = true -> strict_eq x (of_Z 0) = false -> is_normal lo hi x = true.
Proof.
  intros H E. apply is_nonneg_inv in H as [Zx|Nx]; [|assumption].
  apply is_zero_inv in Zx as [s ->]. discriminate.
Qed.

Lemma sv_normal_pos lo hi x : is_normal lo hi x = true -> -200 <= lo -> 0 < sv x.
Proof.
  intros H Hlo. apply is_normal_inv in H as (m & e & -> & _ & He). cbn [sv].
  pose proof (pow2_pos (e + 200) ltac:(lia)). lia.
Qed.

End ByteFacts.

Section Over.
Variables top_a bottom_a : number.
Hypothesis top_a_byte : is_byte top_a = true.
Hypothesis bottom_a_byte : is_byte bottom_a = true.

Let ta := div top_a (of_Z 255).
Let ba := div bottom_a (of_Z 255).
Let ra := add ta (mul ba (sub (of_Z 1) ta)).

Hypothesis ra_not_zero : strict_eq ra (of_Z 0) = false.

Lemma ra_facts :
  is_normal (-68) (-48) ra = true /\
  0 < sv ra /\
  510 * (sv ta * 2 ^ 200 + sv ba * sv (sub (of_Z 1) ta))
      * ((2 ^ 52 + 1) * (2 ^ 52 + 1) * (2 ^ 52 + 1) * (2 ^ 52 + 1))
    < 511 * sv ra * 2 ^ 200 * (2 ^ 52 * 2 ^ 52 * 2 ^ 52 * 2 ^ 52).
Proof using top_a_byte bottom_a_byte ra_not_zero.
  destruct (is_byte_alpha top_a top_a_byte) as (HA & HC & HA1 & HAC).
  destruct (is_byte_alpha bottom_a bottom_a_byte) as (HB & _ & HB1 & _).
  fold ta in HA, HC, HA1, HAC. fold ba in HB, HB1.
  destruct (mul_nonneg ba (sub (of_Z 1) ta) (-60) (-52) (-60) (-52))
    as (HBC & U1 & L1); try assumption; try lia.
  destruct (add_nonneg ta (mul ba (sub (of_Z 1) ta)) (-60) (-52) (-60 + -60 + 52) (-52 + -52 + 54))
    as (HR & U2 & L2); try assumption; try lia.
  fold ra in HR, U2, L2.
  assert (NR : is_normal (-68) (-48) ra = true).
  { apply strict_eq_zero_normal; [|assumption]. revert HR.
    unfold is_nonneg. intros H. apply orb_prop in H as [->|H]; [reflexivity|].
    apply orb_true_iff. right. revert H. apply is_normal_weaken; lia. }
  pose proof (sv_normal_pos _ _ _ NR ltac:(lia)) as PR.
  split_and!; [assumption | assumption |].
  apply (alpha_ratio _ (sv ba) (sv (sub (of_Z 1) ta)) (sv (mul ba (sub (of_Z 1) ta))));
    try apply sv_nonneg; try assumption; lia.
Qed.

(** Each colour channel of the result is an integer of [0, 255]. *)
Lemma over_channel_byte tc bc :
  is_byte tc = true -> is_byte bc = true ->
  is_byte (Spec.over_channel tc bc ta ba ra) = true.
Proof using top_a_byte bottom_a_byte ra_not_zero.
  intros Htc Hbc.
  destruct ra_facts as (NR & PR & H6).
  destruct (is_byte_alpha top_a top_a_byte) as (HA & HC & HA1 & HAC).
  destruct (is_byte_alpha bottom_a bottom_a_byte) as (HB & _ & HB1 & _).
  fold ta in HA, HC, HA1, HAC. fold ba in HB, HB1.
  destruct (is_byte_sv tc Htc) as (T & ET & RT).
  destruct (is_byte_sv bc Hbc) as (Bc & EB & RB).
  apply is_byte_inv in Htc as [Ntc _]. apply is_byte_inv in Hbc as [Nbc _].
  unfold Spec.over_channel.
  set (C := sub (of_Z 1) ta) in *.
  destruct (mul_nonneg tc ta (-52) (-45) (-60) (-52)) as (HX & UX & _); try assumption; try lia.
  destruct (mul_nonneg bc ba (-52) (-45) (-60) (-52)) as (HY' & UY' & _); try assumption; try lia.
  destruct (mul_nonneg (mul bc ba) C _ _ (-60) (-52) HY' HC) as (HY & UY & _); try lia.
  destruct (add_nonneg _ _ _ _ _ _ HX HY) as (HS & US & _); try lia.
  destruct (div_nonneg _ _ _ _ _ _ HS NR) as (HQ & UQ); try lia.
  apply (round_small _ _ _ HQ); [lia|].
  rewrite ET in UX. rewrite EB in UY'.
  apply (over_bound T Bc (sv ta) (sv ba) (sv C) (sv ra)
           (sv (mul tc ta)) (sv (mul bc ba)) (sv (mul (mul bc ba) C))
           (sv (add (mul tc ta) (mul (mul bc ba) C))) _ (2 ^ 52) (2 ^ 200));
    try apply sv_nonneg; try assumption; try lia.
Qed.

(** So is its alpha. *)
Lemma over_alpha_byte : is_byte (round (mul ra (of_Z 255))) = true.
Proof using top_a_byte bottom_a_byte ra_not_zero.
  destruct ra_facts as (NR & PR & _).
  destruct (is_byte_alpha top_a top_a_byte) as (HA & HC & HA1 & HAC).
  destruct (is_byte_alpha bottom_a bottom_a_byte) as (HB & _ & HB1 & _).
  fold ta in HA, HC, HA1, HAC. fold ba in HB, HB1.
  set (C := sub (of_Z 1) ta) in *.
  destruct (mul_nonneg ba C (-60) (-52) (-60) (-52)) as (HBC & U1 & _); try assumption; try lia.
  destruct (add_nonneg ta (mul ba C) _ _ _ _ HA HBC) as (HR & U2 & _); try lia.
  fold ra in HR, U2.
  assert (H255 : is_nonneg (-45) (-45) (of_Z 255) = true) by reflexivity.
  destruct (mul_nonneg ra (of_Z 255) _ _ _ _ HR H255) as (HQ & UQ & _); try lia.
  apply (round_small _ _ _ HQ); [lia|].
  change (sv (of_Z 255)) with (255 * 2 ^ 200) in UQ.
  apply (alpha_result_bound (sv ta) (sv ba) (sv C) (sv (mul ba C)) (sv ra) _ (2 ^ 52) (2 ^ 200));
    try apply sv_nonneg; try assumption; try lia.
  split; [apply sv_nonneg | assumption].
Qed.

End Over.

(** The constructor keeps channels that are integers of [0, 255]. *)
Lemma constructor_bytes r g b a :
  is_byte r = true -> is_byte g = true -> is_byte b = true -> is_byte a = true ->
  Color.constructor r g b a = Return (Color.Build r g b a).
Proof.
  intros Hr Hg Hb Ha.
  apply is_byte_facts in Hr as (Nr & Rr & _), Hg as (Ng & Rg & _).
  apply is_byte_facts in Hb as (Nb & Rb & _), Ha as (Na & Ra & _).
  unfold Color.constructor. rewrite Nr, Ng, Nb, Na, Rr, Rg, Rb, Ra. reflexivity.
Qed.

Lemma byte_color_inv c :
  byte_color c = true ->
  is_byte (Color.r c) = true /\ is_byte (Color.g c) = true /\
  is_byte (Color.b c) = true /\ is_byte (Color.a c) = true.
Proof.
  unfold byte_color. intros H.
  apply andb_prop in H as [H H4]. apply andb_prop in H as [H H3].
  apply andb_prop in H as [H1 H2]. auto.
Qed.

(** C1. [Color.composite] is the Porter-Duff "over" operator of the
    specification: with [ta = top.a / 255], [ba = bottom.a / 255] and
    [ra = ta + ba * (1 - ta)], the result is exactly (0, 0, 0, 0) when
    [ra == 0]; otherwise it is built by the Color constructor from
    [round ((top.c * ta + bottom.c * ba * (1 - ta)) / ra)] for each of r, g,
    b and from [round (ra * 255)] for the alpha. For colours whose channels
    are integers of [0, 255] the constructor changes nothing: the channels
    of the result are these rounded values themselves, again integers of
    [0, 255]. Semi-transparent red (255, 0, 0, 128) over opaque blue
    (0, 0, 255, 255) is exactly (128, 0, 127, 255). *)
Theorem composite_is_porter_duff_over :
  (forall top bottom : Color.t,
      Color.composite top bottom = Spec.porter_duff_over top bottom) /\
  (forall top bottom : Color.t,
      byte_color top = true -> byte_color bottom = true ->
      let ta := div (Color.a top) (of_Z 255) in
      let ba := div (Color.a bottom) (of_Z 255) in
      let ra := add ta (mul ba (sub (of_Z 1) ta)) in
      let result :=
        if strict_eq ra (of_Z 0) then Color.Build (of_Z 0) (of_Z 0) (of_Z 0) (of_Z 0)
        else Color.Build (Spec.over_channel (Color.r top) (Color.r bottom) ta ba ra)
                         (Spec.over_channel (Color.g top) (Color.g bottom) ta ba ra)
                         (Spec.over_channel (Color.b top) (Color.b bottom) ta ba ra)
                         (round (mul ra (of_Z 255))) in
      Color.composite top bottom = Return result /\ byte_color result = true) /\
  bind (Color.constructor (of_Z 255) (of_Z 0) (of_Z 0) (of_Z 128)) (fun top =>
  bind (Color.constructor (of_Z 0) (of_Z 0) (of_Z 255) (of_Z 255)) (fun bottom =>
    Color.composite top bottom))
  = Return (Color.Build (of_Z 128) (of_Z 0) (of_Z 127) (of_Z 255)).
Proof.
  split_and!.
  - intros top bottom.
    unfold Color.composite, Spec.porter_duff_over, Spec.over_channel.
    destruct (strict_eq _ _); [apply constructor_zero | reflexivity].
  - intros top bottom Ht Hb ta ba ra result.
    apply byte_color_inv in Ht as (Tr & Tg & Tb & Ta).
    apply byte_color_inv in Hb as (Br & Bg & Bb & Ba).
    unfold Color.composite. fold ta ba ra.
    fold (Spec.over_channel (Color.r top) (Color.r bottom) ta ba ra).
    fold (Spec.over_channel (Color.g top) (Color.g bottom) ta ba ra).
    fold (Spec.over_channel (Color.b top) (Color.b bottom) ta ba ra).
    subst result. destruct (strict_eq ra (of_Z 0)) eqn:E.
    + split; reflexivity.
    + pose proof (over_channel_byte _ _ Ta Ba E _ _ Tr Br) as Hr.
      pose proof (over_channel_byte _ _ Ta Ba E _ _ Tg Bg) as Hg.
      pose proof (over_channel_byte _ _ Ta Ba E _ _ Tb Bb) as Hb.
      pose proof (over_alpha_byte _ _ Ta Ba E) as Ha.
      fold ta ba ra in Hr, Hg, Hb, Ha.
      cbv zeta. split; [apply constructor_bytes; assumption|].
      unfold byte_color.
      cbn [Color.r Color.g Color.b Color.a Color._r Color._g Color._b Color._a].
      rewrite Hr, Hg, Hb, Ha. reflexivity.
  - vm_compute. reflexivity.
Qed.

(** Red (255, 0, 0, 128) and blue (0, 0, 255, 255) have integer channels of
    [0, 255], and red over blue is (128, 0, 127, 255). *)
Lemma composite_red_over_blue :
  let top := Color.Build (of_Z 255) (of_Z 0) (of_Z 0) (of_Z 128) in
  let bottom := Color.Build (of_Z 0) (of_Z 0) (of_Z 255) (of_Z 255) in
  byte_color top = true /\ byte_color bottom = true /\
  Color.composite top bottom
  = Return (Color.Build (of_Z 128) (of_Z 0) (of_Z 127) (of_Z 255)).
Proof.
  intros top bottom.
  split; [reflexivity|]. split; [reflexivity|].
  exact (proj1 (proj1 (proj2 composite_is_porter_duff_over) top bottom eq_refl eq_refl)).
Defined.

(** ** Hexadecimal colours *)

Section FromHexFacts.

Lemma substring_all s : String.substring 0 (String.length s) s = s.
Proof. induction s as [|c s IH]; simpl; [reflexivity | now rewrite IH]. Qed.

Lemma strip_leading_hash s :
  (if startsWith s "#" then slice_from s 1 else s) = Spec.strip_hash s.
Proof.
  unfold startsWith, slice_from. destruct s as [|c s]; [reflexivity|].
  simpl String.prefix. destruct (ascii_dec "#" c) as [<-|Hc].
  - simpl. rewrite Nat.sub_0_r, substring_all. now destruct s.
  - unfold Spec.strip_hash.
    destruct c as [[] [] [] [] [] [] [] []]; try reflexivity. now destruct Hc.
Qed.

(** Any length other than 3, 6 and 8 (the [#] put aside) is refused. *)
Lemma fromHex_throws_on_length s :
  let n := String.length (Spec.strip_hash s) in
  n <> 3%nat -> n <> 6%nat -> n <> 8%nat ->
  Color.fromHex s = Throw (mkError ("Invalid hex color: " ++ Spec.strip_hash s)).
Proof.
  intros n H3 H6 H8. unfold Color.fromHex. rewrite strip_leading_hash.
  cbv zeta. fold n.
  apply Nat.eqb_neq in H3, H6, H8.
  rewrite H3. cbv iota. fold n. rewrite H6. cbv iota. fold n. rewrite H8.
  reflexivity.
Qed.

Lemma elem_of_all_ascii c : In c Spec.all_ascii.
Proof.
  unfold Spec.all_ascii. rewrite <- (ascii_nat_embedding c).
  apply in_map, in_seq. pose proof (nat_ascii_bounded c). lia.
Qed.

Lemma reads_two_digits_all :
  forallb (fun c1 => forallb (Spec.reads_two_digits c1) Spec.all_ascii) Spec.all_ascii = true.
Proof. vm_compute. reflexivity. Qed.

Lemma parseInt16_two_digits c1 c2 d1 d2 :
  hex_digit c1 = Some d1 -> hex_digit c2 = Some d2 ->
  let n := parseInt16 (String c1 (String c2 EmptyString)) in
  is_binary64 n = true /\ to_Z n = Some (16 * d1 + d2).
Proof.
  intros H1 H2.
  pose proof reads_two_digits_all as H.
  rewrite forallb_forall in H. specialize (H c1 (elem_of_all_ascii c1)).
  rewrite forallb_forall in H. specialize (H c2 (elem_of_all_ascii c2)).
  unfold Spec.reads_two_digits in H. rewrite H1, H2 in H.
  apply andb_prop in H as [Hv Hz]. apply bool_decide_eq_true in Hz. auto.
Qed.

Lemma hex_digit_range c d : hex_digit c = Some d -> 0 <= d <= 15.
Proof.
  unfold hex_digit. set (n := Z.of_nat (nat_of_ascii c)).
  repeat match goal with
         | |- context [if ?b then _ else _] => destruct b eqn:?
         end; intros [= <-]; lia.
Qed.

Lemma all_hex_cons c s :
  Spec.all_hex (String c s) = true ->
  (exists d, hex_digit c = Some d) /\ Spec.all_hex s = true.
Proof.
  simpl. intros H. apply andb_prop in H as [H1 H2].
  apply bool_decide_eq_true in H1. destruct H1 as [d H1]. eauto.
Qed.

(** Four pairs of hexadecimal digits make a colour, each channel being
    the value of its pair. *)
Lemma constructor_of_hex_pairs c1 c2 c3 c4 c5 c6 c7 c8 d1 d2 d3 d4 d5 d6 d7 d8 :
  hex_digit c1 = Some d1 -> hex_digit c2 = Some d2 ->
  hex_digit c3 = Some d3 -> hex_digit c4 = Some d4 ->
  hex_digit c5 = Some d5 -> hex_digit c6 = Some d6 ->
  hex_digit c7 = Some d7 -> hex_digit c8 = Some d8 ->
  exists c,
    Color.constructor (parseInt16 (String c1 (String c2 EmptyString)))
                      (parseInt16 (String c3 (String c4 EmptyString)))
                      (parseInt16 (String c5 (String c6 EmptyString)))
                      (parseInt16 (String c7 (String c8 EmptyString))) = Return c /\
    to_Z (Color.r c) = Some (16 * d1 + d2) /\
    to_Z (Color.g c) = Some (16 * d3 + d4) /\
    to_Z (Color.b c) = Some (16 * d5 + d6) /\
    to_Z (Color.a c) = Some (16 * d7 + d8).
Proof.
  intros H1 H2 H3 H4 H5 H6 H7 H8.
  destruct (parseInt16_two_digits _ _ _ _ H1 H2) as [Vr Zr].
  destruct (parseInt16_two_digits _ _ _ _ H3 H4) as [Vg Zg].
  destruct (parseInt16_two_digits _ _ _ _ H5 H6) as [Vb Zb].
  destruct (parseInt16_two_digits _ _ _ _ H7 H8) as [Va Za].
  destruct (constructor_integer_channels _ _ _ _ _ _ _ _ Vr Vg Vb Va Zr Zg Zb Za)
    as (c & Hc & Hr & Hg & Hb & Ha).
  apply hex_digit_range in H1, H2, H3, H4, H5, H6, H7, H8.
  exists c. split; [assumption|].
  rewrite Hr, Hg, Hb, Ha.
  rewrite !Z.rem_small by lia. auto.
Qed.

(** A well-formed hexadecimal colour is accepted. *)
Lemma fromHex_returns_on_well_formed s :
  Spec.well_formed_hex s = true -> exists c, Color.fromHex s = Return c.
Proof.
  unfold Spec.well_formed_hex, Color.fromHex. rewrite strip_leading_hash.
  intros H. apply andb_prop in H as [Hlen Hhex].
  assert (HF : hex_digit "F" = Some 15) by reflexivity.
  destruct (Spec.strip_hash s) as [|c1 [|c2 [|c3 [|c4 [|c5 [|c6 [|c7 [|c8 [|c9 d]]]]]]]]];
    try discriminate Hlen.
  - (* three digits, each doubled *)
    apply all_hex_cons in Hhex as [[d1 H1] Hhex].
    apply all_hex_cons in Hhex as [[d2 H2] Hhex].
    apply all_hex_cons in Hhex as [[d3 H3] _].
    destruct (constructor_of_hex_pairs _ _ _ _ _ _ _ _ _ _ _ _ _ _ _ _
                H1 H1 H2 H2 H3 H3 HF HF) as (c & Hc & _).
    exists c. exact Hc.
  - (* six digits, the alpha is FF *)
    apply all_hex_cons in Hhex as [[d1 H1] Hhex].
    apply all_hex_cons in Hhex as [[d2 H2] Hhex].
    apply all_hex_cons in Hhex as [[d3 H3] Hhex].
    apply all_hex_cons in Hhex as [[d4 H4] Hhex].
    apply all_hex_cons in Hhex as [[d5 H5] Hhex].
    apply all_hex_cons in Hhex as [[d6 H6] _].
    destruct (constructor_of_hex_pairs _ _ _ _ _ _ _ _ _ _ _ _ _ _ _ _
                H1 H2 H3 H4 H5 H6 HF HF) as (c & Hc & _).
    exists c. exact Hc.
  - (* eight digits *)
    apply all_hex_cons in Hhex as [[d1 H1] Hhex].
    apply all_hex_cons in Hhex as [[d2 H2] Hhex].
    apply all_hex_cons in Hhex as [[d3 H3] Hhex].
    apply all_hex_cons in Hhex as [[d4 H4] Hhex].
    apply all_hex_cons in Hhex as [[d5 H5] Hhex].
    apply all_hex_cons in Hhex as [[d6 H6] Hhex].
    apply all_hex_cons in Hhex as [[d7 H7] Hhex].
    apply all_hex_cons in Hhex as [[d8 H8] _].
    destruct (constructor_of_hex_pairs _ _ _ _ _ _ _ _ _ _ _ _ _ _ _ _
                H1 H2 H3 H4 H5 H6 H7 H8) as (c & Hc & _).
    exists c. exact Hc.
Qed.

(** The strings the specification lists as refused are refused. *)
Lemma fromHex_refused_examples :
  throws (Color.fromHex "#XYZ") = true /\
  throws (Color.fromHex "#12345") = true /\
  throws (Color.fromHex "") = true /\
  throws (Color.fromHex "#1234567") = true.
Proof. repeat split. Qed.

End FromHexFacts.

(** C4 (the code at the input where it departs from the claim). The string
    [#1G2G3G] has six characters after the [#], three of which are not
    hexadecimal digits; [fromHex] does not refuse it but returns the colour
    (1, 2, 3, 255), each pair being read up to its first character that is
    not a digit. *)
Theorem fromHex_accepts_non_hex_digits :
  Spec.well_formed_hex "#1G2G3G" = false /\
  Color.fromHex "#1G2G3G"
  = Return (Color.Build (of_Z 1) (of_Z 2) (of_Z 3) (of_Z 255)).
Proof. split; reflexivity. Qed.


(** ** The row-major traversal *)

Lemma pixel_at_index W x y :
  0 <= x < W -> Spec.pixel_at W (y * W + x) = Pixel.Build x y.
Proof.
  intros Hx. unfold Spec.pixel_at. f_equal.
  - rewrite Z.add_comm, Z.mod_add by lia. apply Z.mod_small. lia.
  - rewrite Z.add_comm, Z.div_add by lia. rewrite Z.div_small by lia. lia.
Qed.

Section Traversal.
Variables width height : Z.

(** A width or height below 1 is walked like 1: the pixel (0, 0) is
    always visited. *)
Let We : Z := Z.max 1 width.
Let He : Z := Z.max 1 height.

Lemma pixel_at_coordinates i :
  0 <= i < We * He ->
  let p := Spec.pixel_at We i in
  0 <= Pixel.x p < We /\ 0 <= Pixel.y p < He /\ i = Pixel.y p * We + Pixel.x p.
Proof.
  intros Hi. cbn. assert (HW : 0 < We) by (unfold We; lia).
  pose proof (Z.mod_pos_bound i We HW).
  pose proof (Z.div_mod i We ltac:(lia)).
  assert (0 <= i / We) by (apply Z.div_pos; lia).
  assert (i / We < He) by (apply Z.div_lt_upper_bound; lia).
  lia.
Qed.

(** One step of the traversal moves to the next position of the
    row-major order, and stops after the last one. *)
Lemma nextPixel_pixel_at i :
  0 <= i < We * He ->
  Pixel.nextPixel (Spec.pixel_at We i) width height
  = if i + 1 <? We * He then Some (Spec.pixel_at We (i + 1)) else None.
Proof.
  intros Hi. destruct (pixel_at_coordinates i Hi) as (Hx & Hy & Hxy).
  destruct (Spec.pixel_at We i) as [x y] eqn:Ep. cbn in Hx, Hy, Hxy.
  unfold Pixel.nextPixel. cbn [Pixel.x Pixel.y].
  destruct (Z.geb_spec (x + 1) width) as [Hge|Hlt].
  - assert (x = We - 1) by (unfold We in *; lia). subst x.
    destruct (Z.geb_spec (y + 1) height) as [Hge'|Hlt'].
    + destruct (Z.ltb_spec (i + 1) (We * He)) as [Hc|]; [|reflexivity].
      exfalso. assert (y = He - 1) by (unfold He in *; lia). nia.
    + assert (He = height) by (unfold He; lia).
      destruct (Z.ltb_spec (i + 1) (We * He)) as [|Hc]; [|exfalso; nia].
      replace (i + 1) with ((y + 1) * We + 0) by lia.
      rewrite pixel_at_index by lia. reflexivity.
  - assert (We = width) by (unfold We; lia).
    destruct (Z.ltb_spec (i + 1) (We * He)) as [|Hc]; [|exfalso; nia].
    replace (i + 1) with (y * We + (x + 1)) by lia.
    rewrite pixel_at_index by lia. reflexivity.
Qed.


Lemma for_of_done {T : Type} fuel (body : Pixel.t -> T -> T) s :
  Image.for_of (S fuel) (Image.mkIterator None width height) body s = Some s.
Proof. reflexivity. Qed.

(** A [for ... of] loop with enough fuel runs its body on the positions
    in order, and ends. *)
Lemma for_of_from {T : Type} (body : Pixel.t -> T -> T) (n : nat) :
  forall (i : Z) (fuel : nat) (s : T),
    0 <= i -> i + Z.of_nat (S n) = We * He -> (S (S n) <= fuel)%nat ->
    Image.for_of fuel (Image.mkIterator (Some (Spec.pixel_at We i)) width height) body s
    = Some (foldl (fun s p => body p s) s (Spec.pixel_at We <$> seqZ i (Z.of_nat (S n)))).
Proof.
  induction n as [|n IH]; intros i fuel s Hi Hn Hfuel;
    (destruct fuel as [|fuel]; [lia|]); cbn [Image.for_of Image.next Image.nextEl
      Image.it_width Image.it_height mbind option_bind];
    rewrite nextPixel_pixel_at by lia.
  - destruct (Z.ltb_spec (i + 1) (We * He)); [lia|].
    destruct fuel as [|fuel]; [lia|]. rewrite for_of_done.
    rewrite seqZ_cons, seqZ_nil by lia. reflexivity.
  - destruct (Z.ltb_spec (i + 1) (We * He)); [|lia].
    rewrite (IH (i + 1) fuel) by lia.
    rewrite (seqZ_cons i) by lia. cbn.
    replace (Z.succ i) with (i + 1) by lia.
    replace (Z.pred (Z.of_nat (S (S n))))
      with (Z.of_nat (S n)) by lia.
    reflexivity.
Qed.

Lemma cells_positive : 0 < We * He.
Proof. unfold We, He. nia. Qed.

Lemma enough_cells : Image.enough width height = S (Z.to_nat (We * He)).
Proof. reflexivity. Qed.


Lemma for_of_all {T : Type} (body : Pixel.t -> T -> T) (this : Image.t) fuel s :
  Image.width this = width -> Image.height this = height ->
  (Image.enough width height <= fuel)%nat ->
  Image.for_of fuel (Image.iterator this) body s
  = Some (foldl (fun s p => body p s) s (Spec.pixel_at We <$> seqZ 0 (We * He))).
Proof.
  intros Hw Hh Hfuel. rewrite enough_cells in Hfuel. pose proof cells_positive as Hc.
  unfold Image.iterator. rewrite Hw, Hh.
  destruct (Z.to_nat (We * He)) as [|n] eqn:En; [lia|].
  replace (We * He) with (Z.of_nat (S n)) at 1 by lia.
  change (Pixel.Build 0 0) with (Spec.pixel_at We 0).
  apply for_of_from; lia.
Qed.

End Traversal.


Section RowMajor.
Variables width height : Z.
Hypothesis Hwidth : 1 <= width.
Hypothesis Hheight : 0 <= height.

#[local] Instance pixel_at_inj : Inj (=) (=) (Spec.pixel_at width).
Proof.
  intros i j [= Hm Hd].
  rewrite (Z.div_mod i width), (Z.div_mod j width) by lia. congruence.
Qed.

Lemma row_positions y :
  Spec.row width y = Spec.pixel_at width <$> seqZ (y * width) width.
Proof.
  unfold Spec.row. rewrite <- (Z.add_0_r (y * width)), <- fmap_add_seqZ.
  rewrite <- list_fmap_compose. apply list_fmap_ext.
  intros i x Hx. apply lookup_seqZ in Hx as [-> Hi]. cbn.
  rewrite pixel_at_index by lia. reflexivity.
Qed.

(** The rows one after the other are the positions [0 .. width * height - 1]
    in increasing order, the position [i] being the pixel
    [(i mod width, i / width)]. *)
Lemma row_major_positions :
  Spec.row_major width height = Spec.pixel_at width <$> seqZ 0 (width * height).
Proof.
  unfold Spec.row_major.
  rewrite <- (Z2Nat.id height) by lia.
  induction (Z.to_nat height) as [|n IH].
  - rewrite Z.mul_0_r. reflexivity.
  - rewrite seqZ_S, bind_app, IH. cbn [mbind list_bind]. rewrite app_nil_r.
    replace (width * Z.of_nat (S n)) with (width * Z.of_nat n + width) by lia.
    rewrite seqZ_app, fmap_app by lia. f_equal.
    rewrite row_positions. do 2 f_equal; lia.
Qed.




Lemma row_major_elem_of p :
  p ∈ Spec.row_major width height <-> Spec.in_bounds width height p.
Proof.
  rewrite row_major_positions, list_elem_of_fmap. unfold Spec.in_bounds. split.
  - intros (i & -> & Hi). apply elem_of_seqZ in Hi. cbn.
    pose proof (Z.mod_pos_bound i width ltac:(lia)).
    assert (0 <= i / width) by (apply Z.div_pos; lia).
    assert (i / width < height) by (apply Z.div_lt_upper_bound; lia). lia.
  - intros [Hx Hy]. exists (Pixel.y p * width + Pixel.x p). split.
    + rewrite pixel_at_index by lia. now destruct p.
    + apply elem_of_seqZ. nia.
Qed.



End RowMajor.

Section Iteration.


Lemma foldl_push (f : Pixel.t -> Color.t) (l : list Pixel.t) (this : Image.t) :
  foldl (fun this pixel =>
           Image.Build (Image.width this) (Image.height this)
                       (push (Image.pixels this) (f pixel))) this l
  = Image.Build (Image.width this) (Image.height this)
      (mkArray (slots (Image.pixels this) ++ (Some ∘ f <$> l))
               (props (Image.pixels this))).
Proof.
  revert this. induction l as [|p l IH]; intros [w h [sl pr]]; cbn.
  - now rewrite app_nil_r.
  - rewrite IH. cbn. rewrite <- app_assoc. reflexivity.
Qed.


(** What [new Image(width, height, colorCalculator)] builds. *)
Lemma constructor_pixels width height colorCalculator fuel :
  (Image.enough width height <= fuel)%nat ->
  Image.constructor fuel width height colorCalculator
  = Some (Image.Build width height
            (mkArray (Some ∘ default (fun _ => Colors.White) colorCalculator
                        <$> (Spec.pixel_at (Z.max 1 width)
                               <$> seqZ 0 (Z.max 1 width * Z.max 1 height)))
                     ∅)).
Proof.
  intros Hfuel. unfold Image.constructor.
  rewrite (for_of_all width height) by auto.
  rewrite foldl_push. reflexivity.
Qed.

End Iteration.




(** ** Sums and products of safe integers *)

Section ExactArithmetic.

Lemma shr_1_double m :
  0 < m ->
  shr_1 {| shr_m := 2 * m; shr_r := false; shr_s := false |}
  = {| shr_m := m; shr_r := false; shr_s := false |}.
Proof. destruct m as [|p|p]; intros Hm; try lia. reflexivity. Qed.


(** Shifting out bits that are all zero loses nothing. *)
Lemma iter_shr_1_exact k : forall q,
  0 < q ->
  SpecFloat.iter_pos shr_1 k {| shr_m := q * 2 ^ Zpos k; shr_r := false; shr_s := false |}
  = {| shr_m := q; shr_r := false; shr_s := false |}.
Proof.
  induction k as [k IH|k IH|]; intros q Hq; cbn [SpecFloat.iter_pos].
  - assert (Hp : 0 < 2 ^ Zpos k) by (apply Z.pow_pos_nonneg; lia).
    replace (q * 2 ^ Zpos k~1) with (2 * (q * 2 ^ Zpos k * 2 ^ Zpos k)).
    2:{ replace (Zpos k~1) with (Zpos k + Zpos k + 1) by lia.
        rewrite !Z.pow_add_r by lia. ring. }
    rewrite shr_1_double by nia. rewrite IH by nia. apply IH. exact Hq.
  - assert (Hp : 0 < 2 ^ Zpos k) by (apply Z.pow_pos_nonneg; lia).
    replace (q * 2 ^ Zpos k~0) with (q * 2 ^ Zpos k * 2 ^ Zpos k).
    2:{ replace (Zpos k~0) with (Zpos k + Zpos k) by lia.
        rewrite !Z.pow_add_r by lia. ring. }
    rewrite IH by nia. apply IH. exact Hq.
  - replace (q * 2 ^ 1) with (2 * q) by lia. apply shr_1_double. exact Hq.
Qed.

(** The number of a positive integer below 2^53: its digits, moved to the
    top of the 53 bits of the mantissa. *)
Lemma binary_round_below_2_53 s q :
  Zpos q < 2 ^ 53 ->
  let d := Zpos (digits2_pos q) in
  exists m, binary_round prec emax s q 0 = S754_finite s m (d - 53) /\
            Zpos m = Zpos q * 2 ^ (53 - d) /\ Zpos (digits2_pos m) = 53 /\ 1 <= d <= 53.
Proof.
  intros Hq d.
  assert (Hd : 1 <= d <= 53).
  { unfold d. split; [pose proof (Pos2Z.is_pos (digits2_pos q)); lia|].
    apply digits2_pos_le; lia. }
  destruct (binary_round_exact s q 0) as (m & E & Hm & Hdm); [fold d; lia.. |].
  exists m. fold d in E, Hm. replace (d - 53) with (0 + d - 53) by lia. auto.
Qed.

(** A mantissa that is an integer below 2^53 followed by zero bits rounds
    to the number of that integer. *)
Lemma binary_round_aux_exact s q M K :
  Zpos q < 2 ^ 53 -> 0 <= K -> Zpos M = Zpos q * 2 ^ K ->
  53 <= Zpos (digits2_pos q) + K ->
  binary_round_aux prec emax s (Zpos M) (- K) loc_Exact = binary_round prec emax s q 0.
Proof.
  intros Hq HK HM Hbig.
  destruct (binary_round_below_2_53 s q Hq) as (m & -> & Hm & Hdm & Hd).
  set (d := Zpos (digits2_pos q)) in *.
  assert (HdM : Zpos (digits2_pos M) = d + K).
  { apply digits2_pos_eq. rewrite HM.
    destruct (digits2_pos_bounds q) as [Dlo Dhi]. fold d in Dlo, Dhi.
    replace (d + K - 1) with (d - 1 + K) by lia.
    rewrite !Z.pow_add_r by lia. assert (0 < 2 ^ K) by (apply Z.pow_pos_nonneg; lia). nia. }
  assert (Hshr : shr_fexp prec emax (Zpos M) (- K) loc_Exact
                 = ({| shr_m := Zpos m; shr_r := false; shr_s := false |}, d - 53)).
  { unfold shr_fexp, Zdigits2, fexp, emin, prec, emax. rewrite HdM.
    replace (Z.max (d + K + - K - 53) (3 - 1024 - 53) - - K) with (d + K - 53) by lia.
    cbn [shr_record_of_loc]. unfold shr.
    destruct (d + K - 53) as [|j|j] eqn:Ej; try lia.
    - f_equal; [|lia]. f_equal. rewrite HM, Hm. f_equal. f_equal. lia.
    - f_equal; [|lia].
      replace (Zpos M) with (Zpos m * 2 ^ Zpos j).
      + apply iter_shr_1_exact. lia.
      + rewrite HM, Hm, <- Z.mul_assoc, <- Z.pow_add_r by lia. do 2 f_equal. lia. }
  unfold binary_round_aux. rewrite Hshr.
  cbn [shr_m loc_of_shr_record round_nearest_even].
  rewrite (shr_fexp_full m _ Hdm) by lia. cbn [shr_m].
  unfold prec, emax.
  destruct (Z.leb_spec (d - 53) (1024 - 53)); [reflexivity | lia].
Qed.

Lemma binary_round_from_exact s q M K :
  Zpos q < 2 ^ 53 -> 0 <= K -> Zpos M = Zpos q * 2 ^ K ->
  binary_round prec emax s M (- K) = binary_round prec emax s q 0.
Proof.
  intros Hq HK HM.
  destruct (binary_round_below_2_53 s q Hq) as (m & Eq & Hm & Hdm & Hd).
  set (d := Zpos (digits2_pos q)) in *.
  assert (HdM : Zpos (digits2_pos M) = d + K).
  { apply digits2_pos_eq. rewrite HM.
    destruct (digits2_pos_bounds q) as [Dlo Dhi]. fold d in Dlo, Dhi.
    replace (d + K - 1) with (d - 1 + K) by lia.
    rewrite !Z.pow_add_r by lia. assert (0 < 2 ^ K) by (apply Z.pow_pos_nonneg; lia). nia. }
  destruct (Z_le_gt_dec 53 (d + K)) as [Hbig|Hsmall].
  - rewrite <- (binary_round_aux_exact s q M K) by (try assumption; fold d; lia).
    unfold binary_round. rewrite HdM.
    unfold fexp, emin, prec, emax, shl_align.
    replace (Z.max (d + K + - K - 53) (3 - 1024 - 53) - - K) with (d + K - 53) by lia.
    destruct (d + K - 53) as [|j|j] eqn:Ej; try lia; reflexivity.
  - rewrite Eq.
    destruct (binary_round_exact s M (- K)) as (m' & -> & Hm' & _); [rewrite HdM; lia.. |].
    rewrite HdM in *. f_equal; [|lia].
    apply Pos2Z.inj. rewrite Hm', Hm, HM, <- Z.mul_assoc, <- Z.pow_add_r by lia.
    do 2 f_equal. lia.
Qed.

(** The number of a safe integer that is not zero. *)
Lemma of_Z_safe z :
  z <> 0 -> Z.abs z < 2 ^ 53 ->
  let d := Zpos (digits2_pos (Z.to_pos (Z.abs z))) in
  exists m, of_Z z = S754_finite (z <? 0) m (d - 53) /\
            Zpos m = Z.abs z * 2 ^ (53 - d) /\ Zpos (digits2_pos m) = 53 /\ 1 <= d <= 53.
Proof.
  intros Hz Hb. destruct z as [|p|p]; [congruence| |]; cbn [Z.abs Z.to_pos Z.ltb Z.compare];
    unfold of_Z; cbn [binary_normalize]; apply binary_round_below_2_53; exact Hb.
Qed.

Lemma of_Z_sign z s :
  z <> 0 -> (z <? 0) = s -> of_Z z = binary_round prec emax s (Z.to_pos (Z.abs z)) 0.
Proof. intros Hz <-. destruct z; [congruence|reflexivity|reflexivity]. Qed.


(** The sum of two safe integers, when a safe integer itself, is computed
    without rounding. *)
Lemma add_exact a b :
  Z.abs a < 2 ^ 53 -> Z.abs b < 2 ^ 53 -> Z.abs (a + b) < 2 ^ 53 ->
  add (of_Z a) (of_Z b) = of_Z (a + b).
Proof.
  intros Ha Hb Hab.
  destruct (Z.eq_dec a 0) as [->|Na].
  { rewrite Z.add_0_l. change (of_Z 0) with (S754_zero false).
    destruct (Z.eq_dec b 0) as [->|Nb]; [reflexivity|].
    destruct (of_Z_safe b Nb Hb) as (m & -> & _). reflexivity. }
  destruct (Z.eq_dec b 0) as [->|Nb].
  { rewrite Z.add_0_r. change (of_Z 0) with (S754_zero false).
    destruct (of_Z_safe a Na Ha) as (m & E & _). rewrite E. reflexivity. }
  destruct (of_Z_safe a Na Ha) as (ma & -> & Hma & Hdma & Hda).
  destruct (of_Z_safe b Nb Hb) as (mb & -> & Hmb & Hdmb & Hdb).
  set (da := Zpos (digits2_pos (Z.to_pos (Z.abs a)))) in *.
  set (db := Zpos (digits2_pos (Z.to_pos (Z.abs b)))) in *.
  unfold add, SFadd. set (ez := Z.min (da - 53) (db - 53)).
  rewrite !shl_align_val by (unfold ez; lia).
  assert (HA : cond_Zopp (a <? 0) (Zpos ma * 2 ^ (da - 53 - ez)) = a * 2 ^ (- ez)).
  { rewrite Hma, <- Z.mul_assoc, <- Z.pow_add_r by (unfold ez; lia).
    replace (53 - da + (da - 53 - ez)) with (- ez) by lia.
    destruct (Z.ltb_spec a 0); cbn [cond_Zopp]; [rewrite Z.abs_neq by lia|rewrite Z.abs_eq by lia];
      ring. }
  assert (HB : cond_Zopp (b <? 0) (Zpos mb * 2 ^ (db - 53 - ez)) = b * 2 ^ (- ez)).
  { rewrite Hmb, <- Z.mul_assoc, <- Z.pow_add_r by (unfold ez; lia).
    replace (53 - db + (db - 53 - ez)) with (- ez) by lia.
    destruct (Z.ltb_spec b 0); cbn [cond_Zopp]; [rewrite Z.abs_neq by lia|rewrite Z.abs_eq by lia];
      ring. }
  rewrite HA, HB, <- Z.mul_add_distr_r.
  assert (Hp : 0 < 2 ^ (- ez)) by (apply Z.pow_pos_nonneg; unfold ez; lia).
  destruct (Z.eq_dec (a + b) 0) as [->|Nab]; [reflexivity|].
  replace ez with (- (- ez)) at 2 by lia.
  destruct ((a + b) * 2 ^ (- ez)) as [|M|M] eqn:EM; [nia| |].
  - cbn [binary_normalize].
    rewrite (of_Z_sign (a + b) false Nab) by (destruct (Z.ltb_spec (a + b) 0); [nia|reflexivity]).
    apply binary_round_from_exact; [rewrite Z2Pos.id by lia; exact Hab | unfold ez; lia |].
    rewrite Z2Pos.id by lia. rewrite Z.abs_eq by nia. lia.
  - cbn [binary_normalize].
    rewrite (of_Z_sign (a + b) true Nab) by (destruct (Z.ltb_spec (a + b) 0); [reflexivity|nia]).
    apply binary_round_from_exact; [rewrite Z2Pos.id by lia; exact Hab | unfold ez; lia |].
    rewrite Z2Pos.id by lia. rewrite Z.abs_neq by nia. lia.
Qed.


(** The sum [z + 1] of numbers is the integer [z + 1] as long as this is
    at most 2^53. *)
Lemma add_one_exact z :
  0 <= z < 2 ^ 53 -> add (of_Z z) (of_Z 1) = of_Z (z + 1).
Proof.
  intros Hz. destruct (Z.eq_dec z (2 ^ 53 - 1)) as [->|NE]; [vm_compute; reflexivity|].
  apply add_exact; lia.
Qed.


End ExactArithmetic.

(** ** Arrays *)

Section ArrayFacts.
Context {A : Type}.
Implicit Types (arr : Array A) (i j : Z) (v : A).

Lemma array_length_nonneg arr : 0 <= array_length arr.
Proof. unfold array_length. lia. Qed.

Lemma array_get_element arr i :
  0 <= i < array_length arr -> array_get arr i = mjoin (slots arr !! Z.to_nat i).
Proof.
  intros Hi. unfold array_get.
  destruct (Z.leb_spec 0 i); [|lia].
  destruct (Z.ltb_spec i (array_length arr)); [reflexivity | lia].
Qed.


(** The other keys are those of plain properties. *)
Lemma array_get_property arr i :
  i < 0 \/ (2 ^ 32 - 1 <= i /\ array_length arr <= i) ->
  array_get arr i = props arr !! i.
Proof.
  intros Hi. unfold array_get, is_array_index.
  destruct (Z.leb_spec 0 i); [|reflexivity].
  destruct (Z.ltb_spec i (array_length arr)); [lia|].
  destruct (Z.ltb_spec i (2 ^ 32 - 1)); [lia | reflexivity].
Qed.


(** The three cases of [arr[i] = v]. *)
Lemma array_set_cases arr i v :
  (0 <= i < array_length arr /\
   array_set arr i v = mkArray (<[Z.to_nat i := Some v]> (slots arr)) (props arr)) \/
  (array_length arr <= i < 2 ^ 32 - 1 /\
   array_set arr i v
   = mkArray (slots arr ++ replicate (Z.to_nat (i - array_length arr)) None ++ [Some v])
             (props arr)) \/
  ((i < 0 \/ (2 ^ 32 - 1 <= i /\ array_length arr <= i)) /\
   array_set arr i v = mkArray (slots arr) (<[i := v]> (props arr))).
Proof.
  pose proof (array_length_nonneg arr). unfold array_set, is_array_index.
  destruct (Z.leb_spec 0 i); cbn [andb].
  - destruct (Z.ltb_spec i (array_length arr)); [left; split; [lia | reflexivity]|].
    destruct (Z.ltb_spec i (2 ^ 32 - 1)); [right; left | right; right];
      (split; [lia | reflexivity]).
  - right; right. split; [lia | reflexivity].
Qed.

(** The length after [arr[i] = v]. *)
Lemma array_length_set arr i v :
  array_length (array_set arr i v)
  = if (array_length arr <=? i) && is_array_index i then i + 1 else array_length arr.
Proof.
  pose proof (array_length_nonneg arr) as Hlen. unfold is_array_index.
  destruct (array_set_cases arr i v) as [[Hi ->]|[[Hi ->]|[Hi ->]]].
  - destruct (Z.leb_spec (array_length arr) i); [lia|]. cbn [andb].
    unfold array_length. cbn [slots]. now rewrite length_insert.
  - destruct (Z.leb_spec (array_length arr) i); [|lia].
    destruct (Z.leb_spec 0 i); [|lia].
    destruct (Z.ltb_spec i (2 ^ 32 - 1)); [|lia]. cbn [andb].
    unfold array_length in *. cbn [slots].
    rewrite !length_app, length_replicate. cbn [length]. lia.
  - destruct (Z.leb_spec (array_length arr) i), (Z.leb_spec 0 i),
             (Z.ltb_spec i (2 ^ 32 - 1)); cbn [andb]; try lia; reflexivity.
Qed.

Lemma array_get_set_eq arr i v : array_get (array_set arr i v) i = Some v.
Proof.
  pose proof (array_length_nonneg arr) as Hlen.
  destruct (array_set_cases arr i v) as [[Hi E]|[[Hi E]|[Hi E]]].
  - rewrite array_get_element
      by (rewrite E; unfold array_length in *; cbn; rewrite length_insert; lia).
    rewrite E. cbn [slots]. unfold array_length in Hi.
    rewrite list_lookup_insert_eq by lia. reflexivity.
  - rewrite array_get_element
      by (rewrite E; unfold array_length in *; cbn;
          rewrite !length_app, length_replicate; cbn; lia).
    rewrite E. cbn [slots]. unfold array_length in *.
    rewrite lookup_app_r by lia.
    rewrite lookup_app_r by (rewrite length_replicate; lia).
    rewrite length_replicate.
    replace (Z.to_nat i - length (slots arr)
             - Z.to_nat (i - Z.of_nat (length (slots arr))))%nat with 0%nat by lia.
    reflexivity.
  - rewrite array_get_property by (rewrite E; exact Hi).
    rewrite E. cbn [props]. apply lookup_insert_eq.
Qed.

Lemma array_get_set_ne arr i j v :
  i <> j -> array_get (array_set arr i v) j = array_get arr j.
Proof.
  intros Hij. pose proof (array_length_nonneg arr) as Hlen.
  destruct (array_set_cases arr i v) as [[Hi E]|[[Hi E]|[Hi E]]]; rewrite E;
    unfold array_get, array_length in *; cbn [slots props].
  - rewrite length_insert.
    destruct ((0 <=? j) && (j <? Z.of_nat (length (slots arr)))) eqn:Ej.
    + apply andb_prop in Ej as [Ej1%Z.leb_le Ej2%Z.ltb_lt].
      rewrite list_lookup_insert_ne by lia. reflexivity.
    + reflexivity.
  - rewrite !length_app, length_replicate. cbn [length].
    destruct (Z.leb_spec 0 j); cbn [andb]; [|reflexivity].
    destruct (Z.ltb_spec j (Z.of_nat (length (slots arr)))) as [Hjin|Hjout].
    + destruct (Z.ltb_spec j (Z.of_nat
                  (length (slots arr) + (Z.to_nat (i - Z.of_nat (length (slots arr))) + 1))));
        [|lia].
      rewrite lookup_app_l by lia. reflexivity.
    + destruct (Z.ltb_spec j (Z.of_nat
                  (length (slots arr) + (Z.to_nat (i - Z.of_nat (length (slots arr))) + 1))))
        as [Hlt|Hge].
      * unfold is_array_index.
        destruct (Z.leb_spec 0 j); [|lia].
        destruct (Z.ltb_spec j (2 ^ 32 - 1)); [|lia]. cbn [andb].
        rewrite lookup_app_r by lia.
        rewrite lookup_app_l by (rewrite length_replicate; lia).
        rewrite lookup_replicate_2 by lia. reflexivity.
      * reflexivity.
  - destruct ((0 <=? j) && (j <? Z.of_nat (length (slots arr)))); [reflexivity|].
    destruct (is_array_index j); [reflexivity|]. now apply lookup_insert_ne.
Qed.

End ArrayFacts.

(** ** Images *)

Section ImageFacts.
Implicit Types (this : Image.t) (p q : Pixel.t) (c : Color.t).

Lemma flat_index_inj this p q :
  Spec.in_bounds (Image.width this) (Image.height this) p ->
  Spec.in_bounds (Image.width this) (Image.height this) q ->
  Spec.flat_index this p = Spec.flat_index this q -> p = q.
Proof.
  unfold Spec.in_bounds, Spec.flat_index.
  destruct p as [x y], q as [x' y']; cbn. intros [Hx Hy] [Hx' Hy'] E.
  assert (y = y') by nia. subst y'. f_equal. lia.
Qed.

Lemma flat_index_in_bounds this p :
  Spec.in_bounds (Image.width this) (Image.height this) p ->
  0 <= Spec.flat_index this p < Image.width this * Image.height this.
Proof. unfold Spec.in_bounds, Spec.flat_index. intros [Hx Hy]. nia. Qed.

Lemma updatePixel_length this p c :
  Spec.flat_index this p < array_length (Image.pixels this) ->
  array_length (Image.pixels (Image.updatePixel this p c))
  = array_length (Image.pixels this).
Proof.
  intros Hi. unfold Image.updatePixel. cbn. fold (Spec.flat_index this p).
  rewrite array_length_set.
  destruct (Z.leb_spec (array_length (Image.pixels this)) (Spec.flat_index this p));
    [lia | reflexivity].
Qed.



Lemma checkBounds_message :
  Image.checkBounds (Image.Build 3 2 empty_array) (Pixel.Build 5 10)
  = Throw (mkError "Pixel coordinates (5, 10) are out of bounds for image size 3x2.").
Proof. reflexivity. Qed.


End ImageFacts.









(** C10. [updatePixel] at an in-bounds pixel (x, y) changes the sequence at
    the flat index y * width + x only: every other index reads as before,
    so does every other in-bounds pixel, and the width and the height are
    the same. *)
Theorem updatePixel_frame :
  forall (this : Image.t) (p : Pixel.t) (c : Color.t),
    Spec.in_bounds (Image.width this) (Image.height this) p ->
    let this' := Image.updatePixel this p c in
    Image.width this' = Image.width this /\
    Image.height this' = Image.height this /\
    (forall j, j <> Pixel.y p * Image.width this + Pixel.x p ->
               array_get (Image.pixels this') j = array_get (Image.pixels this) j) /\
    (forall q, Spec.in_bounds (Image.width this) (Image.height this) q -> q <> p ->
               Image.getPixel this' q = Image.getPixel this q) /\
    Image.getPixel this' p = Some c.
Proof.
  intros this p c Hp this'. subst this'. split_and!; try reflexivity.
  - intros j Hj. cbn. apply array_get_set_ne. congruence.
  - intros q Hq Hqp. unfold Image.getPixel. cbn. apply array_get_set_ne.
    intros E. apply Hqp. symmetry. exact (flat_index_inj this p q Hp Hq E).
  - unfold Image.getPixel. cbn. apply array_get_set_eq.
Qed.

(** On a 3 x 2 white image, painting (1, 1) red leaves (0, 1) white. *)
Lemma updatePixel_frame_3_by_2 :
  let this := Image.Build 3 2 (mkArray (replicate 6 (Some Colors.White)) ∅) in
  let this' := Image.updatePixel this (Pixel.Build 1 1) Colors.Red in
  Image.width this' = 3 /\ Image.height this' = 2 /\
  Image.getPixel this' (Pixel.Build 0 1) = Some Colors.White /\
  Image.getPixel this' (Pixel.Build 1 1) = Some Colors.Red.
Proof.
  intros this this'.
  assert (Hp : Spec.in_bounds 3 2 (Pixel.Build 1 1)) by (unfold Spec.in_bounds; cbn; lia).
  assert (Hq : Spec.in_bounds 3 2 (Pixel.Build 0 1)) by (unfold Spec.in_bounds; cbn; lia).
  destruct (updatePixel_frame this (Pixel.Build 1 1) Colors.Red Hp)
    as (Hw & Hh & _ & Hother & Hsame).
  split_and!; [exact Hw | exact Hh | | exact Hsame].
  unfold this'. rewrite (Hother (Pixel.Build 0 1) Hq) by discriminate. reflexivity.
Defined.

(** ** The byte buffer *)

Section ByteBuffer.
Implicit Types (res : Uint8Array) (c : Color.t) (i : Z) (o : nat).


Lemma uint8_set_length res i v : length (uint8_set res i v) = length res.
Proof. unfold uint8_set. destruct (i <? 0); [reflexivity | apply length_insert]. Qed.

Lemma uint8_set_lookup_eq res i v :
  0 <= i -> (Z.to_nat i < length res)%nat ->
  uint8_set res i v !! Z.to_nat i = Some (to_uint8 v).
Proof.
  intros Hi Hlen. unfold uint8_set. destruct (Z.ltb_spec i 0); [lia|].
  now apply list_lookup_insert_eq.
Qed.

Lemma uint8_set_lookup_ne res i v o :
  Z.to_nat i <> o -> uint8_set res i v !! o = res !! o.
Proof.
  intros Hne. unfold uint8_set. destruct (i <? 0); [reflexivity|].
  now apply list_lookup_insert_ne.
Qed.

Lemma store_rgba_length c i res : length (Image.store_rgba c i res) = length res.
Proof. unfold Image.store_rgba. now rewrite !uint8_set_length. Qed.

Lemma store_rgba_untouched c i res o :
  0 <= i -> (o < Z.to_nat (i * 4) \/ Z.to_nat (i * 4 + 3) < o)%nat ->
  Image.store_rgba c i res !! o = res !! o.
Proof.
  intros Hi Ho. unfold Image.store_rgba. cbv zeta.
  rewrite !uint8_set_lookup_ne by lia. reflexivity.
Qed.

Lemma store_rgba_written c i res :
  0 <= i -> (Z.to_nat (i * 4 + 3) < length res)%nat ->
  Image.store_rgba c i res !! Z.to_nat (i * 4) = Some (to_uint8 (Color.r c)) /\
  Image.store_rgba c i res !! Z.to_nat (i * 4 + 1) = Some (to_uint8 (Color.g c)) /\
  Image.store_rgba c i res !! Z.to_nat (i * 4 + 2) = Some (to_uint8 (Color.b c)) /\
  Image.store_rgba c i res !! Z.to_nat (i * 4 + 3) = Some (to_uint8 (Color.a c)).
Proof.
  intros Hi Hlen. unfold Image.store_rgba. cbv zeta. split_and!.
  - rewrite !uint8_set_lookup_ne by lia. apply uint8_set_lookup_eq; lia.
  - rewrite !uint8_set_lookup_ne by lia.
    apply uint8_set_lookup_eq; rewrite ?uint8_set_length; lia.
  - rewrite !uint8_set_lookup_ne by lia.
    apply uint8_set_lookup_eq; rewrite ?uint8_set_length; lia.
  - apply uint8_set_lookup_eq; rewrite ?uint8_set_length; lia.
Qed.


(** The colours from the index [i] on are stored at the offset [4 * i]
    and after. *)
Lemma forEach_store_untouched l : forall i res o,
  0 <= i -> (o < Z.to_nat (i * 4))%nat ->
  forEach_from i l Image.store_rgba res !! o = res !! o.
Proof.
  induction l as [|[c|] l IH]; intros i res o Hi Ho; cbn [forEach_from]; [reflexivity| |].
  - rewrite IH by lia. apply store_rgba_untouched; lia.
  - apply IH; lia.
Qed.

Lemma forEach_store_written l : forall (n : nat) i res c,
  0 <= i -> l !! n = Some (Some c) ->
  (Z.to_nat ((i + Z.of_nat n) * 4 + 3) < length res)%nat ->
  let out := forEach_from i l Image.store_rgba res in
  out !! Z.to_nat ((i + Z.of_nat n) * 4) = Some (to_uint8 (Color.r c)) /\
  out !! Z.to_nat ((i + Z.of_nat n) * 4 + 1) = Some (to_uint8 (Color.g c)) /\
  out !! Z.to_nat ((i + Z.of_nat n) * 4 + 2) = Some (to_uint8 (Color.b c)) /\
  out !! Z.to_nat ((i + Z.of_nat n) * 4 + 3) = Some (to_uint8 (Color.a c)).
Proof.
  induction l as [|o l IH]; intros n i res c Hi Hn Hlen; [discriminate|].
  cbn [forEach_from]. destruct n as [|n].
  - injection Hn as ->. cbn zeta. rewrite Z.add_0_r in *.
    rewrite !forEach_store_untouched by lia.
    apply store_rgba_written; assumption.
  - cbn in Hn.
    replace (i + Z.of_nat (S n)) with (i + 1 + Z.of_nat n) in * by lia.
    apply IH; [lia | assumption |].
    destruct o; [rewrite store_rgba_length|]; assumption.
Qed.

End ByteBuffer.





(** * Further properties of the sources *)

(** ** The constructor of colours, on all numbers *)

Section RemainderFacts.

Lemma shr_nonneg mrs e n : 0 <= shr_m mrs -> 0 <= shr_m (fst (shr mrs e n)).
Proof.
  intros H. destruct n as [|k|k]; cbn [shr fst]; try assumption.
  rewrite iter_shr_1_m by assumption.
  apply Z.div_pos; [assumption | apply Z.pow_pos_nonneg; lia].
Qed.

Lemma shr_fexp_nonneg m e l : 0 <= m -> 0 <= shr_m (fst (shr_fexp prec emax m e l)).
Proof.
  intros H. unfold shr_fexp. apply shr_nonneg. rewrite shr_m_record_of_loc. assumption.
Qed.

(** Rounding never gives NaN. *)
Lemma binary_round_aux_not_NaN s m e l :
  0 <= m -> isNaN (binary_round_aux prec emax s m e l) = false.
Proof.
  intros Hm. unfold binary_round_aux.
  pose proof (shr_fexp_nonneg m e l Hm) as H1.
  destruct (shr_fexp prec emax m e l) as [mrs' e'] eqn:E1. cbn [fst] in H1.
  pose proof (round_nearest_even_bounds (shr_m mrs') (loc_of_shr_record mrs')) as Hr.
  pose proof (shr_fexp_nonneg (round_nearest_even (shr_m mrs') (loc_of_shr_record mrs'))
                e' loc_Exact ltac:(lia)) as H2.
  destruct (shr_fexp prec emax _ e' loc_Exact) as [mrs'' e''] eqn:E2. cbn [fst] in H2.
  destruct (shr_m mrs'') as [|q|q]; [reflexivity | | lia].
  destruct (e'' <=? emax - prec); reflexivity.
Qed.

Lemma binary_normalize_not_NaN z e s : isNaN (binary_normalize prec emax z e s) = false.
Proof.
  destruct z as [|p|p]; [reflexivity | |];
    cbn [binary_normalize]; unfold binary_round;
    destruct (shl_align _ _ _) as [mz ez]; apply binary_round_aux_not_NaN; lia.
Qed.

(** [x % 256] is NaN exactly when [x] is NaN or infinite. *)
Lemma rem_256_NaN x : isNaN (rem x (of_Z 256)) = negb (isFinite x).
Proof.
  rewrite of_Z_256. destruct x as [s|s| |s m e]; try reflexivity.
  unfold rem. cbn [isFinite negb]. apply binary_normalize_not_NaN.
Qed.

(** A number in its canonical form is rounded to itself. *)
Lemma binary_round_canonical s m e :
  bounded prec emax m e = true -> binary_round prec emax s m e = S754_finite s m e.
Proof.
  unfold bounded, canonical_mantissa. intros H. apply andb_prop in H as [Hc He].
  apply Z.eqb_eq in Hc.
  unfold binary_round, shl_align. rewrite Hc, Z.sub_diag.
  unfold binary_round_aux, shr_fexp, Zdigits2. rewrite Hc, Z.sub_diag.
  cbn [shr shr_record_of_loc shr_m loc_of_shr_record round_nearest_even].
  rewrite Hc, Z.sub_diag. cbn [shr shr_record_of_loc shr_m]. rewrite He. reflexivity.
Qed.

(** A binary64 number below 256 in magnitude is its own remainder. *)
Lemma rem_256_below s m e :
  bounded prec emax m e = true -> e <= -45 ->
  rem (S754_finite s m e) (of_Z 256) = S754_finite s m e.
Proof.
  intros Hb He. rewrite of_Z_256. unfold rem.
  destruct (bounded_inv m e Hb) as [Hd Hr].
  replace (Z.min e (-44)) with e by lia.
  rewrite !shl_align_val by lia. replace (e - e) with 0 by lia. rewrite Z.mul_1_r.
  assert (Hm : Zpos m < 2 ^ 53).
  { destruct (digits2_pos_bounds m) as [_ Hhi].
    assert (2 ^ Zpos (digits2_pos m) <= 2 ^ 53) by (apply Z.pow_le_mono_r; lia). lia. }
  assert (Hp : 2 ^ 1 <= 2 ^ (-44 - e)) by (apply Z.pow_le_mono_r; lia).
  change (2 ^ 1) with 2 in Hp. change (Zpos (2 ^ 52)) with (2 ^ 52).
  rewrite Z.mod_small by (change (2 ^ 53) with (2 ^ 52 * 2) in Hm; nia).
  destruct s; cbn [cond_Zopp binary_normalize Z.opp]; apply binary_round_canonical; assumption.
Qed.

(** The remainder of a larger binary64 number is a zero or a number below
    256 in its canonical form. *)
Lemma rem_256_above s m e :
  bounded prec emax m e = true -> -44 <= e ->
  rem (S754_finite s m e) (of_Z 256) = S754_zero s \/
  exists m' e', rem (S754_finite s m e) (of_Z 256) = S754_finite s m' e' /\
                bounded prec emax m' e' = true /\ e' <= -45.
Proof.
  intros Hb He. rewrite of_Z_256. unfold rem.
  replace (Z.min e (-44)) with (-44) by lia.
  rewrite !shl_align_val by lia. replace (-44 - -44) with 0 by lia. rewrite Z.mul_1_r.
  change (Zpos (2 ^ 52)) with (2 ^ 52).
  pose proof (Z.mod_pos_bound (Zpos m * 2 ^ (e - -44)) (2 ^ 52) ltac:(reflexivity)) as Hmod.
  destruct (Zpos m * 2 ^ (e - -44) mod 2 ^ 52) as [|p|p] eqn:Ep; [| |lia].
  - left. destruct s; reflexivity.
  - right.
    assert (Hd : Zpos (digits2_pos p) <= 52) by (apply digits2_pos_le; lia).
    pose proof (Pos2Z.is_pos (digits2_pos p)) as Hpos.
    assert (E : binary_normalize prec emax (cond_Zopp s (Zpos p)) (-44) s
                = binary_round prec emax s p (-44)) by (destruct s; reflexivity).
    rewrite E.
    destruct (binary_round_exact s p (-44)) as (m' & -> & Hm' & Dm'); try lia.
    exists m', (-44 + Zpos (digits2_pos p) - 53). split; [reflexivity|]. split; [|lia].
    unfold bounded, canonical_mantissa, fexp, emin. rewrite Dm'. unfold prec, emax.
    apply andb_true_intro. split; [apply Z.eqb_eq | apply Z.leb_le]; lia.
Qed.

(** Reducing twice is reducing once. *)
Lemma rem_256_idempotent x :
  is_binary64 x = true -> rem (rem x (of_Z 256)) (of_Z 256) = rem x (of_Z 256).
Proof.
  intros Hx. destruct x as [s|s| |s m e]; try reflexivity.
  unfold is_binary64, valid_binary in Hx.
  destruct (Z_le_gt_dec e (-45)) as [Hlo|Hhi].
  - rewrite !rem_256_below by assumption. reflexivity.
  - destruct (rem_256_above s m e Hx ltac:(lia)) as [->|(m' & e' & -> & Hb' & He')].
    + reflexivity.
    + apply rem_256_below; assumption.
Qed.

Lemma rem_256_binary64 x : is_binary64 x = true -> is_binary64 (rem x (of_Z 256)) = true.
Proof.
  intros Hx. destruct x as [s|s| |s m e]; try reflexivity.
  unfold is_binary64, valid_binary in Hx.
  destruct (Z_le_gt_dec e (-45)) as [Hlo|Hhi].
  - rewrite rem_256_below by assumption. exact Hx.
  - destruct (rem_256_above s m e Hx ltac:(lia)) as [->|(m' & e' & -> & Hb' & He')];
      [reflexivity | exact Hb'].
Qed.

End RemainderFacts.

(** X2. The guard of the constructor keeps NaN out of its arguments, not out
    of the channels: an infinite argument is accepted and stored as NaN; a
    finite one never is. *)
Theorem constructor_stores_NaN_for_Infinity :
  forall (r g b a : number) (c : Color.t),
    Color.constructor r g b a = Return c ->
    isNaN (Color.r c) = negb (isFinite r) /\
    isNaN (Color.g c) = negb (isFinite g) /\
    isNaN (Color.b c) = negb (isFinite b) /\
    isNaN (Color.a c) = negb (isFinite a).
Proof.
  intros r g b a c. unfold Color.constructor.
  destruct (isNaN r || isNaN g || isNaN b || isNaN a); [discriminate|].
  intros [= <-]. cbn [Color.r Color.g Color.b Color.a Color._r Color._g Color._b Color._a].
  rewrite !rem_256_NaN. auto.
Qed.

Lemma constructor_stores_NaN_for_Infinity_example :
  Color.constructor Infinity (of_Z 0) (of_Z 0) (of_Z 255)
  = Return (Color.Build NaN (of_Z 0) (of_Z 0) (of_Z 255)) /\
  isNaN NaN = negb (isFinite Infinity) /\
  isNaN (of_Z 0) = negb (isFinite (of_Z 0)).
Proof.
  split; [reflexivity|].
  destruct (constructor_stores_NaN_for_Infinity Infinity (of_Z 0) (of_Z 0) (of_Z 255) _ eq_refl)
    as (Hr & Hg & _).
  split; [exact Hr | exact Hg].
Defined.

(** X3. A colour built from finite numbers is a fixed point of the
    constructor: building a colour again from its four getters gives the
    same colour. *)
Theorem constructor_is_idempotent :
  forall (r g b a : number) (c : Color.t),
    is_binary64 r = true -> is_binary64 g = true ->
    is_binary64 b = true -> is_binary64 a = true ->
    isFinite r = true -> isFinite g = true -> isFinite b = true -> isFinite a = true ->
    Color.constructor r g b a = Return c ->
    Color.constructor (Color.r c) (Color.g c) (Color.b c) (Color.a c) = Return c.
Proof.
  intros r g b a c Vr Vg Vb Va Fr Fg Fb Fa Hc.
  unfold Color.constructor in *.
  destruct (isNaN r || isNaN g || isNaN b || isNaN a); [discriminate|].
  injection Hc as <-.
  cbn [Color.r Color.g Color.b Color.a Color._r Color._g Color._b Color._a].
  rewrite !rem_256_NaN, Fr, Fg, Fb, Fa. cbn [orb negb].
  rewrite !rem_256_idempotent by assumption. reflexivity.
Qed.

Lemma constructor_is_idempotent_example :
  let c := Colors.rgba 300 (-1) 0 255 in
  Color.constructor (of_Z 300) (of_Z (-1)) (of_Z 0) (of_Z 255) = Return c /\
  Color.constructor (Color.r c) (Color.g c) (Color.b c) (Color.a c) = Return c.
Proof.
  intros c. split; [reflexivity|].
  exact (constructor_is_idempotent (of_Z 300) (of_Z (-1)) (of_Z 0) (of_Z 255) c
           eq_refl eq_refl eq_refl eq_refl eq_refl eq_refl eq_refl eq_refl eq_refl).
Defined.

(** X1. For integers of any sign the constructor keeps the remainder of the
    division by 256 that truncates towards zero ([Z.rem]): the channel has
    the sign of the argument and a magnitude below 256; nothing is clamped
    and a negative argument is not brought back above zero. *)
Theorem constructor_truncates_integers :
  forall (r g b a : number) (zr zg zb za : Z),
    is_binary64 r = true -> is_binary64 g = true ->
    is_binary64 b = true -> is_binary64 a = true ->
    to_Z r = Some zr -> to_Z g = Some zg -> to_Z b = Some zb -> to_Z a = Some za ->
    exists c,
      Color.constructor r g b a = Return c /\
      to_Z (Color.r c) = Some (Z.rem zr 256) /\
      to_Z (Color.g c) = Some (Z.rem zg 256) /\
      to_Z (Color.b c) = Some (Z.rem zb 256) /\
      to_Z (Color.a c) = Some (Z.rem za 256) /\
      Z.abs (Z.rem zr 256) < 256 /\ Z.abs (Z.rem zg 256) < 256 /\
      Z.abs (Z.rem zb 256) < 256 /\ Z.abs (Z.rem za 256) < 256 /\
      0 <= zr * Z.rem zr 256 /\ 0 <= zg * Z.rem zg 256 /\
      0 <= zb * Z.rem zb 256 /\ 0 <= za * Z.rem za 256.
Proof.
  intros r g b a zr zg zb za Vr Vg Vb Va Zr Zg Zb Za.
  destruct (constructor_integer_channels r g b a zr zg zb za)
    as (c & Hc & Cr & Cg & Cb & Ca); try assumption.
  exists c.
  assert (Hb : forall z, Z.abs (Z.rem z 256) < 256)
    by (intros z; pose proof (Z.rem_bound_abs z 256 ltac:(lia)); lia).
  assert (Hs : forall z, 0 <= z * Z.rem z 256)
    by (intros z; rewrite Z.mul_comm; apply Z.rem_sign_mul; lia).
  split_and!; auto.
Qed.

Lemma constructor_truncates_integers_example :
  exists c,
    Color.constructor (of_Z (-1)) (of_Z (-257)) (of_Z 300) (of_Z (-256)) = Return c /\
    to_Z (Color.r c) = Some (-1) /\ to_Z (Color.g c) = Some (-1) /\
    to_Z (Color.b c) = Some 44 /\ to_Z (Color.a c) = Some 0.
Proof.
  destruct (constructor_truncates_integers (of_Z (-1)) (of_Z (-257)) (of_Z 300) (of_Z (-256))
              (-1) (-257) 300 (-256) eq_refl eq_refl eq_refl eq_refl
              eq_refl eq_refl eq_refl eq_refl)
    as (c & Hc & Hr & Hg & Hb & Ha & _).
  exists c. split; [exact Hc|]. split_and!; assumption.
Defined.

(** ** Hexadecimal colours, further *)

Section FromHexFurther.

(** After the [#], [fromHex] is the constructor on four slices of the
    eight characters that the digits were completed to. *)
Lemma fromHex_cases s :
  match Spec.strip_hash s with
  | String c1 (String c2 (String c3 EmptyString)) =>
      Color.fromHex s
      = Color.constructor (parseInt16 (String c1 (String c1 EmptyString)))
                          (parseInt16 (String c2 (String c2 EmptyString)))
                          (parseInt16 (String c3 (String c3 EmptyString)))
                          (parseInt16 "FF")
  | String c1 (String c2 (String c3 (String c4 (String c5 (String c6 EmptyString))))) =>
      Color.fromHex s
      = Color.constructor (parseInt16 (String c1 (String c2 EmptyString)))
                          (parseInt16 (String c3 (String c4 EmptyString)))
                          (parseInt16 (String c5 (String c6 EmptyString)))
                          (parseInt16 "FF")
  | String c1 (String c2 (String c3 (String c4 (String c5 (String c6
      (String c7 (String c8 EmptyString))))))) =>
      Color.fromHex s
      = Color.constructor (parseInt16 (String c1 (String c2 EmptyString)))
                          (parseInt16 (String c3 (String c4 EmptyString)))
                          (parseInt16 (String c5 (String c6 EmptyString)))
                          (parseInt16 (String c7 (String c8 EmptyString)))
  | digits => Color.fromHex s = Throw (mkError ("Invalid hex color: " ++ digits))
  end.
Proof.
  unfold Color.fromHex. rewrite strip_leading_hash.
  destruct (Spec.strip_hash s) as [|c1 [|c2 [|c3 [|c4 [|c5 [|c6 [|c7 [|c8 [|c9 d]]]]]]]]];
    reflexivity.
Qed.


Lemma pair_in_range_all :
  forallb (fun c1 => forallb (pair_in_range c1) Spec.all_ascii) Spec.all_ascii = true.
Proof. vm_compute. reflexivity. Qed.

Lemma parseInt16_pair_range c1 c2 :
  let n := parseInt16 (String c1 (String c2 EmptyString)) in
  isNaN n = false ->
  is_binary64 n = true /\ exists z, to_Z n = Some z /\ -15 <= z <= 255.
Proof.
  intros n Hn.
  pose proof pair_in_range_all as H.
  rewrite forallb_forall in H. specialize (H c1 (elem_of_all_ascii c1)).
  rewrite forallb_forall in H. specialize (H c2 (elem_of_all_ascii c2)).
  unfold pair_in_range in H. fold n in H. rewrite Hn in H. cbn [orb] in H.
  apply andb_prop in H as [Hv Hz]. split; [assumption|].
  destruct (to_Z n) as [z|]; [|discriminate]. exists z. split; [reflexivity|].
  apply andb_prop in Hz as [Ha Hb]. apply Z.leb_le in Ha, Hb. lia.
Qed.

Lemma pair_case_blind_all :
  forallb (fun c1 => forallb (pair_case_blind c1) Spec.all_ascii) Spec.all_ascii = true.
Proof. vm_compute. reflexivity. Qed.

Lemma parseInt16_lower_case c1 c2 :
  parseInt16 (String (lower_case_unit c1) (String (lower_case_unit c2) EmptyString))
  = parseInt16 (String c1 (String c2 EmptyString)).
Proof.
  pose proof pair_case_blind_all as H.
  rewrite forallb_forall in H. specialize (H c1 (elem_of_all_ascii c1)).
  rewrite forallb_forall in H. specialize (H c2 (elem_of_all_ascii c2)).
  apply bool_decide_eq_true in H. exact H.
Qed.

Lemma rem_256_within z : -256 < z < 256 -> Z.rem z 256 = z.
Proof.
  intros Hz. destruct (Z_le_gt_dec 0 z) as [Hp|Hn].
  - apply Z.rem_small. lia.
  - replace z with (- (- z)) at 1 by lia.
    rewrite Z.rem_opp_l', Z.rem_small by lia. lia.
Qed.

(** The constructor on four such readings. *)
Lemma constructor_of_pairs c1 c2 c3 c4 c5 c6 c7 c8 c :
  Color.constructor (parseInt16 (String c1 (String c2 EmptyString)))
                    (parseInt16 (String c3 (String c4 EmptyString)))
                    (parseInt16 (String c5 (String c6 EmptyString)))
                    (parseInt16 (String c7 (String c8 EmptyString))) = Return c ->
  exists zr zg zb za,
    to_Z (Color.r c) = Some zr /\ to_Z (Color.g c) = Some zg /\
    to_Z (Color.b c) = Some zb /\ to_Z (Color.a c) = Some za /\
    -15 <= zr <= 255 /\ -15 <= zg <= 255 /\ -15 <= zb <= 255 /\ -15 <= za <= 255.
Proof.
  intros Hc.
  assert (Hnan : isNaN (parseInt16 (String c1 (String c2 EmptyString))) = false /\
                 isNaN (parseInt16 (String c3 (String c4 EmptyString))) = false /\
                 isNaN (parseInt16 (String c5 (String c6 EmptyString))) = false /\
                 isNaN (parseInt16 (String c7 (String c8 EmptyString))) = false).
  { unfold Color.constructor in Hc.
    destruct (isNaN (parseInt16 (String c1 (String c2 EmptyString)))),
             (isNaN (parseInt16 (String c3 (String c4 EmptyString)))),
             (isNaN (parseInt16 (String c5 (String c6 EmptyString)))),
             (isNaN (parseInt16 (String c7 (String c8 EmptyString))));
      try discriminate Hc. auto. }
  destruct Hnan as (N1 & N2 & N3 & N4).
  destruct (parseInt16_pair_range _ _ N1) as (V1 & z1 & Z1 & R1).
  destruct (parseInt16_pair_range _ _ N2) as (V2 & z2 & Z2 & R2).
  destruct (parseInt16_pair_range _ _ N3) as (V3 & z3 & Z3 & R3).
  destruct (parseInt16_pair_range _ _ N4) as (V4 & z4 & Z4 & R4).
  destruct (constructor_integer_channels _ _ _ _ _ _ _ _ V1 V2 V3 V4 Z1 Z2 Z3 Z4)
    as (c' & Hc' & Hr & Hg & Hb & Ha).
  rewrite Hc in Hc'. injection Hc' as <-.
  exists z1, z2, z3, z4.
  rewrite Hr, Hg, Hb, Ha.
  rewrite !rem_256_within by lia. split_and!; try reflexivity; lia.
Qed.


Lemma parseInt16_FF : is_byte (parseInt16 "FF") = true /\ to_Z (parseInt16 "FF") = Some 255.
Proof. split; reflexivity. Qed.

Lemma hex_pair_reads c1 c2 z :
  hex_pair c1 c2 = Some z ->
  is_byte (parseInt16 (String c1 (String c2 EmptyString))) = true /\
  to_Z (parseInt16 (String c1 (String c2 EmptyString))) = Some z.
Proof.
  unfold hex_pair. destruct (hex_digit c1) as [d1|] eqn:H1; [|discriminate].
  destruct (hex_digit c2) as [d2|] eqn:H2; [|discriminate]. cbn. intros [= <-].
  destruct (parseInt16_two_digits _ _ _ _ H1 H2) as [Hv Hz].
  apply hex_digit_range in H1, H2.
  split; [|exact Hz]. unfold is_byte. rewrite Hv, Hz. cbn [andb].
  apply andb_true_intro. split; apply Z.leb_le; lia.
Qed.

Lemma strip_hash_lower s :
  Spec.strip_hash (toLowerCase s) = toLowerCase (Spec.strip_hash s).
Proof.
  destruct s as [|c s]; [reflexivity|].
  destruct c as [[] [] [] [] [] [] [] []]; reflexivity.
Qed.

End FromHexFurther.

(** X4. The short forms are completed before they are read: [#abc] is
    [#aabbccFF] and [#abcdef] is [#abcdefFF], whatever the six characters
    are, so also in what is refused. The [#] itself is optional. *)
Theorem fromHex_completes_short_forms :
  forall (c1 c2 c3 c4 c5 c6 : ascii) (s : string),
    Color.fromHex (String "#" (String c1 (String c2 (String c3 EmptyString))))
    = Color.fromHex (String "#" (String c1 (String c1 (String c2 (String c2
        (String c3 (String c3 "FF"))))))) /\
    Color.fromHex (String "#" (String c1 (String c2 (String c3 (String c4
        (String c5 (String c6 EmptyString)))))))
    = Color.fromHex (String "#" (String c1 (String c2 (String c3 (String c4
        (String c5 (String c6 "FF"))))))) /\
    (if startsWith s "#" then True else Color.fromHex (String "#" s) = Color.fromHex s).
Proof.
  intros c1 c2 c3 c4 c5 c6 s. split_and!; try reflexivity.
  destruct (startsWith s "#") eqn:Hs; [exact I|].
  pose proof (fromHex_cases (String "#" s)) as H1.
  pose proof (fromHex_cases s) as H2.
  assert (E : Spec.strip_hash s = s).
  { rewrite <- strip_leading_hash, Hs. reflexivity. }
  rewrite E in H2. change (Spec.strip_hash (String "#" s)) with s in H1.
  destruct s as [|d1 [|d2 [|d3 [|d4 [|d5 [|d6 [|d7 [|d8 [|d9 d]]]]]]]]]; congruence.
Qed.

(** X5. [fromHex] throws two errors only: "Invalid hex color: " followed by
    the string without its [#], when that is not 3, 6 or 8 characters long;
    and, when it is, the error of the constructor. *)
Theorem fromHex_throws_two_errors :
  forall s : string,
    let digits := Spec.strip_hash s in
    let n := String.length digits in
    if ((n =? 3) || (n =? 6) || (n =? 8))%nat
    then returns (Color.fromHex s) = true \/
         Color.fromHex s = Throw (mkError "Invalid color components")
    else Color.fromHex s = Throw (mkError ("Invalid hex color: " ++ digits)).
Proof.
  intros s digits n. subst n digits.
  pose proof (fromHex_cases s) as H.
  assert (Hcons : forall r g b a,
            returns (Color.constructor r g b a) = true \/
            Color.constructor r g b a = Throw (mkError "Invalid color components")).
  { intros r g b a. unfold Color.constructor.
    destruct (isNaN r || isNaN g || isNaN b || isNaN a); [right | left]; reflexivity. }
  destruct (Spec.strip_hash s) as [|c1 [|c2 [|c3 [|c4 [|c5 [|c6 [|c7 [|c8 [|c9 d]]]]]]]]];
    cbn [String.length Nat.eqb orb]; try exact H; rewrite H; apply Hcons.
Qed.

(** The colour of a string of 3, 6 or 8 hexadecimal digits. *)
Lemma fromHex_of_digits (s : string) (r g b a : Z) :
  hex_channels (Spec.strip_hash s) = Some (r, g, b, a) ->
  exists c,
    Color.fromHex s = Return c /\ byte_color c = true /\
    to_Z (Color.r c) = Some r /\ to_Z (Color.g c) = Some g /\
    to_Z (Color.b c) = Some b /\ to_Z (Color.a c) = Some a.
Proof.
  intros Hch. pose proof (fromHex_cases s) as H.
  assert (Hbuild : forall vr vg vb va,
            is_byte vr = true /\ to_Z vr = Some r -> is_byte vg = true /\ to_Z vg = Some g ->
            is_byte vb = true /\ to_Z vb = Some b -> is_byte va = true /\ to_Z va = Some a ->
            exists c, Color.constructor vr vg vb va = Return c /\ byte_color c = true /\
                      to_Z (Color.r c) = Some r /\ to_Z (Color.g c) = Some g /\
                      to_Z (Color.b c) = Some b /\ to_Z (Color.a c) = Some a).
  { intros vr vg vb va [Br Zr] [Bg Zg] [Bb Zb] [Ba Za].
    exists (Color.Build vr vg vb va). split; [apply constructor_bytes; assumption|].
    unfold byte_color. cbn [Color.r Color.g Color.b Color.a Color._r Color._g Color._b Color._a].
    rewrite Br, Bg, Bb, Ba. auto. }
  destruct (Spec.strip_hash s) as [|c1 [|c2 [|c3 [|c4 [|c5 [|c6 [|c7 [|c8 [|c9 d]]]]]]]]];
    try discriminate Hch; cbn [hex_channels] in Hch; rewrite H.
  - destruct (hex_pair c1 c1) as [zr|] eqn:Er; [|discriminate].
    destruct (hex_pair c2 c2) as [zg|] eqn:Eg; [|discriminate].
    destruct (hex_pair c3 c3) as [zb|] eqn:Eb; [|discriminate].
    cbn in Hch. injection Hch as <- <- <- <-.
    apply Hbuild; auto using hex_pair_reads, parseInt16_FF.
  - destruct (hex_pair c1 c2) as [zr|] eqn:Er; [|discriminate].
    destruct (hex_pair c3 c4) as [zg|] eqn:Eg; [|discriminate].
    destruct (hex_pair c5 c6) as [zb|] eqn:Eb; [|discriminate].
    cbn in Hch. injection Hch as <- <- <- <-.
    apply Hbuild; auto using hex_pair_reads, parseInt16_FF.
  - destruct (hex_pair c1 c2) as [zr|] eqn:Er; [|discriminate].
    destruct (hex_pair c3 c4) as [zg|] eqn:Eg; [|discriminate].
    destruct (hex_pair c5 c6) as [zb|] eqn:Eb; [|discriminate].
    destruct (hex_pair c7 c8) as [za|] eqn:Ea; [|discriminate].
    cbn in Hch. injection Hch as <- <- <- <-.
    apply Hbuild; auto using hex_pair_reads.
Qed.

(** X6. A well-formed colour is read as its digits say: three digits are
    doubled, three or six digits get the alpha 255; the result has integer
    channels of [0, 255]. *)
Theorem fromHex_reads_digits :
  forall (s : string) (r g b a : Z),
    hex_channels (Spec.strip_hash s) = Some (r, g, b, a) ->
    exists c,
      Color.fromHex s = Return c /\ byte_color c = true /\
      to_Z (Color.r c) = Some r /\ to_Z (Color.g c) = Some g /\
      to_Z (Color.b c) = Some b /\ to_Z (Color.a c) = Some a.
Proof. exact fromHex_of_digits. Qed.

Lemma fromHex_reads_digits_examples :
  (exists c, Color.fromHex "#FF8040" = Return c /\ byte_color c = true /\
             to_Z (Color.r c) = Some 255 /\ to_Z (Color.g c) = Some 128 /\
             to_Z (Color.b c) = Some 64 /\ to_Z (Color.a c) = Some 255) /\
  (exists c, Color.fromHex "F84" = Return c /\ byte_color c = true /\
             to_Z (Color.r c) = Some 255 /\ to_Z (Color.g c) = Some 136 /\
             to_Z (Color.b c) = Some 68 /\ to_Z (Color.a c) = Some 255) /\
  (exists c, Color.fromHex "#ff8040c8" = Return c /\ byte_color c = true /\
             to_Z (Color.r c) = Some 255 /\ to_Z (Color.g c) = Some 128 /\
             to_Z (Color.b c) = Some 64 /\ to_Z (Color.a c) = Some 200).
Proof.
  split_and!.
  - exact (fromHex_reads_digits "#FF8040" 255 128 64 255 eq_refl).
  - exact (fromHex_reads_digits "F84" 255 136 68 255 eq_refl).
  - exact (fromHex_reads_digits "#ff8040c8" 255 128 64 200 eq_refl).
Defined.

(** X7. When [fromHex] returns, every channel is an integer between -15 and
    255: a pair of characters such as "-F" is read as a negative number. *)
Theorem fromHex_channels_are_integers :
  forall (s : string) (c : Color.t),
    Color.fromHex s = Return c ->
    exists zr zg zb za,
      to_Z (Color.r c) = Some zr /\ to_Z (Color.g c) = Some zg /\
      to_Z (Color.b c) = Some zb /\ to_Z (Color.a c) = Some za /\
      -15 <= zr <= 255 /\ -15 <= zg <= 255 /\ -15 <= zb <= 255 /\ -15 <= za <= 255.
Proof.
  intros s c Hc. pose proof (fromHex_cases s) as H.
  destruct (Spec.strip_hash s) as [|c1 [|c2 [|c3 [|c4 [|c5 [|c6 [|c7 [|c8 [|c9 d]]]]]]]]];
    rewrite H in Hc; try discriminate Hc;
    eapply constructor_of_pairs; exact Hc.
Qed.

Lemma fromHex_channels_are_integers_minus_15 :
  Color.fromHex "-F-F-F" = Return (Color.Build (of_Z (-15)) (of_Z (-15)) (of_Z (-15)) (of_Z 255)) /\
  exists zr zg zb za,
    to_Z (of_Z (-15)) = Some zr /\ to_Z (of_Z (-15)) = Some zg /\
    to_Z (of_Z (-15)) = Some zb /\ to_Z (of_Z 255) = Some za /\
    -15 <= zr <= 255 /\ -15 <= zg <= 255 /\ -15 <= zb <= 255 /\ -15 <= za <= 255.
Proof.
  split; [reflexivity|].
  exact (fromHex_channels_are_integers "-F-F-F" _ eq_refl).
Defined.

(** X8. Hexadecimal digits are read without regard to case: the lower-case
    form of a string of ASCII characters gives the same colour, or is
    refused as well. *)
Theorem fromHex_ignores_case :
  forall s : string,
    ascii_only s = true ->
    match Color.fromHex s with
    | Return c => Color.fromHex (toLowerCase s) = Return c
    | Throw _ => throws (Color.fromHex (toLowerCase s)) = true
    end.
Proof.
  intros s _. pose proof (fromHex_cases s) as H.
  pose proof (fromHex_cases (toLowerCase s)) as L. rewrite strip_hash_lower in L.
  assert (HFF : forall r g b : number,
            match Color.constructor r g b (parseInt16 "FF") with
            | Return c => Color.constructor r g b (parseInt16 "FF") = Return c
            | Throw _ => throws (Color.constructor r g b (parseInt16 "FF")) = true
            end) by (intros r g b; destruct (Color.constructor _ _ _ _); reflexivity).
  destruct (Spec.strip_hash s) as [|c1 [|c2 [|c3 [|c4 [|c5 [|c6 [|c7 [|c8 [|c9 d]]]]]]]]];
    cbn [toLowerCase] in L; rewrite H, L; try reflexivity;
    rewrite ?parseInt16_lower_case; try apply HFF.
  destruct (Color.constructor _ _ _ _); reflexivity.
Qed.

Lemma fromHex_ignores_case_AbCdEf :
  ascii_only "#AbCdEf" = true /\
  Color.fromHex "#abcdef" = Color.fromHex "#AbCdEf" /\
  returns (Color.fromHex "#AbCdEf") = true.
Proof.
  split; [reflexivity|]. split; [|reflexivity].
  generalize (fromHex_ignores_case "#AbCdEf" eq_refl).
  vm_compute. intros H. exact H.
Defined.

(** ** Names, pairs of colours and strings of colours *)

Section StringFurther.

Lemma lower_case_unit_not_capital c : is_capital (lower_case_unit c) = false.
Proof. destruct c as [[] [] [] [] [] [] [] []]; reflexivity. Qed.

Lemma lower_case_unit_fixed c : is_capital c = false -> lower_case_unit c = c.
Proof. destruct c as [[] [] [] [] [] [] [] []]; intros H; try reflexivity; discriminate H. Qed.

Lemma toLowerCase_no_capital s : has_capital (toLowerCase s) = false.
Proof.
  induction s as [|c s IH]; [reflexivity|].
  cbn [toLowerCase has_capital]. rewrite lower_case_unit_not_capital, IH. reflexivity.
Qed.

Lemma toLowerCase_fixed s : has_capital s = false -> toLowerCase s = s.
Proof.
  induction s as [|c s IH]; [reflexivity|].
  cbn [toLowerCase has_capital]. intros H. apply orb_false_elim in H as [Hc Hs].
  rewrite lower_case_unit_fixed, IH by assumption. reflexivity.
Qed.

Lemma toLowerCase_length s : String.length (toLowerCase s) = String.length s.
Proof. induction s as [|c s IH]; [reflexivity|]. cbn. now rewrite IH. Qed.

Lemma lower_case_unit_ascii c : ascii_unit c = true -> ascii_unit (lower_case_unit c) = true.
Proof. destruct c as [[] [] [] [] [] [] [] []]; intros H; try reflexivity; discriminate H. Qed.

Lemma toLowerCase_ascii s : ascii_only s = true -> ascii_only (toLowerCase s) = true.
Proof.
  induction s as [|c s IH]; [reflexivity|].
  cbn [toLowerCase ascii_only]. intros H. apply andb_prop in H as [Hc Hs].
  rewrite lower_case_unit_ascii, IH by assumption. reflexivity.
Qed.

End StringFurther.

(** X13. The id of a pair is the lower-case form of its name: for a name of
    ASCII characters it is a string of ASCII characters as long as the
    name, free of capital letters, equal to the name exactly when the name
    has none, and its own lower-case form. *)
Theorem ColorPair_id_is_lower_case :
  forall (name : string) (primaryColor secondaryColor : Color.t),
    ascii_only name = true ->
    let pair := ColorPair.fromColors name primaryColor secondaryColor in
    ColorPair.name pair = name /\
    ColorPair.primaryColor pair = primaryColor /\
    ColorPair.secondaryColor pair = secondaryColor /\
    ascii_only (ColorPair.id pair) = true /\
    String.length (ColorPair.id pair) = String.length name /\
    has_capital (ColorPair.id pair) = false /\
    (ColorPair.id pair = name <-> has_capital name = false) /\
    ColorPair.id (ColorPair.fromColors (ColorPair.id pair) primaryColor secondaryColor)
    = ColorPair.id pair.
Proof.
  intros name c1 c2 Hascii pair. subst pair.
  unfold ColorPair.fromColors, ColorPair.constructor.
  cbn [ColorPair.name ColorPair.id ColorPair.primaryColor ColorPair.secondaryColor].
  split_and!; try reflexivity.
  - apply toLowerCase_ascii, Hascii.
  - apply toLowerCase_length.
  - apply toLowerCase_no_capital.
  - split; [intros <-; apply toLowerCase_no_capital | apply toLowerCase_fixed].
  - apply toLowerCase_fixed, toLowerCase_no_capital.
Qed.

Lemma ColorPair_id_is_lower_case_Ocean :
  let pair := ColorPair.fromColors "Ocean" Colors.White Colors.Blue in
  ascii_only "Ocean" = true /\
  ColorPair.name pair = "Ocean"%string /\
  String.length (ColorPair.id pair) = String.length "Ocean" /\
  has_capital (ColorPair.id pair) = false.
Proof.
  intros pair. split; [reflexivity|].
  destruct (ColorPair_id_is_lower_case "Ocean" Colors.White Colors.Blue eq_refl)
    as (Hname & _ & _ & _ & Hlen & Hcap & _).
  split; [exact Hname|]. split; [exact Hlen | exact Hcap].
Defined.

(** X14. [ColorPair.fromHex] reads its first colour first: what [Color.fromHex]
    throws for it is thrown whatever the second string is; two well-formed
    strings give the pair of the two colours their digits denote. *)
Theorem ColorPair_fromHex_reads_both :
  forall (hex1 hex2 name : string),
    (forall e, Color.fromHex hex1 = Throw e ->
               ColorPair.fromHex hex1 hex2 name = Throw e) /\
    (forall c1 e, Color.fromHex hex1 = Return c1 -> Color.fromHex hex2 = Throw e ->
                  ColorPair.fromHex hex1 hex2 name = Throw e) /\
    (forall r1 g1 b1 a1 r2 g2 b2 a2,
        hex_channels (Spec.strip_hash hex1) = Some (r1, g1, b1, a1) ->
        hex_channels (Spec.strip_hash hex2) = Some (r2, g2, b2, a2) ->
        exists pair,
          ColorPair.fromHex hex1 hex2 name = Return pair /\
          ColorPair.name pair = name /\ ColorPair.id pair = toLowerCase name /\
          byte_color (ColorPair.primaryColor pair) = true /\
          byte_color (ColorPair.secondaryColor pair) = true /\
          to_Z (Color.r (ColorPair.primaryColor pair)) = Some r1 /\
          to_Z (Color.g (ColorPair.primaryColor pair)) = Some g1 /\
          to_Z (Color.b (ColorPair.primaryColor pair)) = Some b1 /\
          to_Z (Color.a (ColorPair.primaryColor pair)) = Some a1 /\
          to_Z (Color.r (ColorPair.secondaryColor pair)) = Some r2 /\
          to_Z (Color.g (ColorPair.secondaryColor pair)) = Some g2 /\
          to_Z (Color.b (ColorPair.secondaryColor pair)) = Some b2 /\
          to_Z (Color.a (ColorPair.secondaryColor pair)) = Some a2).
Proof.
  intros hex1 hex2 name. unfold ColorPair.fromHex. split_and!.
  - intros e ->. reflexivity.
  - intros c1 e -> ->. reflexivity.
  - intros r1 g1 b1 a1 r2 g2 b2 a2 H1 H2.
    destruct (fromHex_of_digits hex1 _ _ _ _ H1) as (c1 & -> & B1 & R1 & G1 & Bl1 & A1).
    destruct (fromHex_of_digits hex2 _ _ _ _ H2) as (c2 & -> & B2 & R2 & G2 & Bl2 & A2).
    eexists. split; [reflexivity|].
    cbn [ColorPair.fromColors ColorPair.constructor ColorPair.name ColorPair.id
         ColorPair.primaryColor ColorPair.secondaryColor].
    split_and!; auto.
Qed.

Lemma ColorPair_fromHex_reads_both_red_and_blue :
  exists pair,
    ColorPair.fromHex "#FF0000AA" "#0000FF80" "Red and Blue" = Return pair /\
    ColorPair.id pair = "red and blue"%string /\
    to_Z (Color.a (ColorPair.primaryColor pair)) = Some 170 /\
    to_Z (Color.a (ColorPair.secondaryColor pair)) = Some 128.
Proof.
  destruct (proj2 (proj2 (ColorPair_fromHex_reads_both "#FF0000AA" "#0000FF80" "Red and Blue"))
              255 0 0 170 0 0 255 128 eq_refl eq_refl)
    as (pair & Hp & _ & Hid & _ & _ & _ & _ & _ & Ha1 & _ & _ & _ & Ha2).
  exists pair. split; [exact Hp|]. split; [exact Hid|]. split; assumption.
Defined.

(** X15. The ten predefined pairs are built without a throw; their names are
    the keys of the object, their ids are pairwise distinct, and their
    colours are opaque with integer channels of [0, 255]. *)
Theorem colorPairs_are_built :
  exists pairs,
    ColorPair.colorPairs = Return pairs /\
    ColorPair.name <$> pairs
    = ["Classic"; "Ocean"; "Sunset"; "Lavender"; "Mint"; "Berry"; "Steel"; "Desert";
       "Electric"; "Cosmic"]%string /\
    ColorPair.id <$> pairs
    = ["classic"; "ocean"; "sunset"; "lavender"; "mint"; "berry"; "steel"; "desert";
       "electric"; "cosmic"]%string /\
    NoDup (ColorPair.id <$> pairs) /\
    Forall (fun pair =>
              byte_color (ColorPair.primaryColor pair) = true /\
              byte_color (ColorPair.secondaryColor pair) = true /\
              to_Z (Color.a (ColorPair.primaryColor pair)) = Some 255 /\
              to_Z (Color.a (ColorPair.secondaryColor pair)) = Some 255) pairs.
Proof.
  eexists. split; [vm_compute; reflexivity|].
  split; [reflexivity|]. split; [reflexivity|]. split.
  - apply (bool_decide_unpack _). vm_compute. exact I.
  - repeat constructor.
Qed.

(** X16. The eleven predefined colours are what the constructor returns for
    their literals: none throws, none is changed by the reduction modulo
    256; all are opaque but [Transparent], and no two are the same. *)
Theorem Colors_are_built :
  (fun '(r, g, b, a) => Color.constructor (of_Z r) (of_Z g) (of_Z b) (of_Z a))
    <$> [(0, 0, 0, 255); (255, 255, 255, 255); (255, 0, 0, 255); (0, 255, 0, 255);
         (0, 0, 255, 255); (255, 255, 0, 255); (255, 0, 255, 255); (0, 255, 255, 255);
         (0, 0, 0, 0); (128, 128, 128, 255); (64, 64, 64, 255)]
  = Return <$> Colors.all.*2 /\
  Forall (fun c => byte_color c = true) Colors.all.*2 /\
  Forall (fun '(key, c) => to_Z (Color.a c) = Some (if String.eqb key "Transparent" then 0 else 255))
         Colors.all /\
  NoDup Colors.all.*2.
Proof.
  split; [reflexivity|]. split; [repeat constructor|]. split; [repeat constructor|].
  apply (bool_decide_unpack _). vm_compute. exact I.
Qed.

Section ToStringFacts.

Lemma pretty_N_char_decimal k : is_decimal (pretty_N_char k) = true.
Proof. unfold pretty_N_char. repeat case_match; reflexivity. Qed.

Lemma pretty_N_go_decimal x : forall s,
  all_decimal s = true -> all_decimal (pretty_N_go x s) = true.
Proof.
  induction (N.lt_wf_0 x) as [x _ IH]. intros s Hs.
  destruct (decide (x = 0)%N) as [->|Hx]; [assumption|].
  rewrite pretty_N_go_step by lia. apply IH.
  - apply N.div_lt; lia.
  - cbn [all_decimal]. rewrite pretty_N_char_decimal, Hs. reflexivity.
Qed.

Lemma pretty_Z_decimal (z : Z) : all_decimal (pretty z) = true.
Proof.
  assert (HN : forall n : N, all_decimal (pretty n) = true).
  { intros n. unfold pretty, pretty_N. destruct (decide (n = 0)%N); [reflexivity|].
    apply pretty_N_go_decimal. reflexivity. }
  destruct z as [|p|p]; [reflexivity | apply HN |].
  change (all_decimal (String "-" (pretty (Npos p))) = true).
  cbn [all_decimal]. rewrite (HN (Npos p)). reflexivity.
Qed.

(** Decimal integers followed by a separator are read back in one way. *)
Lemma decimal_split (sep : ascii) (u : string) : forall v s t,
  is_decimal sep = false -> all_decimal u = true -> all_decimal v = true ->
  u +:+ String sep s = v +:+ String sep t -> u = v /\ s = t.
Proof.
  induction u as [|c u IH]; intros [|c' v] s t Hsep Hu Hv E; cbn in E.
  - injection E as ->. auto.
  - injection E as <- _. cbn in Hv. rewrite Hsep in Hv. discriminate.
  - injection E as -> _. cbn in Hu. rewrite Hsep in Hu. discriminate.
  - injection E as <- E. cbn in Hu, Hv.
    apply andb_prop in Hu as [_ Hu]. apply andb_prop in Hv as [_ Hv].
    destruct (IH v s t Hsep Hu Hv E) as [-> ->]. auto.
Qed.

Lemma number_to_string_byte x :
  is_byte x = true ->
  exists z, to_Z x = Some z /\ 0 <= z <= 255 /\ number_to_string x = Some (pretty z).
Proof.
  intros H. apply is_byte_inv in H as (_ & z & Hz & Rz).
  exists z. split; [assumption|]. split; [assumption|].
  destruct x as [s| | |s m e]; try discriminate.
  - injection Hz as <-. reflexivity.
  - unfold number_to_string. rewrite Hz.
    destruct (Z.ltb_spec (Z.abs z) (2 ^ 53)) as [|Hbig]; [reflexivity|].
    assert (255 < 2 ^ 53) by reflexivity. lia.
Qed.

End ToStringFacts.

(** X9. [toString] of a colour with integer channels of [0, 255] is
    "rgba(r, g, b, a)" with the channels in decimal, and two such colours
    with the same string have the same channels. *)
Theorem toString_shows_the_channels :
  forall c1 c2 : Color.t,
    byte_color c1 = true -> byte_color c2 = true ->
    (exists r g b a,
        to_Z (Color.r c1) = Some r /\ to_Z (Color.g c1) = Some g /\
        to_Z (Color.b c1) = Some b /\ to_Z (Color.a c1) = Some a /\
        Color.toString c1
        = Some ("rgba(" +:+ pretty r +:+ ", " +:+ pretty g +:+ ", " +:+ pretty b
                +:+ ", " +:+ pretty a +:+ ")")) /\
    (Color.toString c1 = Color.toString c2 ->
     to_Z (Color.r c1) = to_Z (Color.r c2) /\ to_Z (Color.g c1) = to_Z (Color.g c2) /\
     to_Z (Color.b c1) = to_Z (Color.b c2) /\ to_Z (Color.a c1) = to_Z (Color.a c2)).
Proof.
  intros c1 c2 H1 H2.
  apply byte_color_inv in H1 as (R1 & G1 & B1 & A1).
  apply byte_color_inv in H2 as (R2 & G2 & B2 & A2).
  apply number_to_string_byte in R1 as (r1 & Zr1 & _ & Sr1), G1 as (g1 & Zg1 & _ & Sg1).
  apply number_to_string_byte in B1 as (b1 & Zb1 & _ & Sb1), A1 as (a1 & Za1 & _ & Sa1).
  apply number_to_string_byte in R2 as (r2 & Zr2 & _ & Sr2), G2 as (g2 & Zg2 & _ & Sg2).
  apply number_to_string_byte in B2 as (b2 & Zb2 & _ & Sb2), A2 as (a2 & Za2 & _ & Sa2).
  assert (T1 : Color.toString c1
               = Some ("rgba(" +:+ pretty r1 +:+ ", " +:+ pretty g1 +:+ ", " +:+ pretty b1
                       +:+ ", " +:+ pretty a1 +:+ ")"))
    by (unfold Color.toString; rewrite Sr1, Sg1, Sb1, Sa1; reflexivity).
  assert (T2 : Color.toString c2
               = Some ("rgba(" +:+ pretty r2 +:+ ", " +:+ pretty g2 +:+ ", " +:+ pretty b2
                       +:+ ", " +:+ pretty a2 +:+ ")"))
    by (unfold Color.toString; rewrite Sr2, Sg2, Sb2, Sa2; reflexivity).
  split; [exists r1, g1, b1, a1; auto|].
  rewrite T1, T2, Zr1, Zg1, Zb1, Za1, Zr2, Zg2, Zb2, Za2. intros [= E].
  apply (decimal_split ",") in E as [Er E]; try apply pretty_Z_decimal; [|reflexivity].
  injection E as E.
  apply (decimal_split ",") in E as [Eg E]; try apply pretty_Z_decimal; [|reflexivity].
  injection E as E.
  apply (decimal_split ",") in E as [Eb E]; try apply pretty_Z_decimal; [|reflexivity].
  injection E as E.
  apply (decimal_split ")") in E as [Ea _]; try apply pretty_Z_decimal; [|reflexivity].
  apply (inj pretty) in Er, Eg, Eb, Ea. subst. auto.
Qed.

Lemma toString_shows_the_channels_example :
  let c := Colors.rgba 255 128 64 200 in
  byte_color c = true /\
  Color.toString c = Some "rgba(255, 128, 64, 200)"%string.
Proof.
  intros c. split; [reflexivity|].
  destruct (proj1 (toString_shows_the_channels c c eq_refl eq_refl))
    as (r & g & b & a & Hr & Hg & Hb & Ha & Hs).
  injection Hr as <-. injection Hg as <-. injection Hb as <-. injection Ha as <-.
  exact Hs.
Defined.

(** ** Pixels, further *)

(** X17. In a grid of at most 2^53 columns and 2^53 rows, [nextPixel] is the
    successor of the row-major order. At a pixel inside the grid the sums
    x + 1 and y + 1 of numbers are the integers x + 1 and y + 1;
    [nextPixel] adds one to the flat index and stays inside; it is undefined
    exactly at the last pixel. The bound is needed: the sum of the numbers
    2^53 and 1 is 2^53. *)
Theorem nextPixel_is_successor :
  forall (W H : Z) (p : Pixel.t),
    W <= 2 ^ 53 -> H <= 2 ^ 53 ->
    Spec.in_bounds W H p ->
    add (of_Z (Pixel.x p)) (of_Z 1) = of_Z (Pixel.x p + 1) /\
    add (of_Z (Pixel.y p)) (of_Z 1) = of_Z (Pixel.y p + 1) /\
    (Pixel.nextPixel p W H = None <-> p = Pixel.Build (W - 1) (H - 1)) /\
    (forall q, Pixel.nextPixel p W H = Some q ->
               Spec.in_bounds W H q /\
               Pixel.y q * W + Pixel.x q = Pixel.y p * W + Pixel.x p + 1) /\
    add (of_Z (2 ^ 53)) (of_Z 1) = of_Z (2 ^ 53).
Proof.
  intros W H [x y] HW HH [Hx Hy]. cbn [Pixel.x Pixel.y] in *.
  split; [apply add_one_exact; lia|]. split; [apply add_one_exact; lia|].
  split; [|split; [|vm_compute; reflexivity]].
  - unfold Pixel.nextPixel. cbn [Pixel.x Pixel.y].
    destruct (Z.geb_spec (x + 1) W) as [Hw|Hw].
    + destruct (Z.geb_spec (y + 1) H) as [Hh|Hh].
      * split; [intros _; f_equal; lia | reflexivity].
      * split; [discriminate | intros [= -> ->]; lia].
    + split; [discriminate | intros [= -> ->]; lia].
  - unfold Pixel.nextPixel. cbn [Pixel.x Pixel.y].
    destruct (Z.geb_spec (x + 1) W) as [Hw|Hw].
    + destruct (Z.geb_spec (y + 1) H) as [Hh|Hh]; [discriminate|].
      intros q [= <-]. unfold Spec.in_bounds. cbn [Pixel.x Pixel.y]. nia.
    + intros q [= <-]. unfold Spec.in_bounds. cbn [Pixel.x Pixel.y]. nia.
Qed.

Lemma nextPixel_is_successor_3_by_2 :
  Spec.in_bounds 3 2 (Pixel.Build 2 0) /\
  add (of_Z 2) (of_Z 1) = of_Z 3 /\
  Pixel.nextPixel (Pixel.Build 2 0) 3 2 = Some (Pixel.Build 0 1) /\
  Spec.in_bounds 3 2 (Pixel.Build 0 1) /\
  1 * 3 + 0 = 0 * 3 + 2 + 1.
Proof.
  assert (Hp : Spec.in_bounds 3 2 (Pixel.Build 2 0)) by (unfold Spec.in_bounds; cbn; lia).
  destruct (nextPixel_is_successor 3 2 (Pixel.Build 2 0)
              ltac:(vm_compute; discriminate) ltac:(vm_compute; discriminate) Hp)
    as (Hadd & _ & _ & Hnext & _).
  split; [exact Hp|]. split; [exact Hadd|]. split; [reflexivity|].
  exact (Hnext (Pixel.Build 0 1) eq_refl).
Defined.

(** ** Images, further *)

Section ImageFurther.

#[local] Instance pixel_eq_dec : EqDecision Pixel.t.
Proof. solve_decision. Defined.

(** The image after [updatePixel (f p)] at each pixel of a list. *)
Lemma repaint_dimensions (f : Pixel.t -> Color.t) (l : list Pixel.t) : forall this,
  Image.width (foldl (fun s p => Image.updatePixel s p (f p)) this l) = Image.width this /\
  Image.height (foldl (fun s p => Image.updatePixel s p (f p)) this l) = Image.height this.
Proof.
  induction l as [|q l IH]; intros this; [split; reflexivity|].
  cbn [foldl]. destruct (IH (Image.updatePixel this q (f q))) as [-> ->].
  split; reflexivity.
Qed.

Lemma repaint_getPixel (f : Pixel.t -> Color.t) (l : list Pixel.t) : forall this p,
  Forall (Spec.in_bounds (Image.width this) (Image.height this)) l ->
  Spec.in_bounds (Image.width this) (Image.height this) p ->
  Image.getPixel (foldl (fun s p => Image.updatePixel s p (f p)) this l) p
  = if decide (p ∈ l) then Some (f p) else Image.getPixel this p.
Proof.
  induction l as [|q l IH]; intros this p Hl Hp.
  - destruct (decide (p ∈ [])) as [Hin|_]; [inversion Hin | reflexivity].
  - apply Forall_cons in Hl as [Hq Hl]. cbn [foldl].
    rewrite IH by assumption.
    destruct (decide (p ∈ l)) as [Hin|Hout].
    + rewrite decide_True by (right; assumption). reflexivity.
    + destruct (decide (p = q)) as [->|Hne].
      * rewrite decide_True by left.
        unfold Image.getPixel, Image.updatePixel. cbn [Image.pixels Image.width].
        apply array_get_set_eq.
      * rewrite decide_False by (intros [->|?]%elem_of_cons; tauto).
        unfold Image.getPixel, Image.updatePixel. cbn [Image.pixels Image.width].
        apply array_get_set_ne. intros E. apply Hne. symmetry.
        apply (flat_index_inj this); assumption.
Qed.

Lemma repaint_length (f : Pixel.t -> Color.t) (l : list Pixel.t) : forall this,
  Forall (fun p => Spec.flat_index this p < array_length (Image.pixels this)) l ->
  array_length (Image.pixels (foldl (fun s p => Image.updatePixel s p (f p)) this l))
  = array_length (Image.pixels this).
Proof.
  induction l as [|q l IH]; intros this Hl; [reflexivity|].
  apply Forall_cons in Hl as [Hq Hl]. cbn [foldl].
  rewrite IH; [apply updatePixel_length; assumption|].
  rewrite updatePixel_length by assumption.
  eapply Forall_impl; [exact Hl|]. intros p Hp. exact Hp.
Qed.







Lemma trunc_integer v z : to_Z v = Some z -> trunc v = z.
Proof.
  destruct v as [s| | |s m e]; cbn [to_Z trunc]; try discriminate.
  - intros [= <-]. reflexivity.
  - destruct (0 <=? e); [intros [= <-]; reflexivity|].
    destruct (Zpos m mod 2 ^ (- e) =? 0); [intros [= <-]; reflexivity | discriminate].
Qed.

Lemma wrap256_mod z : Spec.wrap256 z = z mod 256.
Proof.
  unfold Spec.wrap256.
  pose proof (Z.rem_bound_abs z 256 ltac:(lia)) as Hb.
  pose proof (Z.rem_mod_eq_0 z 256 ltac:(lia)) as _.
  assert (Hr : Z.rem z 256 = z - 256 * (z ÷ 256)) by (pose proof (Z.quot_rem' z 256); lia).
  rewrite Z.rem_mod_nonneg by lia.
  rewrite Hr. replace (z - 256 * (z ÷ 256) + 256) with (z + (1 - z ÷ 256) * 256) by ring.
  apply Z.mod_add. lia.
Qed.

End ImageFurther.



(** X19. [checkBounds] returns exactly for the pixels inside the grid, and in an
    image just built each of them has the colour the calculator gave it. *)
Theorem checkBounds_accepts_the_grid :
  forall (W H : Z) (colorCalculator : option (Pixel.t -> Color.t)) (fuel : nat)
         (this : Image.t) (p : Pixel.t),
    Image.constructor fuel W H colorCalculator = Some this ->
    (Image.enough W H <= fuel)%nat ->
    (Image.checkBounds this p = Return tt <-> Spec.in_bounds W H p) /\
    (Image.checkBounds this p = Return tt ->
     Image.getPixel this p = Some (default (fun _ => Colors.White) colorCalculator p)).
Proof.
  intros W H f fuel this p Hnew Hfuel.
  rewrite constructor_pixels in Hnew by assumption. injection Hnew as <-.
  assert (Hiff : Image.checkBounds
                   (Image.Build W H
                      (mkArray (Some ∘ default (fun _ => Colors.White) f
                         <$> (Spec.pixel_at (Z.max 1 W) <$> seqZ 0 (Z.max 1 W * Z.max 1 H))) ∅)) p
                 = Return tt <-> Spec.in_bounds W H p).
  { unfold Image.checkBounds, Spec.in_bounds. cbn [Image.width Image.height].
    destruct (Z.ltb_spec (Pixel.x p) 0), (Z.geb_spec (Pixel.x p) W),
             (Z.ltb_spec (Pixel.y p) 0), (Z.geb_spec (Pixel.y p) H);
      cbn [orb]; split; try discriminate; try lia; reflexivity. }
  split; [exact Hiff|]. intros Hok. apply Hiff in Hok as [Hx Hy].
  unfold Image.getPixel. cbn [Image.width Image.pixels].
  rewrite array_get_element
    by (unfold array_length; cbn [slots]; rewrite !length_fmap, length_seqZ; nia).
  cbn [slots].
  rewrite !Z.max_r by lia.
  rewrite !list_lookup_fmap, lookup_seqZ_lt by nia. cbn.
  rewrite Z.add_0_l, Z2Nat.id by nia. rewrite pixel_at_index by lia.
  destruct p; reflexivity.
Qed.

Lemma checkBounds_accepts_the_grid_3_by_2 :
  exists this,
    Image.constructor 7 3 2 None = Some this /\
    Image.checkBounds this (Pixel.Build 2 1) = Return tt /\
    Image.getPixel this (Pixel.Build 2 1) = Some Colors.White.
Proof.
  eexists. split; [reflexivity|]. split; [reflexivity|].
  apply (proj2 (checkBounds_accepts_the_grid 3 2 None 7%nat _ (Pixel.Build 2 1) eq_refl
                  ltac:(vm_compute; lia))).
  reflexivity.
Defined.





(** X22. A loop over an image that repaints each pixel it visits (the
    iterator reads the size once, the stores leave it alone) visits every
    pixel of the grid: afterwards each one has its new colour, and the
    size and the length of the sequence are the same. *)
Theorem repaint_during_iteration :
  forall (this : Image.t) (f : Pixel.t -> Color.t) (fuel : nat),
    1 <= Image.width this -> 1 <= Image.height this ->
    (Image.enough (Image.width this) (Image.height this) <= fuel)%nat ->
    exists this',
      Image.for_of fuel (Image.iterator this)
        (fun pixel this => Image.updatePixel this pixel (f pixel)) this = Some this' /\
      Image.width this' = Image.width this /\
      Image.height this' = Image.height this /\
      (forall p, Spec.in_bounds (Image.width this) (Image.height this) p ->
                 Image.getPixel this' p = Some (f p)) /\
      (array_length (Image.pixels this) = Image.width this * Image.height this ->
       array_length (Image.pixels this') = Image.width this * Image.height this).
Proof.
  intros this f fuel HW HH Hfuel.
  eexists. split.
  { apply (for_of_all (Image.width this) (Image.height this)); auto. }
  rewrite !Z.max_r by lia.
  rewrite <- row_major_positions by lia.
  assert (Hall : Forall (Spec.in_bounds (Image.width this) (Image.height this))
                   (Spec.row_major (Image.width this) (Image.height this))).
  { apply Forall_forall. intros q Hq. apply row_major_elem_of in Hq; [assumption | lia | lia]. }
  destruct (repaint_dimensions f (Spec.row_major (Image.width this) (Image.height this)) this)
    as [Hw Hh].
  split_and!; [exact Hw | exact Hh | |].
  - intros p Hp. rewrite repaint_getPixel by assumption.
    rewrite decide_True; [reflexivity|].
    apply row_major_elem_of; [lia | lia | assumption].
  - intros Hlen. rewrite repaint_length; [assumption|].
    eapply Forall_impl; [exact Hall|]. intros q Hq. rewrite Hlen.
    apply flat_index_in_bounds. assumption.
Qed.

Lemma repaint_during_iteration_3_by_2 :
  let this := Image.Build 3 2 (mkArray (replicate 6 (Some Colors.White)) ∅) in
  exists this',
    Image.for_of 7 (Image.iterator this)
      (fun pixel this => Image.updatePixel this pixel Colors.Red) this = Some this' /\
    Image.getPixel this' (Pixel.Build 2 1) = Some Colors.Red.
Proof.
  intros this.
  destruct (repaint_during_iteration this (fun _ => Colors.Red) 7%nat
              ltac:(vm_compute; discriminate) ltac:(vm_compute; discriminate)
              ltac:(vm_compute; lia))
    as (this' & Hloop & _ & _ & Hget & _).
  exists this'. split; [exact Hloop|].
  apply Hget. unfold Spec.in_bounds, this. cbn. lia.
Defined.



(** X24. The bytes of a colour built by [new Color(r, g, b, a)] from integers
    of any sign, in a cell of the sequence (the flat index of the pixel is
    below its length): [toUint8Array] writes their negative-safe residues
    modulo 256, so -1 is written as 255. *)
Theorem exported_bytes_are_residues :
  forall (this : Image.t) (p : Pixel.t) (r g b a : number) (zr zg zb za : Z) (c : Color.t),
    0 <= Image.width this -> 0 <= Image.height this ->
    Spec.in_bounds (Image.width this) (Image.height this) p ->
    Pixel.y p * Image.width this + Pixel.x p < array_length (Image.pixels this) ->
    is_binary64 r = true -> is_binary64 g = true ->
    is_binary64 b = true -> is_binary64 a = true ->
    to_Z r = Some zr -> to_Z g = Some zg -> to_Z b = Some zb -> to_Z a = Some za ->
    Color.constructor r g b a = Return c ->
    Image.getPixel this p = Some c ->
    exists res,
      Image.toUint8Array this = Return res /\
      let offset := 4 * (Pixel.y p * Image.width this + Pixel.x p) in
      res !! Z.to_nat offset = Some (Spec.wrap256 zr) /\
      res !! Z.to_nat (offset + 1) = Some (Spec.wrap256 zg) /\
      res !! Z.to_nat (offset + 2) = Some (Spec.wrap256 zb) /\
      res !! Z.to_nat (offset + 3) = Some (Spec.wrap256 za).
Proof.
  intros this p r g b a zr zg zb za c HW HH Hp Hcell Vr Vg Vb Va Zr Zg Zb Za Hc Hget.
  destruct (constructor_integer_channels r g b a zr zg zb za)
    as (c' & Hc' & Cr & Cg & Cb & Ca); try assumption.
  rewrite Hc in Hc'. injection Hc' as <-.
  unfold Image.toUint8Array, new_Uint8Array.
  destruct (Z.ltb_spec (Image.width this * Image.height this * 4) 0) as [|_]; [nia|].
  cbn [bind]. eexists. split; [reflexivity|]. unfold forEach.
  pose proof (flat_index_in_bounds this p Hp) as Hi. unfold Spec.flat_index in Hi.
  set (index := Pixel.y p * Image.width this + Pixel.x p) in *.
  cbv zeta. set (offset := 4 * index).
  unfold Image.getPixel in Hget. fold index in Hget.
  rewrite array_get_element in Hget by lia.
  destruct (slots (Image.pixels this) !! Z.to_nat index) as [[c'|]|] eqn:Hslot;
    try discriminate. injection Hget as ->.
  destruct (forEach_store_written (slots (Image.pixels this)) (Z.to_nat index) 0
              (replicate (Z.to_nat (Image.width this * Image.height this * 4)) 0) c
              ltac:(lia) Hslot) as (Br & Bg & Bb & Ba).
  { rewrite length_replicate. lia. }
  replace (0 + Z.of_nat (Z.to_nat index)) with index in * by lia.
  replace (index * 4) with offset in * by (unfold offset; lia).
  assert (Hbyte : forall v z, to_Z v = Some (Z.rem z 256) -> to_uint8 v = Spec.wrap256 z).
  { intros v z Hv. unfold to_uint8. rewrite (trunc_integer _ _ Hv), wrap256_mod.
    pose proof (Z.quot_rem' z 256) as E.
    replace (Z.rem z 256) with (z + (- (z ÷ 256)) * 256) by lia.
    apply Z.mod_add. lia. }
  rewrite Br, Bg, Bb, Ba.
  rewrite (Hbyte _ _ Cr), (Hbyte _ _ Cg), (Hbyte _ _ Cb), (Hbyte _ _ Ca). auto.
Qed.

Lemma exported_bytes_are_residues_minus_one :
  let c := Colors.rgba (-1) 300 (-256) 255 in
  let this := Image.Build 1 1 (mkArray [Some c] ∅) in
  Color.constructor (of_Z (-1)) (of_Z 300) (of_Z (-256)) (of_Z 255) = Return c /\
  exists res,
    Image.toUint8Array this = Return res /\
    res !! 0%nat = Some 255 /\ res !! 1%nat = Some 44 /\
    res !! 2%nat = Some 0 /\ res !! 3%nat = Some 255.
Proof.
  intros c this. split; [reflexivity|].
  assert (Hp : Spec.in_bounds (Image.width this) (Image.height this) (Pixel.Build 0 0))
    by (unfold Spec.in_bounds; cbn; lia).
  destruct (exported_bytes_are_residues this (Pixel.Build 0 0)
              (of_Z (-1)) (of_Z 300) (of_Z (-256)) (of_Z 255) (-1) 300 (-256) 255 c
              ltac:(vm_compute; discriminate) ltac:(vm_compute; discriminate) Hp
              eq_refl eq_refl eq_refl eq_refl eq_refl eq_refl eq_refl eq_refl eq_refl
              eq_refl eq_refl)
    as (res & Hres & H0 & H1 & H2 & H3).
  exists res. split; [exact Hres|]. split_and!; assumption.
Defined.

(** ** Compositing, further *)

Section RoundValue.

(** [Math.round] of a non-negative number below 255.5: the integer it
    gives, from the scaled value. *)
Lemma round_value Q lo hi :
  is_nonneg lo hi Q = true -> -200 <= lo ->
  2 * sv Q < 511 * 2 ^ 200 ->
  is_byte (round Q) = true /\
  to_Z (round Q) = Some ((2 * sv Q + 2 ^ 200) / (2 * 2 ^ 200)).
Proof.
  intros HQ Hlo Hsv. split; [apply (round_small Q lo hi); assumption|].
  apply is_nonneg_inv in HQ as [ZQ|NQ].
  - apply is_zero_inv in ZQ as [s ->]. reflexivity.
  - apply is_normal_inv in NQ as (m & e & -> & Dm & He).
    pose proof (mantissa_53 m Dm) as Hm. cbn [sv] in *.
    pose proof (pow2_pos (e + 200) ltac:(lia)) as Pe.
    assert (He0 : e < -44).
    { destruct (Z_lt_le_dec e (-44)) as [|Hge]; [assumption|]. exfalso.
      assert (2 ^ 156 <= 2 ^ (e + 200)) by (apply Z.pow_le_mono_r; lia).
      change (2 ^ 200) with (2 ^ 44 * 2 ^ 156) in Hsv.
      assert (2 * 2 ^ 52 * 2 ^ 156 <= 2 * Zpos m * 2 ^ (e + 200)) by nia.
      assert (511 * 2 ^ 44 < 2 * 2 ^ 52) by reflexivity.
      assert (0 < 2 ^ 156) by reflexivity. nia. }
    unfold round. destruct (Z.leb_spec 0 e); [lia|]. cbn [cond_Zopp].
    rewrite Z.shiftr_div_pow2 by lia.
    pose proof (pow2_pos (- e) ltac:(lia)) as Pn.
    assert (E : 2 ^ 200 = 2 ^ (- e) * 2 ^ (e + 200))
      by (rewrite <- Z.pow_add_r by lia; f_equal; lia).
    assert (Hm2 : 2 * Zpos m < 511 * 2 ^ (- e)) by (rewrite E in Hsv; nia).
    replace (1 - e) with (1 + - e) by lia. rewrite Z.pow_add_r by lia.
    change (2 ^ 1) with 2. rewrite Pos2Z.inj_xO.
    assert (Ek : (2 * (Zpos m * 2 ^ (e + 200)) + 2 ^ 200) / (2 * 2 ^ 200)
                 = (2 * Zpos m + 2 ^ (- e)) / (2 * 2 ^ (- e))).
    { rewrite E at 1 2.
      replace (2 * (Zpos m * 2 ^ (e + 200)) + 2 ^ (- e) * 2 ^ (e + 200))
        with ((2 * Zpos m + 2 ^ (- e)) * 2 ^ (e + 200)) by ring.
      replace (2 * (2 ^ (- e) * 2 ^ (e + 200))) with (2 * 2 ^ (- e) * 2 ^ (e + 200)) by ring.
      apply Z.div_mul_cancel_r; lia. }
    rewrite Ek.
    assert (Hk : 0 <= (2 * Zpos m + 2 ^ (- e)) / (2 * 2 ^ (- e)) <= 255).
    { split; [apply Z.div_pos; lia|].
      assert ((2 * Zpos m + 2 ^ (- e)) / (2 * 2 ^ (- e)) < 256); [|lia].
      apply Z.div_lt_upper_bound; lia. }
    destruct ((2 * Zpos m + 2 ^ (- e)) / (2 * 2 ^ (- e))) as [|kp|kp]; try lia.
    + reflexivity.
    + cbn [binary_normalize].
      destruct (binary_round_integer false kp) as [_ HZ]; [lia|]. exact HZ.
Qed.

(** The integer is [k] when the value is within a half of [k]. *)
Lemma round_within Q lo hi k :
  is_nonneg lo hi Q = true -> -200 <= lo -> 0 <= k <= 255 ->
  2 * 2 ^ 200 * k <= 2 * sv Q + 2 ^ 200 < 2 * 2 ^ 200 * (k + 1) ->
  is_byte (round Q) = true /\ to_Z (round Q) = Some k.
Proof.
  intros HQ Hlo Hk [H1 H2].
  destruct (round_value Q lo hi HQ Hlo) as [Hb Hz].
  { assert (0 < 2 ^ 200) by reflexivity. nia. }
  split; [assumption|]. rewrite Hz. f_equal.
  symmetry. apply Z.div_unique with (r := 2 * sv Q + 2 ^ 200 - 2 * 2 ^ 200 * k).
  - left. assert (0 < 2 ^ 200) by reflexivity. lia.
  - ring.
Qed.

(** At least [k] when the value is at least [k] less a half. *)
Lemma round_at_least Q lo hi k :
  is_nonneg lo hi Q = true -> -200 <= lo ->
  2 * sv Q < 511 * 2 ^ 200 ->
  2 * 2 ^ 200 * k <= 2 * sv Q + 2 ^ 200 ->
  exists k', to_Z (round Q) = Some k' /\ k <= k' <= 255.
Proof.
  intros HQ Hlo Hhi Hk.
  destruct (round_value Q lo hi HQ Hlo Hhi) as [Hb Hz].
  eexists. split; [exact Hz|]. split.
  - apply Z.div_le_lower_bound; [reflexivity|]. lia.
  - apply is_byte_inv in Hb as (_ & k' & Hk' & Rk'). rewrite Hz in Hk'.
    injection Hk' as ->. lia.
Qed.


(** The quotient of two normal numbers, from below. *)
Lemma div_normal_below x y lo1 hi1 lo2 hi2 :
  is_normal lo1 hi1 x = true -> is_normal lo2 hi2 y = true ->
  -200 <= lo1 -> -200 <= lo2 -> hi1 <= 200 -> hi2 <= 200 -> -200 <= lo1 - hi2 - 53 ->
  sv x * 2 ^ 200 * (2 ^ 52 - 1) <= sv (div x y) * sv y * (2 ^ 52 + 1).
Proof.
  intros Hx Hy L1 L2 U1 U2 L12.
  apply is_normal_inv in Hx as (mx & ex & -> & Dx & Ex).
  apply is_normal_inv in Hy as (my & ey & -> & Dy & Ey).
  unfold div, SFdiv, SFdiv_core_binary, Zdigits2, fexp, emin, prec, emax. cbn [xorb].
  rewrite Dx, Dy.
  replace (Z.min (Z.max (53 + ex - (53 + ey) - 53) (3 - 1024 - 53)) (ex - ey))
    with (ex - ey - 53) by lia.
  replace (ex - ey - (ex - ey - 53)) with 53 by lia.
  cbv beta iota.
  apply mantissa_53 in Dx, Dy.
  assert (Hsh : Z.shiftl (Zpos mx) 53 = Zpos mx * 2 ^ 53) by (apply Z.shiftl_mul_pow2; lia).
  rewrite Hsh.
  pose proof (Z.div_mod (Zpos mx * 2 ^ 53) (Zpos my) ltac:(lia)) as Hdm.
  pose proof (Z.mod_pos_bound (Zpos mx * 2 ^ 53) (Zpos my) ltac:(lia)) as Hr.
  unfold Z.div, Z.modulo in Hdm, Hr.
  destruct (Z.div_eucl (Zpos mx * 2 ^ 53) (Zpos my)) as [q r]. cbn [fst snd] in Hdm, Hr.
  assert (Hq : 2 ^ 52 <= q < 2 ^ 54).
  { split.
    - destruct (Z_le_gt_dec (2 ^ 52) q) as [|Hgt]; [assumption|]. exfalso.
      assert (Zpos my * q <= Zpos my * (2 ^ 52 - 1)) by nia.
      change (2 ^ 53) with (2 * 2 ^ 52) in *. nia.
    - destruct (Z_lt_le_dec q (2 ^ 54)) as [|Hge]; [assumption|]. exfalso.
      assert (Zpos my * 2 ^ 54 <= Zpos my * q) by nia.
      change (2 ^ 54) with (4 * 2 ^ 52) in *. change (2 ^ 53) with (2 * 2 ^ 52) in *. nia. }
  destruct q as [|qp|qp]; try lia.
  remember (Zpos (digits2_pos qp)) as d eqn:Ed.
  assert (Hd : 53 <= d <= 54).
  { destruct (digits2_pos_bounds qp) as [Dlo Dhi]. rewrite <- Ed in Dlo, Dhi.
    assert (0 < d) by lia.
    split.
    - destruct (Z_le_gt_dec 53 d) as [|Hgt]; [assumption|]. exfalso.
      assert (2 ^ d <= 2 ^ 52) by (apply Z.pow_le_mono_r; lia). lia.
    - destruct (Z_le_gt_dec d 54) as [|Hgt]; [assumption|]. exfalso.
      assert (2 ^ 54 <= 2 ^ (d - 1)) by (apply Z.pow_le_mono_r; lia). lia. }
  change (binary_round_aux 53 1024) with (binary_round_aux prec emax).
  destruct (binary_round_aux_bound false qp (ex - ey - 53) (new_location (Zpos my) r))
    as (m' & e' & M1 & -> & Dm & He' & HM1 & Hlo & Hhi); try lia.
  rewrite <- Ed in *.
  remember (d - 53) as k eqn:Ek. remember (ex - ey - 53 + k) as e1 eqn:Ee1.
  rewrite (sv_rounded false m' e' e1 M1) by (try assumption; lia).
  cbn [sv].
  assert (Hulp : Zpos qp * (2 ^ 52 - 1) <= M1 * 2 ^ k * 2 ^ 52).
  { apply ulp_relative_below; [lia | | lia].
    destruct (digits2_pos_bounds qp) as [Dlo _]. rewrite <- Ed in Dlo.
    replace (k + 52) with (d - 1) by lia. exact Dlo. }
  remember (ex - 53 + 400) as f eqn:Ef.
  pose proof (pow2_pos f ltac:(lia)) as Ha.
  replace (M1 * 2 ^ (e1 + 200) * (Zpos my * 2 ^ (ey + 200)) * (2 ^ 52 + 1))
    with (M1 * 2 ^ k * (2 ^ 52 + 1) * Zpos my * 2 ^ f).
  2:{ replace f with (e1 + 200 - k + (ey + 200)) by lia.
      rewrite (Z.pow_add_r 2 (e1 + 200 - k) (ey + 200)) by lia.
      replace (e1 + 200) with (k + (e1 + 200 - k)) at 2 by lia.
      rewrite (Z.pow_add_r 2 k (e1 + 200 - k)) by lia. ring. }
  replace (Zpos mx * 2 ^ (ex + 200) * 2 ^ 200 * (2 ^ 52 - 1))
    with (Zpos mx * 2 ^ 53 * (2 ^ 52 - 1) * 2 ^ f).
  2:{ rewrite <- (Z.mul_assoc (Zpos mx) (2 ^ (ex + 200))), <- (Z.pow_add_r 2 (ex + 200)) by lia.
      replace (ex + 200 + 200) with (53 + f) by lia.
      rewrite (Z.pow_add_r 2 53 f) by lia. ring. }
  apply Z.mul_le_mono_nonneg_r; [lia|].
  (* my * (qp + 1) > mx * 2^53 and qp + 1 <= qp * (1 + 2^-52) *)
  assert (H1 : Zpos mx * 2 ^ 53 * 2 ^ 52 <= Zpos my * Zpos qp * (2 ^ 52 + 1)).
  { assert (Zpos mx * 2 ^ 53 <= Zpos my * Zpos qp + Zpos my) by lia.
    assert (Zpos my * 2 ^ 52 <= Zpos my * Zpos qp) by (apply Z.mul_le_mono_nonneg_l; lia).
    nia. }
  assert (H2 : Zpos my * Zpos qp * (2 ^ 52 - 1) <= M1 * 2 ^ k * 2 ^ 52 * Zpos my).
  { replace (Zpos my * Zpos qp * (2 ^ 52 - 1)) with (Zpos qp * (2 ^ 52 - 1) * Zpos my) by ring.
    apply Z.mul_le_mono_nonneg_r; lia. }
  (* mx 2^53 (p-1) p <= my qp (p+1)(p-1) <= M1 2^k p my (p+1) *)
  assert (H3 : Zpos mx * 2 ^ 53 * (2 ^ 52 - 1) * 2 ^ 52
               <= M1 * 2 ^ k * (2 ^ 52 + 1) * Zpos my * 2 ^ 52).
  { transitivity (Zpos my * Zpos qp * (2 ^ 52 + 1) * (2 ^ 52 - 1)).
    - replace (Zpos mx * 2 ^ 53 * (2 ^ 52 - 1) * 2 ^ 52)
        with (Zpos mx * 2 ^ 53 * 2 ^ 52 * (2 ^ 52 - 1)) by ring.
      apply Z.mul_le_mono_nonneg_r; [lia | exact H1].
    - replace (Zpos my * Zpos qp * (2 ^ 52 + 1) * (2 ^ 52 - 1))
        with (Zpos my * Zpos qp * (2 ^ 52 - 1) * (2 ^ 52 + 1)) by ring.
      replace (M1 * 2 ^ k * (2 ^ 52 + 1) * Zpos my * 2 ^ 52)
        with (M1 * 2 ^ k * 2 ^ 52 * Zpos my * (2 ^ 52 + 1)) by ring.
      apply Z.mul_le_mono_nonneg_r; [lia | exact H2]. }
  apply (Z.mul_le_mono_pos_r _ _ (2 ^ 52)); [reflexivity | exact H3].
Qed.

Lemma div_nonneg_below x y lo1 hi1 lo2 hi2 :
  is_nonneg lo1 hi1 x = true -> is_normal lo2 hi2 y = true ->
  -200 <= lo1 -> -200 <= lo2 -> hi1 <= 200 -> hi2 <= 200 -> -200 <= lo1 - hi2 - 53 ->
  sv x * 2 ^ 200 * (2 ^ 52 - 1) <= sv (div x y) * sv y * (2 ^ 52 + 1).
Proof.
  intros Hx Hy L1 L2 U1 U2 L12.
  apply is_nonneg_inv in Hx as [Zx|Nx].
  - apply is_zero_inv in Zx as [sx ->].
    apply is_normal_inv in Hy as (my & ey & -> & _). reflexivity.
  - apply (div_normal_below x y lo1 hi1 lo2 hi2); assumption.
Qed.

End RoundValue.

Section Ratios.

(** [Y / X >= (V / P)] and [Z / Y >= (V' / P')] give
    [Z / X >= (V V') / (P P')]: all written with products. *)
Lemma ratio_trans X Y Z P V P' V' :
  0 <= V -> 0 <= P' ->
  Y * V <= X * P -> Z * V' <= Y * P' -> Z * (V * V') <= X * (P * P').
Proof.
  intros HV HP' H1 H2.
  transitivity (Y * V * P').
  - replace (Z * (V * V')) with (Z * V' * V) by ring.
    replace (Y * V * P') with (Y * P' * V) by ring.
    apply Z.mul_le_mono_nonneg_r; assumption.
  - replace (X * (P * P')) with (X * P * P') by ring.
    apply Z.mul_le_mono_nonneg_r; assumption.
Qed.

(** A value at least [k * (V / P)], with [V / P] close to 1, rounds to
    [k] at least. *)
Lemma ratio_floor Q k D P V :
  0 < D -> 0 < P -> 0 <= V <= P -> 0 <= k <= 255 ->
  k * D * V <= Q * P -> 510 * (P - V) <= P ->
  2 * D * k <= 2 * Q + D.
Proof.
  intros HD HP HV Hk H Hc.
  apply (Z.mul_le_mono_pos_r _ _ P HP).
  assert (H1 : k * (P - V) <= 255 * (P - V)) by (apply Z.mul_le_mono_nonneg_r; lia).
  assert (H2 : D * (2 * (k * (P - V))) <= D * P) by (apply Z.mul_le_mono_nonneg_l; lia).
  replace (2 * D * k * P) with (2 * (k * D * V) + D * (2 * (k * (P - V)))) by ring.
  replace ((2 * Q + D) * P) with (2 * (Q * P) + D * P) by ring.
  lia.
Qed.

(** A value at most [k * (P / V)] rounds to [k] at most. *)
Lemma ratio_ceil Q k D P V :
  0 < D -> 0 < V -> V <= P -> 0 <= k <= 255 ->
  Q * V <= k * D * P -> 510 * (P - V) < V ->
  2 * Q + D < 2 * D * (k + 1).
Proof.
  intros HD HV HP Hk H Hc.
  apply (Z.mul_lt_mono_pos_r V); [assumption|].
  assert (H1 : k * (P - V) <= 255 * (P - V)) by (apply Z.mul_le_mono_nonneg_r; lia).
  assert (H2 : D * (2 * (k * (P - V))) < D * V) by (apply Z.mul_lt_mono_pos_l; lia).
  replace ((2 * Q + D) * V) with (2 * (Q * V) + D * V) by ring.
  replace (2 * D * (k + 1) * V) with (2 * (k * D * P) - D * (2 * (k * (P - V))) + 2 * (D * V))
    by ring.
  lia.
Qed.

Lemma cancel_scale X Y D : 0 < D -> X * D <= Y * D -> X <= Y.
Proof. intros HD H. apply (Z.mul_le_mono_pos_r _ _ D HD). exact H. Qed.

End Ratios.


Section CompositeFurther.

Lemma alpha_close_bytes : forallb alpha_close bytes = true.
Proof. vm_compute. reflexivity. Qed.

Lemma opaque_channel_bytes : forallb opaque_channel bytes = true.
Proof. vm_compute. reflexivity. Qed.

Lemma is_byte_alpha_close a k :
  is_byte a = true -> to_Z a = Some k ->
  let A := sv (div a (of_Z 255)) in
  let C := sv (sub (of_Z 1) (div a (of_Z 255))) in
  k * 2 ^ 200 * (2 ^ 52 - 1) <= 255 * A * 2 ^ 52 /\
  255 * A * 2 ^ 52 <= k * 2 ^ 200 * (2 ^ 52 + 1) /\
  2 ^ 200 * (2 ^ 52 - 1) <= (A + C) * 2 ^ 52 /\
  (k = 255 -> div a (of_Z 255) = of_Z 1).
Proof.
  intros H Hk A C. apply is_byte_bytes in H.
  pose proof (proj1 (forallb_forall alpha_close bytes) alpha_close_bytes a H) as Hok.
  unfold alpha_close in Hok. rewrite Hk in Hok. fold A in Hok. fold C in Hok.
  apply andb_prop in Hok as [Hok H4]. apply andb_prop in Hok as [Hok H3].
  apply andb_prop in Hok as [H1 H2]. apply Z.leb_le in H1, H2, H3.
  split_and!; try assumption.
  intros ->. cbn [Z.eqb Pos.eqb implb] in H4. apply bool_decide_eq_true in H4. exact H4.
Qed.

Lemma is_byte_opaque_channel tc s :
  is_byte tc = true ->
  let c := round (div (add (mul tc (of_Z 1)) (S754_zero s)) (of_Z 1)) in
  is_byte c = true /\ to_Z c = to_Z tc.
Proof.
  intros H c. apply is_byte_bytes in H.
  pose proof (proj1 (forallb_forall opaque_channel bytes) opaque_channel_bytes tc H) as Hok.
  unfold opaque_channel in Hok. rewrite forallb_forall in Hok.
  specialize (Hok s ltac:(destruct s; cbn; auto)). fold c in Hok.
  apply andb_prop in Hok as [H1 H2]. apply bool_decide_eq_true in H2. auto.
Qed.

Lemma mul_by_zero x lo hi :
  is_nonneg lo hi x = true -> exists s, mul x (S754_zero false) = S754_zero s.
Proof.
  intros H. apply is_nonneg_inv in H as [Zx|Nx].
  - apply is_zero_inv in Zx as [s ->]. eexists. reflexivity.
  - apply is_normal_inv in Nx as (m & e & -> & _). eexists. reflexivity.
Qed.

Lemma is_byte_nonneg x : is_byte x = true -> is_nonneg (-52) (-45) x = true.
Proof. intros H. apply is_byte_inv in H as [H _]. exact H. Qed.

End CompositeFurther.

(** X10. An opaque colour hides what is under it: over any colour, the result
    has its red, green and blue, and the alpha 255. *)
Theorem composite_opaque_top_hides_bottom :
  forall top bottom : Color.t,
    byte_color top = true -> byte_color bottom = true ->
    to_Z (Color.a top) = Some 255 ->
    exists c,
      Color.composite top bottom = Return c /\ byte_color c = true /\
      to_Z (Color.r c) = to_Z (Color.r top) /\
      to_Z (Color.g c) = to_Z (Color.g top) /\
      to_Z (Color.b c) = to_Z (Color.b top) /\
      to_Z (Color.a c) = Some 255.
Proof.
  intros top bottom Ht Hb Ha.
  apply byte_color_inv in Ht as (Tr & Tg & Tb & Ta).
  apply byte_color_inv in Hb as (Br & Bg & Bb & Ba).
  destruct (is_byte_alpha_close _ _ Ta Ha) as (_ & _ & _ & Hone). specialize (Hone eq_refl).
  destruct (is_byte_alpha (Color.a bottom) Ba) as (HB & _ & _ & _).
  unfold Color.composite. rewrite Hone.
  change (sub (of_Z 1) (of_Z 1)) with (S754_zero false).
  destruct (mul_by_zero _ _ _ HB) as [s0 ->].
  change (add (of_Z 1) (S754_zero s0)) with (of_Z 1).
  change (strict_eq (of_Z 1) (of_Z 0)) with false. cbv iota zeta.
  assert (Hch : forall tc bc, is_byte tc = true -> is_byte bc = true ->
            let c := round (div (add (mul tc (of_Z 1))
                                     (mul (mul bc (div (Color.a bottom) (of_Z 255)))
                                          (S754_zero false))) (of_Z 1)) in
            is_byte c = true /\ to_Z c = to_Z tc).
  { intros tc bc Htc Hbc.
    destruct (mul_nonneg bc (div (Color.a bottom) (of_Z 255)) (-52) (-45) (-60) (-52))
      as (HY & _); try assumption; try lia; [apply is_byte_nonneg; assumption|].
    destruct (mul_by_zero _ _ _ HY) as [s ->].
    apply is_byte_opaque_channel. assumption. }
  destruct (Hch _ _ Tr Br) as [Cr Zr], (Hch _ _ Tg Bg) as [Cg Zg], (Hch _ _ Tb Bb) as [Cb Zb].
  eexists. split; [apply constructor_bytes; try assumption; reflexivity|].
  cbn [Color.r Color.g Color.b Color.a Color._r Color._g Color._b Color._a].
  split; [unfold byte_color;
          cbn [Color.r Color.g Color.b Color.a Color._r Color._g Color._b Color._a];
          rewrite Cr, Cg, Cb; reflexivity|].
  split_and!; try assumption. reflexivity.
Qed.

Lemma composite_opaque_top_hides_bottom_red_over_blue :
  exists c,
    Color.composite Colors.Red Colors.Blue = Return c /\
    to_Z (Color.r c) = Some 255 /\ to_Z (Color.g c) = Some 0 /\
    to_Z (Color.b c) = Some 0 /\ to_Z (Color.a c) = Some 255.
Proof.
  destruct (composite_opaque_top_hides_bottom Colors.Red Colors.Blue eq_refl eq_refl eq_refl)
    as (c & Hc & _ & Hr & Hg & Hb & Ha).
  exists c. split; [exact Hc|]. split_and!; assumption.
Defined.

Section AlphaArithmetic.

(** The alpha of the result is at least the alpha of the top colour. *)
Lemma alpha_at_least_top (A BC R Q k p D : Z) :
  1 < p -> 0 < D -> 0 <= A -> 0 <= BC -> 0 <= R -> 0 <= Q -> 0 <= k <= 255 ->
  R * (255 * D) * (p - 1) <= Q * D * p ->
  (A + BC) * (p - 1) <= R * p ->
  k * D * (p - 1) <= 255 * A * p ->
  510 * (p * (p * p) - (p - 1) * ((p - 1) * (p - 1))) <= p * (p * p) ->
  2 * D * k <= 2 * Q + D.
Proof.
  intros Hp HD HA HBC HR HQ Hk LQ LR LA Hc.
  remember (p - 1) as v eqn:Ev. assert (Hv : 0 < v) by lia.
  assert (r1 : 255 * R * v <= Q * p).
  { apply (cancel_scale _ _ D HD).
    replace (255 * R * v * D) with (R * (255 * D) * v) by ring.
    replace (Q * p * D) with (Q * D * p) by ring. exact LQ. }
  assert (r2 : 255 * A * v <= 255 * R * p).
  { transitivity (255 * ((A + BC) * v)).
    - replace (255 * A * v) with (255 * (A * v)) by ring.
      apply Z.mul_le_mono_nonneg_l; [lia|]. apply Z.mul_le_mono_nonneg_r; lia.
    - replace (255 * R * p) with (255 * (R * p)) by ring.
      apply Z.mul_le_mono_nonneg_l; [lia | exact LR]. }
  pose proof (ratio_trans Q (255 * R) (255 * A) p v p v ltac:(lia) ltac:(lia) r1 r2) as r12.
  pose proof (ratio_trans Q (255 * A) (k * D) (p * p) (v * v) p v ltac:(nia) ltac:(lia) r12 LA)
    as r3.
  assert (Hvp : v * (v * v) <= p * (p * p)) by (assert (v * v <= p * p) by nia; nia).
  assert (Hv3 : 0 <= v * (v * v)) by (repeat apply Z.mul_nonneg_nonneg; lia).
  assert (Hp3 : 0 < p * (p * p)) by (repeat apply Z.mul_pos_pos; lia).
  assert (r4 : k * D * (v * (v * v)) <= Q * (p * (p * p)))
    by (etransitivity; [|etransitivity; [exact r3|]]; apply Z.eq_le_incl; ring).
  apply (ratio_floor Q k D (p * (p * p)) (v * (v * v))); auto.
Qed.

(** And at least the alpha of the bottom colour. *)
Lemma alpha_at_least_bottom (A B C BC R Q k p D : Z) :
  1 < p -> 0 < D -> 0 <= A -> 0 <= B <= D -> 0 <= C -> 0 <= BC -> 0 <= R -> 0 <= Q ->
  0 <= k <= 255 ->
  R * (255 * D) * (p - 1) <= Q * D * p ->
  (A + BC) * (p - 1) <= R * p ->
  B * C * (p - 1) <= BC * D * p ->
  D * (p - 1) <= (A + C) * p ->
  k * D * (p - 1) <= 255 * B * p ->
  510 * (p * (p * (p * (p * p))) - (p - 1) * ((p - 1) * ((p - 1) * ((p - 1) * (p - 1)))))
    <= p * (p * (p * (p * p))) ->
  2 * D * k <= 2 * Q + D.
Proof.
  intros Hp HD HA HB HC HBC HR HQ Hk LQ LR LBC LAC LB Hc.
  remember (p - 1) as v eqn:Ev. assert (Hv : 0 < v) by lia.
  assert (r1 : 255 * R * v <= Q * p).
  { apply (cancel_scale _ _ D HD).
    replace (255 * R * v * D) with (R * (255 * D) * v) by ring.
    replace (Q * p * D) with (Q * D * p) by ring. exact LQ. }
  assert (r2 : 255 * (A + BC) * v <= 255 * R * p).
  { replace (255 * (A + BC) * v) with (255 * ((A + BC) * v)) by ring.
    replace (255 * R * p) with (255 * (R * p)) by ring.
    apply Z.mul_le_mono_nonneg_l; [lia | exact LR]. }
  (* (A + BC) D p >= B v (A + C) *)
  assert (s1 : B * v * (A + C) <= (A + BC) * D * p).
  { assert (A * (B * v) <= A * (D * p)).
    { apply Z.mul_le_mono_nonneg_l; [lia|].
      transitivity (D * v); [apply Z.mul_le_mono_nonneg_r; lia|].
      apply Z.mul_le_mono_nonneg_l; lia. }
    replace (B * v * (A + C)) with (A * (B * v) + B * C * v) by ring.
    replace ((A + BC) * D * p) with (A * (D * p) + BC * D * p) by ring. lia. }
  assert (s2 : B * (v * v) <= (A + BC) * (p * p)).
  { apply (cancel_scale _ _ D HD).
    transitivity (B * v * ((A + C) * p)).
    - replace (B * (v * v) * D) with (B * v * (D * v)) by ring.
      apply Z.mul_le_mono_nonneg_l; [nia | exact LAC].
    - replace (B * v * ((A + C) * p)) with (B * v * (A + C) * p) by ring.
      replace ((A + BC) * (p * p) * D) with ((A + BC) * D * p * p) by ring.
      apply Z.mul_le_mono_nonneg_r; [lia | exact s1]. }
  assert (s3 : 255 * B * (v * v) <= 255 * (A + BC) * (p * p)).
  { replace (255 * B * (v * v)) with (255 * (B * (v * v))) by ring.
    replace (255 * (A + BC) * (p * p)) with (255 * ((A + BC) * (p * p))) by ring.
    apply Z.mul_le_mono_nonneg_l; [lia | exact s2]. }
  pose proof (ratio_trans Q (255 * R) (255 * (A + BC)) p v p v ltac:(lia) ltac:(lia) r1 r2)
    as r12.
  pose proof (ratio_trans Q (255 * (A + BC)) (255 * B) (p * p) (v * v) (p * p) (v * v)
                ltac:(nia) ltac:(nia) r12 s3) as r3.
  pose proof (ratio_trans Q (255 * B) (k * D) (p * p * (p * p)) (v * v * (v * v)) p v
                ltac:(nia) ltac:(lia) r3 LB) as r4.
  assert (Hvp : v * (v * (v * (v * v))) <= p * (p * (p * (p * p)))).
  { assert (v * v <= p * p) by nia.
    assert (v * (v * v) <= p * (p * p)) by nia.
    assert (v * (v * (v * v)) <= p * (p * (p * p))) by nia. nia. }
  assert (Hv5 : 0 <= v * (v * (v * (v * v)))) by (repeat apply Z.mul_nonneg_nonneg; lia).
  assert (Hp5 : 0 < p * (p * (p * (p * p)))) by (repeat apply Z.mul_pos_pos; lia).
  assert (r5 : k * D * (v * (v * (v * (v * v)))) <= Q * (p * (p * (p * (p * p)))))
    by (etransitivity; [|etransitivity; [exact r4|]]; apply Z.eq_le_incl; ring).
  apply (ratio_floor Q k D (p * (p * (p * (p * p)))) (v * (v * (v * (v * v))))); auto.
Qed.

End AlphaArithmetic.

Section AlphaFacts.

Lemma is_normal_not_zero lo hi x :
  is_normal lo hi x = true -> strict_eq x (of_Z 0) = false.
Proof. intros H. apply is_normal_inv in H as (m & e & -> & _). reflexivity. Qed.

Lemma strict_eq_zero_sv lo hi x :
  is_nonneg lo hi x = true -> strict_eq x (of_Z 0) = true -> sv x = 0.
Proof.
  intros H E. apply is_nonneg_inv in H as [Zx|Nx].
  - apply is_zero_inv in Zx as [s ->]. reflexivity.
  - apply is_normal_not_zero in Nx. congruence.
Qed.

Lemma is_byte_zero x : is_byte x = true -> to_Z x = Some 0 -> is_zero x = true.
Proof.
  intros H Hz. destruct x as [s| | |s m e]; try reflexivity; try discriminate.
  apply to_Z_magnitude in Hz as (A & HA & Hpos & _). destruct s; cbn in HA; lia.
Qed.

Lemma transparent_alphas top_a bottom_a :
  is_zero top_a = true -> is_zero bottom_a = true ->
  strict_eq (add (div top_a (of_Z 255))
                 (mul (div bottom_a (of_Z 255)) (sub (of_Z 1) (div top_a (of_Z 255)))))
            (of_Z 0) = true.
Proof.
  intros Ht Hb. apply is_zero_inv in Ht as [s ->], Hb as [s' ->].
  destruct s, s'; reflexivity.
Qed.

End AlphaFacts.

(** X12. Compositing never gives a colour more transparent than one of its
    two layers: the alpha of the result is at least the alpha of the top
    and at least the alpha of the bottom, and it is 0 only when both are. *)
Theorem composite_alpha_covers_both :
  forall (top bottom : Color.t) (kt kb : Z),
    byte_color top = true -> byte_color bottom = true ->
    to_Z (Color.a top) = Some kt -> to_Z (Color.a bottom) = Some kb ->
    exists c ka,
      Color.composite top bottom = Return c /\ byte_color c = true /\
      to_Z (Color.a c) = Some ka /\
      Z.max kt kb <= ka <= 255 /\
      (ka = 0 <-> kt = 0 /\ kb = 0).
Proof.
  intros top bottom kt kb Ht Hb Hkt Hkb.
  apply byte_color_inv in Ht as (Tr & Tg & Tb & Ta).
  apply byte_color_inv in Hb as (Br & Bg & Bb & Ba).
  assert (Rt : 0 <= kt <= 255).
  { apply is_byte_inv in Ta as (_ & k & Hk & Rk). rewrite Hkt in Hk. injection Hk as ->. lia. }
  assert (Rb : 0 <= kb <= 255).
  { apply is_byte_inv in Ba as (_ & k & Hk & Rk). rewrite Hkb in Hk. injection Hk as ->. lia. }
  destruct (is_byte_alpha _ Ta) as (HA & HC & HA1 & HAC).
  destruct (is_byte_alpha _ Ba) as (HB & _ & HB1 & _).
  destruct (is_byte_alpha_close _ _ Ta Hkt) as (At_lo & _ & AC_lo & _).
  destruct (is_byte_alpha_close _ _ Ba Hkb) as (Ab_lo & _ & _ & _).
  unfold Color.composite.
  set (ta := div (Color.a top) (of_Z 255)) in *.
  set (ba := div (Color.a bottom) (of_Z 255)) in *.
  set (C := sub (of_Z 1) ta) in *.
  destruct (mul_nonneg ba C (-60) (-52) (-60) (-52)) as (HBC & U1 & L1);
    try assumption; try lia.
  destruct (add_nonneg ta (mul ba C) _ _ _ _ HA HBC) as (HR & U2 & L2); try lia.
  set (ra := add ta (mul ba C)) in *.
  pose proof (sv_nonneg ta) as PA. pose proof (sv_nonneg ba) as PB.
  pose proof (sv_nonneg C) as PC. pose proof (sv_nonneg (mul ba C)) as PBC.
  pose proof (sv_nonneg ra) as PR.
  assert (HD : 0 < 2 ^ 200) by reflexivity.
  destruct (strict_eq ra (of_Z 0)) eqn:E.
  - (* the short cut: both alphas are zero *)
    pose proof (strict_eq_zero_sv _ _ _ HR E) as R0. rewrite R0 in L2.
    assert (A0 : sv ta = 0) by nia. assert (BC0 : sv (mul ba C) = 0) by nia.
    rewrite A0 in At_lo, AC_lo. rewrite BC0 in L1.
    assert (Kt : kt = 0) by nia.
    assert (C0 : 0 < sv C) by nia.
    assert (B0 : sv ba = 0) by nia.
    rewrite B0 in Ab_lo. assert (Kb : kb = 0) by nia.
    exists (Color.Build (of_Z 0) (of_Z 0) (of_Z 0) (of_Z 0)), 0.
    split; [apply constructor_zero|]. split; [reflexivity|]. split; [reflexivity|].
    subst kt kb. split; [cbn; lia | tauto].
  - (* the blend *)
    pose proof (over_channel_byte _ _ Ta Ba E _ _ Tr Br) as Hr.
    pose proof (over_channel_byte _ _ Ta Ba E _ _ Tg Bg) as Hg.
    pose proof (over_channel_byte _ _ Ta Ba E _ _ Tb Bb) as Hbl.
    fold ta ba C ra in Hr, Hg, Hbl. unfold Spec.over_channel in Hr, Hg, Hbl.
    cbv zeta.
    assert (H255 : is_nonneg (-45) (-45) (of_Z 255) = true) by reflexivity.
    destruct (mul_nonneg ra (of_Z 255) _ _ _ _ HR H255) as (HQ & UQ & LQ); try lia.
    change (sv (of_Z 255)) with (255 * 2 ^ 200) in UQ, LQ.
    pose proof (sv_nonneg (mul ra (of_Z 255))) as PQ.
    assert (Hup : 2 * sv (mul ra (of_Z 255)) < 511 * 2 ^ 200).
    { apply (alpha_result_bound (sv ta) (sv ba) (sv C) (sv (mul ba C)) (sv ra) _
               (2 ^ 52) (2 ^ 200)); try assumption; try lia. }
    assert (Lt : 2 * 2 ^ 200 * kt <= 2 * sv (mul ra (of_Z 255)) + 2 ^ 200).
    { apply (alpha_at_least_top (sv ta) (sv (mul ba C)) (sv ra) _ kt (2 ^ 52) (2 ^ 200));
        try assumption; try lia. }
    assert (Lb : 2 * 2 ^ 200 * kb <= 2 * sv (mul ra (of_Z 255)) + 2 ^ 200).
    { apply (alpha_at_least_bottom (sv ta) (sv ba) (sv C) (sv (mul ba C)) (sv ra) _ kb
               (2 ^ 52) (2 ^ 200)); try assumption; try lia. }
    destruct (round_at_least _ _ _ kt HQ ltac:(lia) Hup Lt) as (ka & Hka & Rka).
    destruct (round_at_least _ _ _ kb HQ ltac:(lia) Hup Lb) as (ka' & Hka' & Rka').
    rewrite Hka in Hka'. injection Hka' as <-.
    assert (Ha : is_byte (round (mul ra (of_Z 255))) = true)
      by (apply (round_small _ _ _ HQ); [lia | exact Hup]).
    eexists. exists ka. split; [apply constructor_bytes; assumption|].
    split; [unfold byte_color;
            cbn [Color.r Color.g Color.b Color.a Color._r Color._g Color._b Color._a];
            apply andb_true_intro; split;
              [apply andb_true_intro; split; [apply andb_true_intro; split|]|];
            assumption|].
    split; [exact Hka|]. split; [lia|].
    assert (Hnz : ~ (kt = 0 /\ kb = 0)).
    { intros [-> ->].
      pose proof (transparent_alphas _ _ (is_byte_zero _ Ta Hkt) (is_byte_zero _ Ba Hkb)) as E'.
      fold ta ba C ra in E'. congruence. }
    split; [intros ->; lia | tauto].
Qed.

Lemma composite_alpha_covers_both_example :
  exists c ka,
    Color.composite (Colors.rgba 255 0 0 128) (Colors.rgba 0 0 255 64) = Return c /\
    to_Z (Color.a c) = Some ka /\ Z.max 128 64 <= ka <= 255.
Proof.
  destruct (composite_alpha_covers_both (Colors.rgba 255 0 0 128) (Colors.rgba 0 0 255 64)
              128 64 eq_refl eq_refl eq_refl eq_refl)
    as (c & ka & Hc & _ & Hka & Rka & _).
  exists c, ka. auto.
Defined.

Section ShowsBottomArithmetic.

(** Under a transparent top the channel is [fl (fl (fl (bc * ba) * 1) / fl (ba * 1))]:
    the bounds on the operations, chained. *)
Lemma shown_channel_within (k B R Y' Y S Q p D : Z) :
  1 < p -> 0 < D -> 0 < B -> 0 <= R -> 0 <= Y' -> 0 <= Y -> 0 <= S -> 0 <= Q ->
  0 <= k <= 255 ->
  Y' * D * p <= k * D * B * (p + 1) -> k * D * B * (p - 1) <= Y' * D * p ->
  Y * D * p <= Y' * D * (p + 1) -> Y' * D * (p - 1) <= Y * D * p ->
  S * p <= Y * (p + 1) -> Y * (p - 1) <= S * p ->
  Q * R * p <= S * D * (p + 1) -> S * D * (p - 1) <= Q * R * (p + 1) ->
  R * D * p <= B * D * (p + 1) -> B * D * (p - 1) <= R * D * p ->
  510 * ((p + 1) * ((p + 1) * ((p + 1) * (p + 1))) - (p - 1) * (p * (p * p)))
    < (p - 1) * (p * (p * p)) ->
  510 * ((p + 1) * (p + 1) * (p * p) - (p - 1) * ((p - 1) * ((p - 1) * (p - 1))))
    <= (p + 1) * (p + 1) * (p * p) ->
  2 * D * k <= 2 * Q + D < 2 * D * (k + 1).
Proof.
  intros Hp HD HB HR HY' HY HS HQ Hk UY' LY' UY LY US LS UQ LQ UR LR Hc1 Hc2.
  remember (p + 1) as u eqn:Eu. remember (p - 1) as v eqn:Ev.
  assert (Hu : 0 < u) by lia. assert (Hv : 0 < v) by lia.
  (* the operations without the scale *)
  assert (uy' : Y' * p <= k * B * u).
  { apply (cancel_scale _ _ D HD).
    replace (Y' * p * D) with (Y' * D * p) by ring.
    replace (k * B * u * D) with (k * D * B * u) by ring. exact UY'. }
  assert (ly' : k * B * v <= Y' * p).
  { apply (cancel_scale _ _ D HD).
    replace (k * B * v * D) with (k * D * B * v) by ring.
    replace (Y' * p * D) with (Y' * D * p) by ring. exact LY'. }
  assert (uy : Y * p <= Y' * u).
  { apply (cancel_scale _ _ D HD).
    replace (Y * p * D) with (Y * D * p) by ring.
    replace (Y' * u * D) with (Y' * D * u) by ring. exact UY. }
  assert (ly : Y' * v <= Y * p).
  { apply (cancel_scale _ _ D HD).
    replace (Y' * v * D) with (Y' * D * v) by ring.
    replace (Y * p * D) with (Y * D * p) by ring. exact LY. }
  assert (ur : R * p <= B * u).
  { apply (cancel_scale _ _ D HD).
    replace (R * p * D) with (R * D * p) by ring.
    replace (B * u * D) with (B * D * u) by ring. exact UR. }
  assert (lr : B * v <= R * p).
  { apply (cancel_scale _ _ D HD).
    replace (B * v * D) with (B * D * v) by ring.
    replace (R * p * D) with (R * D * p) by ring. exact LR. }
  (* S against k * B *)
  pose proof (ratio_trans (k * B) Y' Y u p u p ltac:(lia) ltac:(lia) uy' uy) as us2.
  pose proof (ratio_trans (k * B) Y S (u * u) (p * p) u p ltac:(nonneg) ltac:(lia) us2 US) as us3.
  pose proof (ratio_trans S Y Y' p v p v ltac:(lia) ltac:(lia) LS ly) as ls2.
  pose proof (ratio_trans S Y' (k * B) (p * p) (v * v) p v ltac:(nonneg) ltac:(lia) ls2 ly') as ls3.
  assert (Pp3 : 0 < p * (p * p)) by (repeat apply Z.mul_pos_pos; lia).
  split.
  - (* from below: k D v^4 <= Q u^2 p^2 *)
    assert (H1 : S * D * v * p <= Q * B * (u * u)).
    { transitivity (Q * R * u * p).
      - apply Z.mul_le_mono_nonneg_r; [lia | exact LQ].
      - replace (Q * R * u * p) with (Q * u * (R * p)) by ring.
        replace (Q * B * (u * u)) with (Q * u * (B * u)) by ring.
        apply Z.mul_le_mono_nonneg_l; [nonneg | exact ur]. }
    assert (H2 : B * (p * (k * D * (v * (v * (v * v))))) <= B * (p * (Q * (u * u * (p * p))))).
    { transitivity (S * (p * p * p) * (D * v * p)).
      - replace (B * (p * (k * D * (v * (v * (v * v))))))
          with (k * B * (v * v * v) * (D * v * p)) by ring.
        apply Z.mul_le_mono_nonneg_r; [nonneg|].
        etransitivity; [|etransitivity; [exact ls3|]]; apply Z.eq_le_incl; ring.
      - replace (S * (p * p * p) * (D * v * p)) with (S * D * v * p * (p * p * p)) by ring.
        replace (B * (p * (Q * (u * u * (p * p))))) with (Q * B * (u * u) * (p * p * p)) by ring.
        apply Z.mul_le_mono_nonneg_r; [nonneg | exact H1]. }
    apply Z.mul_le_mono_pos_l in H2; [|assumption].
    apply Z.mul_le_mono_pos_l in H2; [|lia].
    apply (ratio_floor Q k D (u * u * (p * p)) (v * (v * (v * v)))); auto.
    + repeat apply Z.mul_pos_pos; lia.
    + split; [nonneg|].
      assert (Hvv : v * v <= p * p) by (apply Z.mul_le_mono_nonneg; lia).
      assert (Hpp : p * p <= u * u) by (apply Z.mul_le_mono_nonneg; lia).
      assert (0 <= v * v) by nonneg. assert (0 <= p * p) by nonneg.
      replace (v * (v * (v * v))) with (v * v * (v * v)) by ring.
      apply Z.mul_le_mono_nonneg; lia.
  - (* from above: Q v p^3 <= k D u^4 *)
    assert (H1 : Q * B * v <= S * D * u).
    { transitivity (Q * R * p); [|exact UQ].
      replace (Q * B * v) with (Q * (B * v)) by ring.
      replace (Q * R * p) with (Q * (R * p)) by ring.
      apply Z.mul_le_mono_nonneg_l; [lia | exact lr]. }
    assert (H2 : B * (Q * (v * (p * (p * p)))) <= B * (k * D * (u * (u * (u * u))))).
    { transitivity (S * D * u * (p * p * p)).
      - replace (B * (Q * (v * (p * (p * p))))) with (Q * B * v * (p * p * p)) by ring.
        apply Z.mul_le_mono_nonneg_r; [nonneg | exact H1].
      - replace (S * D * u * (p * p * p)) with (S * (p * p * p) * (D * u)) by ring.
        replace (B * (k * D * (u * (u * (u * u))))) with (k * B * (u * u * u) * (D * u)) by ring.
        apply Z.mul_le_mono_nonneg_r; [nonneg|].
        etransitivity; [|etransitivity; [exact us3|]]; apply Z.eq_le_incl; ring. }
    apply Z.mul_le_mono_pos_l in H2; [|assumption].
    apply (ratio_ceil Q k D (u * (u * (u * u))) (v * (p * (p * p)))); auto.
    + repeat apply Z.mul_pos_pos; lia.
    + assert (Hpp : p * p <= u * u) by (apply Z.mul_le_mono_nonneg; lia).
      assert (0 <= p * p) by nonneg.
      replace (v * (p * (p * p))) with (v * p * (p * p)) by ring.
      replace (u * (u * (u * u))) with (u * u * (u * u)) by ring.
      apply Z.mul_le_mono_nonneg; [nonneg | | lia | lia].
      apply Z.mul_le_mono_nonneg; lia.
Qed.

(** And the alpha is [fl (fl (ba * 1) * 255)] with [ba = fl (kb / 255)]. *)
Lemma shown_alpha_within (k B R Q p D : Z) :
  1 < p -> 0 < D -> 0 <= B -> 0 <= R -> 0 <= Q -> 0 <= k <= 255 ->
  Q * D * p <= R * (255 * D) * (p + 1) -> R * (255 * D) * (p - 1) <= Q * D * p ->
  R * D * p <= B * D * (p + 1) -> B * D * (p - 1) <= R * D * p ->
  255 * B * p <= k * D * (p + 1) -> k * D * (p - 1) <= 255 * B * p ->
  510 * ((p + 1) * ((p + 1) * (p + 1)) - p * (p * p)) < p * (p * p) ->
  510 * (p * (p * p) - (p - 1) * ((p - 1) * (p - 1))) <= p * (p * p) ->
  2 * D * k <= 2 * Q + D < 2 * D * (k + 1).
Proof.
  intros Hp HD HB HR HQ Hk UQ LQ UR LR UB LB Hc1 Hc2.
  remember (p + 1) as u eqn:Eu. remember (p - 1) as v eqn:Ev.
  assert (Hu : 0 < u) by lia. assert (Hv : 0 < v) by lia.
  assert (uq : Q * p <= 255 * R * u).
  { apply (cancel_scale _ _ D HD).
    replace (Q * p * D) with (Q * D * p) by ring.
    replace (255 * R * u * D) with (R * (255 * D) * u) by ring. exact UQ. }
  assert (lq : 255 * R * v <= Q * p).
  { apply (cancel_scale _ _ D HD).
    replace (255 * R * v * D) with (R * (255 * D) * v) by ring.
    replace (Q * p * D) with (Q * D * p) by ring. exact LQ. }
  assert (ur : 255 * R * p <= 255 * B * u).
  { apply (cancel_scale _ _ D HD).
    replace (255 * R * p * D) with (255 * (R * D * p)) by ring.
    replace (255 * B * u * D) with (255 * (B * D * u)) by ring.
    apply Z.mul_le_mono_nonneg_l; [lia | exact UR]. }
  assert (lr : 255 * B * v <= 255 * R * p).
  { apply (cancel_scale _ _ D HD).
    replace (255 * B * v * D) with (255 * (B * D * v)) by ring.
    replace (255 * R * p * D) with (255 * (R * D * p)) by ring.
    apply Z.mul_le_mono_nonneg_l; [lia | exact LR]. }
  pose proof (ratio_trans (k * D) (255 * B) (255 * R) u p u p ltac:(lia) ltac:(lia) UB ur) as u2.
  pose proof (ratio_trans (k * D) (255 * R) Q (u * u) (p * p) u p ltac:(nonneg) ltac:(lia) u2 uq)
    as u3.
  pose proof (ratio_trans Q (255 * R) (255 * B) p v p v ltac:(lia) ltac:(lia) lq lr) as l2.
  pose proof (ratio_trans Q (255 * B) (k * D) (p * p) (v * v) p v ltac:(nonneg) ltac:(lia) l2 LB)
    as l3.
  assert (Pp3 : 0 < p * (p * p)) by (repeat apply Z.mul_pos_pos; lia).
  split.
  - apply (ratio_floor Q k D (p * (p * p)) (v * (v * v))); auto.
    + split; [nonneg|].
      assert (Hvv : v * v <= p * p) by (apply Z.mul_le_mono_nonneg; lia).
      assert (0 <= v * v) by nonneg.
      apply Z.mul_le_mono_nonneg; lia.
    + etransitivity; [|etransitivity; [exact l3|]]; apply Z.eq_le_incl; ring.
  - apply (ratio_ceil Q k D (u * (u * u)) (p * (p * p))); auto.
    + assert (Hpp : p * p <= u * u) by (apply Z.mul_le_mono_nonneg; lia).
      assert (0 <= p * p) by nonneg.
      apply Z.mul_le_mono_nonneg; lia.
    + etransitivity; [|etransitivity; [exact u3|]]; apply Z.eq_le_incl; ring.
Qed.

End ShowsBottomArithmetic.

Section ShowsBottomFacts.

Lemma is_byte_sv_value x k : is_byte x = true -> to_Z x = Some k -> sv x = k * 2 ^ 200.
Proof.
  intros H Hk. apply is_byte_inv in H as (Hn & _).
  apply is_nonneg_inv in Hn as [Zx|Nx].
  - apply is_zero_inv in Zx as [s ->]. injection Hk as <-. reflexivity.
  - apply is_normal_inv in Nx as (m & e & -> & Dm & He).
    apply to_Z_magnitude in Hk as (A & -> & HA & HAm). cbn [cond_Zopp sv].
    apply HAm; lia.
Qed.

Lemma is_byte_normal x k :
  is_byte x = true -> to_Z x = Some k -> 1 <= k -> is_normal (-52) (-45) x = true.
Proof.
  intros H Hk Hpos. apply is_byte_inv in H as (Hn & _).
  apply is_nonneg_inv in Hn as [Zx|Nx]; [|assumption].
  apply is_zero_inv in Zx as [s ->]. injection Hk as <-. lia.
Qed.

Lemma is_nonneg_of_normal lo hi lo' hi' x :
  is_nonneg lo hi x = true -> is_normal lo' hi' x = true -> is_normal lo hi x = true.
Proof.
  intros Hn Hx. apply is_nonneg_inv in Hn as [Zx|Nx]; [|assumption].
  apply is_zero_inv in Zx as [s ->]. discriminate.
Qed.

Lemma mul_zero_right x s lo hi :
  is_nonneg lo hi x = true -> exists s', mul x (S754_zero s) = S754_zero s'.
Proof.
  intros H. apply is_nonneg_inv in H as [Zx|Nx].
  - apply is_zero_inv in Zx as [sx ->]. eexists. reflexivity.
  - apply is_normal_inv in Nx as (m & e & -> & _). eexists. reflexivity.
Qed.

Lemma shown_channel_c1 :
  510 * ((2 ^ 52 + 1) * ((2 ^ 52 + 1) * ((2 ^ 52 + 1) * (2 ^ 52 + 1)))
         - (2 ^ 52 - 1) * (2 ^ 52 * (2 ^ 52 * 2 ^ 52)))
  < (2 ^ 52 - 1) * (2 ^ 52 * (2 ^ 52 * 2 ^ 52)).
Proof. vm_compute. reflexivity. Qed.

Lemma shown_channel_c2 :
  510 * ((2 ^ 52 + 1) * (2 ^ 52 + 1) * (2 ^ 52 * 2 ^ 52)
         - (2 ^ 52 - 1) * ((2 ^ 52 - 1) * ((2 ^ 52 - 1) * (2 ^ 52 - 1))))
  <= (2 ^ 52 + 1) * (2 ^ 52 + 1) * (2 ^ 52 * 2 ^ 52).
Proof. vm_compute. discriminate. Qed.

Lemma shown_alpha_c1 :
  510 * ((2 ^ 52 + 1) * ((2 ^ 52 + 1) * (2 ^ 52 + 1)) - 2 ^ 52 * (2 ^ 52 * 2 ^ 52))
  < 2 ^ 52 * (2 ^ 52 * 2 ^ 52).
Proof. vm_compute. reflexivity. Qed.

Lemma shown_alpha_c2 :
  510 * (2 ^ 52 * (2 ^ 52 * 2 ^ 52) - (2 ^ 52 - 1) * ((2 ^ 52 - 1) * (2 ^ 52 - 1)))
  <= 2 ^ 52 * (2 ^ 52 * 2 ^ 52).
Proof. vm_compute. discriminate. Qed.

End ShowsBottomFacts.

(** X11. A fully transparent colour shows what is under it: over a colour that
    is not itself fully transparent, the result has the red, green, blue
    and alpha of that colour. *)
Theorem composite_transparent_top_shows_bottom :
  forall (top bottom : Color.t) (kb : Z),
    byte_color top = true -> byte_color bottom = true ->
    to_Z (Color.a top) = Some 0 -> to_Z (Color.a bottom) = Some kb -> 1 <= kb ->
    exists c,
      Color.composite top bottom = Return c /\ byte_color c = true /\
      to_Z (Color.r c) = to_Z (Color.r bottom) /\
      to_Z (Color.g c) = to_Z (Color.g bottom) /\
      to_Z (Color.b c) = to_Z (Color.b bottom) /\
      to_Z (Color.a c) = Some kb.
Proof.
  intros top bottom kb Ht Hb Hkt Hkb Hpos.
  apply byte_color_inv in Ht as (Tr & Tg & Tb & Ta).
  apply byte_color_inv in Hb as (Br & Bg & Bb & Ba).
  assert (Rb : 0 <= kb <= 255).
  { apply is_byte_inv in Ba as (_ & k & Hk & Rk). rewrite Hkb in Hk. injection Hk as ->. lia. }
  assert (HD : 0 < 2 ^ 200) by reflexivity.
  (* the alphas *)
  pose proof (is_byte_zero _ Ta Hkt) as Zt. apply is_zero_inv in Zt as [st Et].
  destruct (is_byte_alpha _ Ba) as (HB & _ & _ & _).
  destruct (is_byte_alpha_close _ _ Ba Hkb) as (Ab_lo & Ab_hi & _ & _).
  pose proof (is_byte_normal _ _ Ba Hkb Hpos) as Nb.
  assert (H255 : is_normal (-45) (-45) (of_Z 255) = true) by reflexivity.
  destruct (div_normal (Color.a bottom) (of_Z 255) _ _ _ _ Nb H255) as (NB' & _); try lia.
  pose proof (is_nonneg_of_normal _ _ _ _ _ HB NB') as NB.
  unfold Color.composite. rewrite Et.
  assert (Eta : div (S754_zero st) (of_Z 255) = S754_zero st) by (destruct st; reflexivity).
  rewrite Eta.
  assert (EC : sub (of_Z 1) (S754_zero st) = of_Z 1) by (destruct st; reflexivity).
  rewrite EC.
  set (ba := div (Color.a bottom) (of_Z 255)) in *.
  assert (H1 : is_normal (-52) (-52) (of_Z 1) = true) by reflexivity.
  destruct (mul_normal ba (of_Z 1) _ _ _ _ NB H1) as (NR & UR & LR); try lia.
  change (sv (of_Z 1)) with (2 ^ 200) in UR, LR.
  assert (Era : add (S754_zero st) (mul ba (of_Z 1)) = mul ba (of_Z 1)).
  { apply is_normal_inv in NR as (m & e & -> & _). reflexivity. }
  rewrite Era. set (ra := mul ba (of_Z 1)) in *.
  rewrite (is_normal_not_zero _ _ _ NR). cbv iota zeta.
  pose proof (sv_normal_pos _ _ _ NB ltac:(lia)) as PB.
  pose proof (sv_nonneg ra) as PR.
  (* the red, green and blue *)
  assert (Hch : forall tc bc kc, is_byte tc = true -> is_byte bc = true ->
            to_Z bc = Some kc ->
            let c := round (div (add (mul tc (S754_zero st)) (mul (mul bc ba) (of_Z 1))) ra) in
            is_byte c = true /\ to_Z c = Some kc).
  { intros tc bc kc Htc Hbc Hkc.
    assert (Rc : 0 <= kc <= 255).
    { apply is_byte_inv in Hbc as (_ & k & Hk & Rk). rewrite Hkc in Hk.
      injection Hk as ->. lia. }
    pose proof (is_byte_sv_value _ _ Hbc Hkc) as Sbc.
    destruct (mul_zero_right tc st _ _ (is_byte_nonneg _ Htc)) as [sx ->].
    destruct (mul_nonneg bc ba (-52) (-45) (-60) (-52)) as (HY' & UY' & LY');
      try lia; [apply is_byte_nonneg; assumption | apply is_nonneg_normal; assumption|].
    rewrite Sbc in UY', LY'.
    destruct (mul_nonneg (mul bc ba) (of_Z 1) _ _ (-52) (-52) HY') as (HY & UY & LY);
      try lia; [reflexivity|].
    change (sv (of_Z 1)) with (2 ^ 200) in UY, LY.
    assert (HX : is_nonneg (-60) (-41) (S754_zero sx) = true) by reflexivity.
    destruct (add_nonneg (S754_zero sx) (mul (mul bc ba) (of_Z 1)) (-60) (-41)
                (-52 + -60 + 52 + -52 + 52) (-45 + -52 + 54 + -52 + 54) HX HY)
      as (HS & US & LS); try lia.
    change (sv (S754_zero sx)) with 0 in US, LS. rewrite Z.add_0_l in US, LS.
    destruct (div_nonneg _ ra _ _ _ _ HS NR) as (HQ & UQ); try lia.
    pose proof (div_nonneg_below _ ra _ _ _ _ HS NR ltac:(lia) ltac:(lia) ltac:(lia)
                  ltac:(lia) ltac:(lia)) as LQ.
    apply (round_within _ _ _ kc HQ); [lia | assumption|].
    exact (shown_channel_within kc (sv ba) (sv ra) (sv (mul bc ba))
             (sv (mul (mul bc ba) (of_Z 1)))
             (sv (add (S754_zero sx) (mul (mul bc ba) (of_Z 1)))) _ (2 ^ 52) (2 ^ 200)
             eq_refl HD PB PR (sv_nonneg _) (sv_nonneg _) (sv_nonneg _) (sv_nonneg _) Rc
             UY' LY' UY LY US LS UQ LQ UR LR shown_channel_c1 shown_channel_c2). }
  destruct (to_Z (Color.r bottom)) as [kr|] eqn:Zr;
    [|apply is_byte_inv in Br as (_ & k & Hk & _); congruence].
  destruct (to_Z (Color.g bottom)) as [kg|] eqn:Zg;
    [|apply is_byte_inv in Bg as (_ & k & Hk & _); congruence].
  destruct (to_Z (Color.b bottom)) as [kbl|] eqn:Zb;
    [|apply is_byte_inv in Bb as (_ & k & Hk & _); congruence].
  destruct (Hch _ _ _ Tr Br Zr) as [Cr Vr], (Hch _ _ _ Tg Bg Zg) as [Cg Vg],
           (Hch _ _ _ Tb Bb Zb) as [Cb Vb].
  (* the alpha *)
  assert (Ha : is_byte (round (mul ra (of_Z 255))) = true /\
               to_Z (round (mul ra (of_Z 255))) = Some kb).
  { destruct (mul_nonneg ra (of_Z 255) _ _ (-45) (-45) (is_nonneg_normal _ _ _ NR))
      as (HQ & UQ & LQ); try lia; [reflexivity|].
    change (sv (of_Z 255)) with (255 * 2 ^ 200) in UQ, LQ.
    apply (round_within _ _ _ kb HQ); [lia | assumption|].
    exact (shown_alpha_within kb (sv ba) (sv ra) _ (2 ^ 52) (2 ^ 200)
             eq_refl HD (sv_nonneg _) PR (sv_nonneg _) Rb
             UQ LQ UR LR Ab_hi Ab_lo shown_alpha_c1 shown_alpha_c2). }
  destruct Ha as [Ca Va].
  eexists. split; [apply constructor_bytes; assumption|].
  cbn [Color.r Color.g Color.b Color.a Color._r Color._g Color._b Color._a].
  split; [unfold byte_color;
          cbn [Color.r Color.g Color.b Color.a Color._r Color._g Color._b Color._a];
          apply andb_true_intro; split;
            [apply andb_true_intro; split; [apply andb_true_intro; split|]|];
          assumption|].
  auto.
Qed.

Lemma composite_transparent_top_shows_bottom_example :
  exists c,
    Color.composite (Colors.rgba 255 0 0 0) (Colors.rgba 10 20 30 40) = Return c /\
    to_Z (Color.r c) = Some 10 /\ to_Z (Color.g c) = Some 20 /\
    to_Z (Color.b c) = Some 30 /\ to_Z (Color.a c) = Some 40.
Proof.
  destruct (composite_transparent_top_shows_bottom (Colors.rgba 255 0 0 0)
              (Colors.rgba 10 20 30 40) 40 eq_refl eq_refl eq_refl eq_refl ltac:(lia))
    as (c & Hc & _ & Hr & Hg & Hb & Ha).
  exists c. split; [exact Hc|]. split_and!; assumption.
Defined.
